(** * record-mapper: path reader, path writer and mapping interpreter

    A shallow embedding of [main.js] (getValueByPath, setValueByPath,
    transforms.countryFromISO, resolveSpec, transform, transformOne) and the
    properties of it that the specification states, followed by further
    properties that the code shows.

    ** The data model

    JavaScript objects and arrays are mutable and are passed by reference:
    [setValueByPath] stores the very value it is given ([current[key] = value])
    and later calls descend into whatever is stored there.  The embedding
    therefore keeps an explicit store: a value is a primitive or a reference
    to a store cell, a cell is an object (its own properties, in enumeration
    order) or an array (its elements, plus the named properties an array can
    carry), and every function that allocates or assigns threads the store.
    What [console.warn] receives is kept in a list next to the store.

    Boundaries of the model, all of them visible in the definitions below:
    - objects are dictionaries of their own properties.  What JavaScript
      finds on a prototype is modelled at two places only: the lookup
      [transforms[fnName]] of the interpreter, which finds the functions of
      [Object.prototype], and [String(x)], which prints an object through
      the inherited [toString].  Everywhere else a key that is not an own
      property reads as undefined, where JavaScript answers with an
      inherited method ([{}.toString], [[].push], ["s".trim]) or with the
      prototype itself ([__proto__]), and raises when [caller] or
      [arguments] is read from such a method; and an assignment to
      [__proto__] is stored as an own property, where JavaScript hands it
      to the accessor of [Object.prototype].  The properties below that
      depend on this are stated for keys other than the inherited ones
      ([inherited_name], [prototype_free]);
    - numbers are integers ([Z]); the program only copies numbers, tests their
      type and truthiness, and prints them as property keys.  An integer has
      a string form up to 2^53 in magnitude, where [String] prints every
      digit (a larger one is copied as it is and has no string form here);
      and an index read [x[n]] looks among the elements of the array,
      which is what JavaScript does for [n] below 2^32 - 1;
    - strings are sequences of 8-bit characters standing for ASCII text:
      [trim] strips ASCII white space and [toUpperCase] maps a-z to A-Z,
      which is what JavaScript does on a string of ASCII characters
      ([ascii_text]);
    - arrays are dense: a write past the end of an array, a write to an
      array's [length], and the string form of an array are reported as
      [Beyond] (outside the model) rather than given a meaning.  The
      methods that the program calls on an array ([push], [slice], [map])
      are the ones that every array inherits: an array that carries a named
      property [push], [slice], [map] or [constructor] of its own, which no
      array of a JSON text does, is not given the meaning JavaScript gives
      it ([named_properties]);
    - the host's [Intl.DisplayNames] is a parameter of [countryFromISO], and
      the registry is a parameter of the interpreter; a registered function
      reads the store and its arguments and returns a value or raises. *)

From Stdlib Require Import ZArith NArith Lia Ascii String DecimalString.
From stdpp Require Import base option list strings.

Open Scope string_scope.
Open Scope list_scope.

(** ** Outcomes: a value, a raised exception, or outside the model *)

Inductive outcome (A : Type) : Type :=
  | Ok (a : A)
  | Throw (msg : string)
  | Beyond.
Arguments Ok {A} a.
Arguments Throw {A} msg.
Arguments Beyond {A}.

Global Instance outcome_bind : MBind outcome := fun A B f m =>
  match m with
  | Ok a => f a
  | Throw msg => Throw msg
  | Beyond => Beyond
  end.

(** ** Strings *)

Module Str.

Fixpoint endsWith (suffix s : string) : bool :=
  String.eqb s suffix ||
  match s with
  | EmptyString => false
  | String _ s' => endsWith suffix s'
  end.

Fixpoint startsWith (pre s : string) : bool :=
  match pre with
  | EmptyString => true
  | String a pre' =>
      match s with
      | EmptyString => false
      | String b s' => Ascii.eqb a b && startsWith pre' s'
      end
  end.

(** [s.slice(1)] *)
Definition slice1 (s : string) : string :=
  match s with
  | EmptyString => EmptyString
  | String _ s' => s'
  end.

(** [s.slice(0, -2)] *)
Definition slice_0_m2 (s : string) : string :=
  String.substring 0 (String.length s - 2) s.

(** [s.split(sep)] for a one-character separator *)
Fixpoint split (sep : ascii) (s : string) : list string :=
  match s with
  | EmptyString => [EmptyString]
  | String c s' =>
      if Ascii.eqb c sep then EmptyString :: split sep s'
      else match split sep s' with
           | [] => [String c EmptyString]
           | w :: ws => String c w :: ws
           end
  end.

Definition is_digit (c : ascii) : bool :=
  let n := nat_of_ascii c in (48 <=? n)%nat && (n <=? 57)%nat.

Definition is_space (c : ascii) : bool :=
  let n := nat_of_ascii c in
  ((9 <=? n)%nat && (n <=? 13)%nat) || (n =? 32)%nat.

Definition upper (c : ascii) : ascii :=
  let n := nat_of_ascii c in
  if (97 <=? n)%nat && (n <=? 122)%nat then ascii_of_nat (n - 32) else c.

Fixpoint toUpperCase (s : string) : string :=
  match s with
  | EmptyString => EmptyString
  | String c s' => String (upper c) (toUpperCase s')
  end.

Fixpoint trimStart (s : string) : string :=
  match s with
  | EmptyString => EmptyString
  | String c s' => if is_space c then trimStart s' else s
  end.

Fixpoint all_space (s : string) : bool :=
  match s with
  | EmptyString => true
  | String c s' => is_space c && all_space s'
  end.

Fixpoint trimEnd (s : string) : string :=
  match s with
  | EmptyString => EmptyString
  | String c s' => if all_space s then EmptyString else String c (trimEnd s')
  end.

Definition trim (s : string) : string := trimEnd (trimStart s).

(** value of a string of decimal digits, most significant first *)
Fixpoint digits_value (acc : N) (s : string) : N :=
  match s with
  | EmptyString => acc
  | String c s' =>
      digits_value (acc * 10 + N.of_nat (nat_of_ascii c - 48)) s'
  end.

Fixpoint all_digits (s : string) : bool :=
  match s with
  | EmptyString => true
  | String c s' => is_digit c && all_digits s'
  end.

Definition of_N (n : N) : string := NilZero.string_of_uint (N.to_uint n).
Definition of_Z (z : Z) : string := NilZero.string_of_int (Z.to_int z).

End Str.

(** ** Values and the store *)

Abbreviation addr := nat.

Inductive val : Type :=
  | VUndef
  | VNull
  | VBool (b : bool)
  | VNum (z : Z)
  | VStr (s : string)
  | VRef (a : addr).

Inductive cell : Type :=
  | CObj (props : list (string * val))
  | CArr (elems : list val) (extra : list (string * val)).

Abbreviation heap := (list cell).

Global Instance val_eq_dec : EqDecision val.
Proof. solve_decision. Defined.

Definition val_eqb (v w : val) : bool := bool_decide (v = w).

(** [x == null] *)
Definition is_nullish (v : val) : bool :=
  match v with
  | VUndef | VNull => true
  | _ => false
  end.

(** ToBoolean *)
Definition truthy (v : val) : bool :=
  match v with
  | VUndef | VNull => false
  | VBool b => b
  | VNum z => negb (z =? 0)%Z
  | VStr s => negb (String.eqb s "")
  | VRef _ => true
  end.

(** [typeof x]; no value of the model is a function *)
Definition typeof (v : val) : string :=
  match v with
  | VUndef => "undefined"
  | VNull => "object"
  | VBool _ => "boolean"
  | VNum _ => "number"
  | VStr _ => "string"
  | VRef _ => "object"
  end.

(** [Array.isArray(x)] *)
Definition is_array (h : heap) (v : val) : bool :=
  match v with
  | VRef a => match h !! a with
              | Some (CArr _ _) => true
              | _ => false
              end
  | _ => false
  end.

(** the elements of an array, read at once (iteration, [slice], [map]) *)
Definition array_elems (h : heap) (v : val) : list val :=
  match v with
  | VRef a => match h !! a with
              | Some (CArr els _) => els
              | _ => []
              end
  | _ => []
  end.

(** [{}], [[]] and every other allocation take the next free address *)
Definition alloc (h : heap) (c : cell) : heap * val :=
  (h ++ [c], VRef (length h)).

(** *** Property keys

    A key is an array index when it is the canonical decimal form of an
    integer below 2^32 - 1. *)
Definition parse_index (key : string) : option N :=
  match key with
  | EmptyString => None
  | String c rest =>
      if Str.all_digits key
         && (negb (Ascii.eqb c "0") || String.eqb rest "")
      then let n := Str.digits_value 0 key in
           if (n <? 4294967295)%N then Some n else None
      else None
  end.

Fixpoint props_get (key : string) (ps : list (string * val)) : option val :=
  match ps with
  | [] => None
  | (k, v) :: ps' => if String.eqb k key then Some v else props_get key ps'
  end.

Definition has_own (key : string) (ps : list (string * val)) : bool :=
  match props_get key ps with
  | Some _ => true
  | None => false
  end.

Fixpoint props_replace (key : string) (v : val) (ps : list (string * val))
  : list (string * val) :=
  match ps with
  | [] => []
  | (k, w) :: ps' =>
      if String.eqb k key then (k, v) :: ps'
      else (k, w) :: props_replace key v ps'
  end.

(** a new index-like key goes among the leading index keys, in ascending
    order; objects enumerate those first *)
Fixpoint props_insert_index (n : N) (key : string) (v : val)
  (ps : list (string * val)) : list (string * val) :=
  match ps with
  | [] => [(key, v)]
  | (k, w) :: ps' =>
      match parse_index k with
      | Some m => if (m <? n)%N then (k, w) :: props_insert_index n key v ps'
                  else (key, v) :: ps
      | None => (key, v) :: ps
      end
  end.

(** [o[key] = v] on the own properties of an object *)
Definition props_set (key : string) (v : val) (ps : list (string * val))
  : list (string * val) :=
  if has_own key ps then props_replace key v ps
  else match parse_index key with
       | Some n => props_insert_index n key v ps
       | None => ps ++ [(key, v)]
       end.

(** [x[key]] for a value [x] that is not null or undefined (every read in the
    program is guarded; on null and undefined the model answers undefined).
    Own properties only: a key that JavaScript would find on the prototype
    chain ([inherited_name] lists those of [Object.prototype]) reads as
    undefined here. *)
Definition get_prop (h : heap) (x : val) (key : string) : val :=
  match x with
  | VRef a =>
      match h !! a with
      | Some (CObj ps) => default VUndef (props_get key ps)
      | Some (CArr els extra) =>
          match parse_index key with
          | Some n => default VUndef (els !! N.to_nat n)
          | None =>
              if String.eqb key "length" then VNum (Z.of_nat (length els))
              else default VUndef (props_get key extra)
          end
      | None => VUndef
      end
  | VStr s =>
      match parse_index key with
      | Some n =>
          if (n <? N.of_nat (String.length s))%N
          then VStr (String.substring (N.to_nat n) 1 s)
          else VUndef
      | None =>
          if String.eqb key "length" then VNum (Z.of_nat (String.length s))
          else VUndef
      end
  | _ => VUndef
  end.

(** [x[n]] for an array [x] and a number [n]: the element at [n], which is
    what JavaScript answers for [n] below 2^32 - 1; from there on it reads a
    named property of the array, which is left out here *)
Definition get_index (h : heap) (x : val) (n : N) : val :=
  let els := array_elems h x in
  if (n <? N.of_nat (length els))%N then default VUndef (els !! N.to_nat n)
  else VUndef.

(** [o[key] = v] for the object or array at address [a].  The key
    [__proto__] is stored like any other; JavaScript does so only when the
    object has an own property of that name already. *)
Definition set_prop (h : heap) (a : addr) (key : string) (v : val)
  : outcome heap :=
  match h !! a with
  | Some (CObj ps) => Ok (<[a := CObj (props_set key v ps)]> h)
  | Some (CArr els extra) =>
      match parse_index key with
      | Some n =>
          let i := N.to_nat n in
          if (n <? N.of_nat (length els))%N
          then Ok (<[a := CArr (<[i := v]> els) extra]> h)
          else if (n =? N.of_nat (length els))%N
               then Ok (<[a := CArr (els ++ [v]) extra]> h)
               else Beyond
      | None =>
          if String.eqb key "length" then Beyond
          else Ok (<[a := CArr els (props_set key v extra)]> h)
      end
  | None => Beyond
  end.

(** [arr.push(v)] *)
Definition array_push (h : heap) (arr : val) (v : val) : outcome heap :=
  match arr with
  | VRef a =>
      match h !! a with
      | Some (CArr els extra) => Ok (<[a := CArr (els ++ [v]) extra]> h)
      | _ => Beyond
      end
  | _ => Beyond
  end.

(** ** Path grammar (parseSeg, inside getValueByPath) *)

Inductive mode : Type :=
  | prop
  | index (n : N)
  | wildcard.

Record segment : Type := Segment { key : string; smode : mode }.

(** the longest prefix without an opening bracket, and what follows it:
    the first group of the regular expression, one or more characters
    other than an opening bracket *)
Fixpoint span_key (s : string) : string * string :=
  match s with
  | EmptyString => (EmptyString, EmptyString)
  | String c s' =>
      if Ascii.eqb c "[" then (EmptyString, s)
      else let (k, r) := span_key s' in (String c k, r)
  end.

(** [s] is digits followed by one closing bracket and nothing else: what
    the second group of the regular expression has after its opening
    bracket, up to the end of the input *)
Fixpoint digits_then_close (s : string) : option string :=
  match s with
  | EmptyString => None
  | String c s' =>
      if Ascii.eqb c "]" && String.eqb s' "" then Some EmptyString
      else if Str.is_digit c
           then match digits_then_close s' with
                | Some ds => Some (String c ds)
                | None => None
                end
           else None
  end.

(** the regular expression of parseSeg: a key of one or more characters
    other than an opening bracket, then optionally a bracket pair holding
    zero or more digits, then the end of the input *)
Definition parseSeg (seg : string) : segment :=
  let (k, rest) := span_key seg in
  if String.eqb k "" then Segment seg prop
  else match rest with
       | EmptyString => Segment k prop
       | String _ r =>
           match digits_then_close r with
           | None => Segment seg prop
           | Some ds =>
               if String.eqb ds "" then Segment k wildcard
               else Segment k (index (Str.digits_value 0 ds))
           end
       end.

(** ** Path reader (getValueByPath)

    [current] is either a single value or, once a wildcard has been met
    ([isArrayFlow]), a local array of values.  The local arrays never leave
    the function except for the last one, which is returned: they are lists
    here, and the returned one is allocated on return. *)

Inductive cursor : Type :=
  | Single (current : val)
  | Flow (current : list val).

(** one turn of [for (const item of current)] *)
Definition read_item (h : heap) (sg : segment) (mapped : list val)
  (item : val) : list val :=
  if is_nullish item then mapped
  else
    let val := get_prop h item (key sg) in
    match smode sg with
    | prop => mapped ++ [val]
    | index n =>
        if is_array h val then mapped ++ [get_index h val n]
        else mapped ++ [VUndef]
    | wildcard =>
        if is_array h val
        then fold_left (fun m v => m ++ [v]) (array_elems h val) mapped
        else if negb (is_nullish val) then mapped ++ [val]
             else mapped
    end.

(** one turn of [for (const seg of rawParts)]; [None] is [return undefined] *)
Definition read_step (h : heap) (cur : cursor) (sg : segment)
  : option cursor :=
  match cur with
  | Single current =>
      if is_nullish current then None
      else
        let nextVal := get_prop h current (key sg) in
        match smode sg with
        | prop => Some (Single nextVal)
        | index n =>
            if negb (is_array h nextVal) then None
            else Some (Single (get_index h nextVal n))
        | wildcard =>
            let arr := if is_array h nextVal then array_elems h nextVal
                       else if is_nullish nextVal then [] else [nextVal] in
            Some (Flow (map (fun it => it) arr))
        end
  | Flow current => Some (Flow (fold_left (read_item h sg) current []))
  end.

Fixpoint read_segments (h : heap) (cur : cursor) (rawParts : list string)
  : option cursor :=
  match rawParts with
  | [] => Some cur
  | seg :: rest =>
      match read_step h cur (parseSeg seg) with
      | None => None
      | Some cur' => read_segments h cur' rest
      end
  end.

(** [return current] *)
Definition read_result (h : heap) (r : option cursor) : heap * val :=
  match r with
  | None => (h, VUndef)
  | Some (Single v) => (h, v)
  | Some (Flow items) => alloc h (CArr items [])
  end.

Definition getValueByPath (h : heap) (obj : val) (path : string)
  : heap * val :=
  if String.eqb path "" then (h, VUndef)
  else read_result h (read_segments h (Single obj) (Str.split "." path)).

(** ** Path writer (setValueByPath) *)

(** [if (!Array.isArray(current[key])) current[key] = []] *)
Definition ensure_array (h : heap) (current : addr) (key : string)
  : outcome heap :=
  if negb (is_array h (get_prop h (VRef current) key))
  then let (h1, arr) := alloc h (CArr [] []) in set_prop h1 current key arr
  else Ok h.

(** [if (!current[key][0] || typeof current[key][0] !== "object")
       current[key][0] = {}] *)
Definition ensure_carrier (h : heap) (current : addr) (key : string)
  : outcome heap :=
  let slot := get_prop h (get_prop h (VRef current) key) "0" in
  if negb (truthy slot) || negb (String.eqb (typeof slot) "object")
  then match get_prop h (VRef current) key with
       | VRef arr =>
           let (h1, o) := alloc h (CObj []) in set_prop h1 arr "0" o
       | _ => Beyond
       end
  else Ok h.

(** [if (current[key] == null || typeof current[key] !== "object")
       current[key] = {}] *)
Definition ensure_object (h : heap) (current : addr) (key : string)
  : outcome heap :=
  let x := get_prop h (VRef current) key in
  if is_nullish x || negb (String.eqb (typeof x) "object")
  then let (h1, o) := alloc h (CObj []) in set_prop h1 current key o
  else Ok h.

(** [current = x] for the next turn of the loop; [x] is an object or an
    array after the checks above *)
Definition descend (x : val) : outcome addr :=
  match x with
  | VRef a => Ok a
  | _ => Beyond
  end.

(** the loop [for (let i = 0; i < segments.length; i++)], from segment [i]
    on; [isLast] is [rest = []] *)
Fixpoint write_segments (h : heap) (current : addr) (segments : list string)
  (value : val) : outcome heap :=
  match segments with
  | [] => Ok h
  | raw :: rest =>
      let isArraySeg := Str.endsWith "[]" raw in
      let key := if isArraySeg then Str.slice_0_m2 raw else raw in
      let isLast := match rest with [] => true | _ => false end in
      if isArraySeg then
        h1 ← ensure_array h current key;
        if isLast then
          if is_array h1 value then
            let (h2, copy) := alloc h1 (CArr (array_elems h1 value) []) in
            set_prop h2 current key copy
          else array_push h1 (get_prop h1 (VRef current) key) value
        else
          h2 ← ensure_carrier h1 current key;
          next ← descend (get_prop h2 (get_prop h2 (VRef current) key) "0");
          write_segments h2 next rest value
      else
        if isLast then set_prop h current key value
        else
          h1 ← ensure_object h current key;
          next ← descend (get_prop h1 (VRef current) key);
          write_segments h1 next rest value
  end.

Definition setValueByPath (h : heap) (target : addr) (path : string)
  (value : val) : outcome heap :=
  if val_eqb value VUndef then Ok h
  else write_segments h target (Str.split "." path) value.

(** ** Object and array literals, and reading a structure back

    [tree] is a JSON text with the two extras a store can hold: undefined,
    and named properties on an array.  [load] evaluates a text into the
    store as [JSON.parse] does, one member after the other (a repeated key
    keeps its place and takes the later value, index-like keys come first);
    [reify] reads the structure below a value back, down to a given
    depth. *)

#[local] Set Warnings "-register-all".
Inductive tree : Type :=
  | TUndef
  | TNull
  | TBool (b : bool)
  | TNum (z : Z)
  | TStr (s : string)
  | TObj (props : list (string * tree))
  | TArr (elems : list tree) (extra : list (string * tree))
  | TCut.

Fixpoint load (t : tree) (h : heap) : heap * val :=
  let load_list :=
    fix go (ts : list tree) (h : heap) : heap * list val :=
      match ts with
      | [] => (h, [])
      | t :: ts' => let (h1, v) := load t h in
                    let (h2, vs) := go ts' h1 in (h2, v :: vs)
      end in
  let load_props :=
    fix go (ps : list (string * tree)) (h : heap) (acc : list (string * val))
      : heap * list (string * val) :=
      match ps with
      | [] => (h, acc)
      | (k, t) :: ps' => let (h1, v) := load t h in
                         go ps' h1 (props_set k v acc)
      end in
  match t with
  | TUndef | TCut => (h, VUndef)
  | TNull => (h, VNull)
  | TBool b => (h, VBool b)
  | TNum z => (h, VNum z)
  | TStr s => (h, VStr s)
  | TObj ps => let (h1, ps') := load_props ps h [] in alloc h1 (CObj ps')
  | TArr ts ex => let (h1, vs) := load_list ts h in
                  let (h2, ex') := load_props ex h1 [] in
                  alloc h2 (CArr vs ex')
  end.

Fixpoint reify (depth : nat) (h : heap) (v : val) : tree :=
  match v with
  | VUndef => TUndef
  | VNull => TNull
  | VBool b => TBool b
  | VNum z => TNum z
  | VStr s => TStr s
  | VRef a =>
      match depth with
      | O => TCut
      | S d =>
          match h !! a with
          | Some (CObj ps) =>
              TObj (map (fun kv => (kv.1, reify d h kv.2)) ps)
          | Some (CArr els ex) =>
              TArr (map (reify d h) els)
                   (map (fun kv => (kv.1, reify d h kv.2)) ex)
          | None => TCut
          end
      end
  end.

Definition reify_in (depth : nat) (r : heap * val) : tree :=
  reify depth r.1 r.2.

(** ** Transform registry

    [String(x)], also the conversion of a computed property key.  An object
    prints through the inherited [toString] unless it has an own property of
    that name, which in a JSON value is never callable.  An integer is
    printed digit by digit, as [String] does up to 2^53; a larger number and
    an array are left out. *)
Definition ToString (h : heap) (x : val) : outcome string :=
  match x with
  | VUndef => Ok "undefined"
  | VNull => Ok "null"
  | VBool true => Ok "true"
  | VBool false => Ok "false"
  | VNum z => if (Z.abs z <=? 2 ^ 53)%Z then Ok (Str.of_Z z) else Beyond
  | VStr s => Ok s
  | VRef a =>
      match h !! a with
      | Some (CObj ps) =>
          if has_own "toString" ps
          then Throw "Cannot convert object to primitive value"
          else Ok "[object Object]"
      | _ => Beyond
      end
  end.

(** what the [try] block comes to on the host for a normalized code:
    [new Intl.DisplayNames] and [dn.of(normalized)] produce a name, produce
    none, or raise, and the function catches whatever is raised *)
Inductive region_lookup : Type :=
  | RegionName (name : string)
  | RegionNone
  | RegionFails.

(** the table of the function; it is an object literal, but the key it is
    read at is upper-cased and so never one of the names it inherits *)
Definition fallback : list (string * string) :=
  [("GB", "United Kingdom"); ("US", "United States"); ("PH", "Philippines");
   ("CA", "Canada"); ("AU", "Australia")].

Fixpoint table_get (k : string) (t : list (string * string)) : option string :=
  match t with
  | [] => None
  | (k', v) :: t' => if String.eqb k' k then Some v else table_get k t'
  end.

(** a registered function: it is given the store and its arguments, and
    returns a value or raises *)
Definition transform_fn : Type := heap -> list val -> outcome val.

(** the properties of [Object.prototype], which every object literal
    inherits: ten methods, the constructor, and the accessor [__proto__] *)
Definition object_prototype_methods : list string :=
  ["toString"; "toLocaleString"; "valueOf"; "hasOwnProperty";
   "isPrototypeOf"; "propertyIsEnumerable"; "__defineGetter__";
   "__defineSetter__"; "__lookupGetter__"; "__lookupSetter__"].

Definition inherited_name (key : string) : bool :=
  existsb (String.eqb key)
    ("constructor" :: "__proto__" :: object_prototype_methods).

(** what a plain call [fn(...args)] of an inherited function comes to; the
    module is strict code, so [this] is undefined in the call.
    [Object.prototype.toString] answers for an undefined [this];
    [isPrototypeOf] answers false for an argument that is not an object
    before it looks at [this].  The others convert [this] or build an
    object: they are found, and what they do is left out.  [__proto__] is
    inherited too, but what it holds is an object, not a function. *)
Definition inherited_function (name : string) : option transform_fn :=
  if String.eqb name "toString"
  then Some (fun _ _ => Ok (VStr "[object Undefined]"))
  else if String.eqb name "isPrototypeOf"
  then Some (fun _ args => match nth 0 args VUndef with
                           | VRef _ => Beyond
                           | _ => Ok (VBool false)
                           end)
  else if String.eqb name "constructor"
          || existsb (String.eqb name) object_prototype_methods
  then Some (fun _ _ => Beyond)
  else None.

Section Registry.

Variable displayNames : string -> region_lookup.

Definition countryFromISO (h : heap) (code : val) : outcome val :=
  if is_nullish code || val_eqb code (VStr "") then Ok VUndef
  else
    s ← ToString h code;
    let normalized := Str.toUpperCase (Str.trim s) in
    let from_intl :=
      match displayNames normalized with
      | RegionName name =>
          if negb (String.eqb name "") && negb (String.eqb name normalized)
          then Some name else None
      | RegionNone => None
      | RegionFails => None
      end in
    match from_intl with
    | Some name => Ok (VStr name)
    | None =>
        match table_get normalized fallback with
        | Some name => Ok (VStr name)
        | None => Ok (VStr normalized)
        end
    end.

(** the exported object [transforms], as [transforms[fnName]] followed by
    the test [typeof fn !== "function"] sees it: its own method, and the
    functions that it inherits from [Object.prototype] *)
Definition transforms (name : string) : option transform_fn :=
  if String.eqb name "countryFromISO"
  then Some (fun h args => countryFromISO h (nth 0 args VUndef))
  else inherited_function name.

End Registry.

(** ** Spec resolver (resolveSpec) *)

(** [x && typeof x === "object" && !Array.isArray(x)] *)
Definition is_plain_object (h : heap) (x : val) : bool :=
  truthy x && String.eqb (typeof x) "object" && negb (is_array h x).

(** [Object.prototype.hasOwnProperty.call(x, key)] *)
Definition hasOwnProperty (h : heap) (x : val) (key : string) : bool :=
  match x with
  | VRef a =>
      match h !! a with
      | Some (CObj ps) => has_own key ps
      | Some (CArr els extra) =>
          match parse_index key with
          | Some n => (n <? N.of_nat (length els))%N
          | None => String.eqb key "length" || has_own key extra
          end
      | None => false
      end
  | _ => false
  end.

Definition resolveSpec (h : heap) (input spec : val) : heap * val :=
  if is_nullish spec || val_eqb spec (VStr "") then (h, VUndef)
  else if is_plain_object h spec && hasOwnProperty h spec "$literal"
  then (h, get_prop h spec "$literal")
  else match spec with
       | VStr s =>
           if Str.startsWith "=" s
           then (h, VStr (if Str.startsWith "==" s then Str.slice1 s
                          else Str.slice1 s))
           else getValueByPath h input s
       | _ => (h, spec)
       end.

(** [rawArgs.map((a) => resolveSpec(input, a))] *)
Fixpoint resolve_args (h : heap) (input : val) (rawArgs : list val)
  : heap * list val :=
  match rawArgs with
  | [] => (h, [])
  | a :: rest =>
      let (h1, v) := resolveSpec h input a in
      let (h2, vs) := resolve_args h1 input rest in
      (h2, v :: vs)
  end.

(** ** Mapping interpreter (transform, transformOne) *)

(** what [console.warn] receives: the name as the template literal prints
    it, and the message of the exception *)
Inductive warning : Type :=
  | UnknownTransform (fnName : string)
  | TransformFailed (fnName : string) (msg : string).

(** [Object.entries(x)] *)
Definition object_entries (h : heap) (x : val)
  : outcome (list (string * val)) :=
  match x with
  | VUndef | VNull => Throw "Cannot convert undefined or null to object"
  | VBool _ | VNum _ => Ok []
  | VStr s =>
      Ok (imap (fun i c => (Str.of_N (N.of_nat i), VStr (String c "")))
            (list_ascii_of_string s))
  | VRef a =>
      match h !! a with
      | Some (CObj ps) => Ok ps
      | Some (CArr els extra) =>
          Ok (imap (fun i v => (Str.of_N (N.of_nat i), v)) els ++ extra)
      | None => Beyond
      end
  end.

Section Interpreter.

(** the registry the interpreter looks names up in; [transforms] above is
    the one the module exports *)
Variable registry : string -> option transform_fn.

(** the argument list of a transform directive *)
Definition directive_args (h : heap) (input sourceSpec : val)
  : heap * list val :=
  if hasOwnProperty h sourceSpec "$args" then
    let rawArgs :=
      if is_array h (get_prop h sourceSpec "$args")
      then array_elems h (get_prop h sourceSpec "$args")
      else [get_prop h sourceSpec "$args"] in
    resolve_args h input rawArgs
  else if hasOwnProperty h sourceSpec "$path" then
    let (h1, v) := resolveSpec h input (get_prop h sourceSpec "$path") in
    (h1, [v])
  else (h, []).

(** one turn of [for (const [targetPath, sourceSpec] of ...)] *)
Definition transform_entry (input : val) (result : addr)
  (st : heap * list warning) (entry : string * val)
  : outcome (heap * list warning) :=
  let '(h, log) := st in
  let '(targetPath, sourceSpec) := entry in
  if val_eqb sourceSpec (VStr "") || val_eqb sourceSpec VNull then Ok st
  else if is_plain_object h sourceSpec
          && hasOwnProperty h sourceSpec "$transform" then
    let fnName := get_prop h sourceSpec "$transform" in
    name ← ToString h fnName;
    match registry name with
    | None => Ok (h, log ++ [UnknownTransform name])
    | Some fn =>
        let (h1, args) := directive_args h input sourceSpec in
        match fn h1 args with
        | Ok out =>
            if negb (val_eqb out VUndef)
            then h2 ← setValueByPath h1 result targetPath out; Ok (h2, log)
            else Ok (h1, log)
        | Throw msg => Ok (h1, log ++ [TransformFailed name msg])
        | Beyond => Beyond
        end
    end
  else if is_plain_object h sourceSpec
          && hasOwnProperty h sourceSpec "$literal" then
    h1 ← setValueByPath h result targetPath
           (get_prop h sourceSpec "$literal");
    Ok (h1, log)
  else
    match sourceSpec with
    | VStr s =>
        if Str.startsWith "=" s then
          let literal := if Str.startsWith "==" s then Str.slice1 s
                         else Str.slice1 s in
          h1 ← setValueByPath h result targetPath (VStr literal);
          Ok (h1, log)
        else
          let (h1, value) := getValueByPath h input s in
          if val_eqb value VUndef then Ok (h1, log)
          else h2 ← setValueByPath h1 result targetPath value; Ok (h2, log)
    | _ =>
        h1 ← setValueByPath h result targetPath sourceSpec;
        Ok (h1, log)
    end.

Fixpoint transform_entries (input : val) (result : addr)
  (st : heap * list warning) (entries : list (string * val))
  : outcome (heap * list warning) :=
  match entries with
  | [] => Ok st
  | entry :: rest =>
      st1 ← transform_entry input result st entry;
      transform_entries input result st1 rest
  end.

Definition transformOne (st : heap * list warning) (input mapping : val)
  : outcome (heap * list warning * val) :=
  let (h0, result) := alloc st.1 (CObj []) in
  entries ← object_entries h0 mapping;
  match result with
  | VRef r =>
      st1 ← transform_entries input r (h0, st.2) entries;
      Ok (st1, result)
  | _ => Beyond
  end.

(** [input.map((item) => transformOne(item, mapping))]: the elements are
    read one after the other, each when its turn comes *)
Fixpoint map_items (st : heap * list warning) (input mapping : val)
  (ks : list nat) (out : list val)
  : outcome (heap * list warning * list val) :=
  match ks with
  | [] => Ok (st, out)
  | k :: ks' =>
      '(st1, r) ← transformOne st (get_index st.1 input (N.of_nat k)) mapping;
      map_items st1 input mapping ks' (out ++ [r])
  end.

Definition transform (st : heap * list warning) (input mapping : val)
  : outcome (heap * list warning * val) :=
  if is_array st.1 input then
    '(st1, rs) ← map_items st input mapping
                   (seq 0 (length (array_elems st.1 input))) [];
    let (h2, out) := alloc st1.1 (CArr rs []) in
    Ok ((h2, st1.2), out)
  else transformOne st input mapping.

End Interpreter.

(** * Definitions for the statements

    Nothing below is part of the program: these are the words the
    properties are stated in, and the sample stores they are tried on. *)

(** ** Running the program on JSON texts *)

(** a JSON text read through a path, the result given as a JSON text again *)
Definition read_json (t : tree) (path : string) : tree :=
  let (h, root) := load t [] in reify_in 16 (getValueByPath h root path).

(** a JSON object after a series of writes, each of a JSON text at a path *)
Definition write_json (t : tree) (writes : list (string * tree))
  : outcome tree :=
  let (h, root) := load t [] in
  match root with
  | VRef target =>
      h' ← foldl (fun acc w =>
                    h1 ← acc;
                    let (h2, v) := load w.2 h1 in
                    setValueByPath h2 target w.1 v)
             (Ok h) writes;
      Ok (reify 16 h' root)
  | _ => Beyond
  end.

(** a mapping value resolved against an input, both JSON texts *)
Definition resolve_json (input spec : tree) : tree :=
  let (h1, i) := load input [] in
  let (h2, s) := load spec h1 in
  reify_in 16 (resolveSpec h2 i s).

(** a run of [transform] on JSON texts: the input and the mapping are
    loaded into an empty store, each on its own, and the result is read
    back as a JSON text together with the warnings *)
Definition transform_json (registry : string -> option transform_fn)
  (input mapping : tree) : outcome (tree * list warning) :=
  let (h1, i) := load input [] in
  let (h2, m) := load mapping h1 in
  '(st, out) ← transform registry (h2, []) i m;
  Ok (reify 16 st.1 out, st.2).

(** a host without a working [Intl.DisplayNames], and the registry the
    module exports on that host *)
Definition no_intl : string -> region_lookup := fun _ => RegionFails.

(** ** Sample stores *)

Module Sample.

(** the directive [{ $transform: "countryFromISO", $args: "=us",
    $path: "person.nationality" }] next to the input
    [{ person: { nationality: "GB" } }] and an empty result record *)
Definition store : heap :=
  [ CObj [("nationality", VStr "GB")];
    CObj [("person", VRef 0)];
    CObj [("$transform", VStr "countryFromISO"); ("$args", VStr "=us");
          ("$path", VStr "person.nationality")];
    CObj [] ].
Definition input : val := VRef 1.
Definition directive : val := VRef 2.
Definition result : addr := 3.

End Sample.

Module Skipped.

(** an input record with a field that cannot be turned into a string, and
    three mappings: one with a directive whose function raises on that
    field (after resolving a wildcard argument), one with a directive that
    names no registered function, and one without either *)
Definition store : heap :=
  [ CObj [("toString", VNum 1)];
    CArr [VNum 1; VNum 2] [];
    CObj [("bad", VRef 0); ("list", VRef 1); ("id", VStr "7")];
    CArr [VStr "bad"; VStr "list[]"] [];
    CObj [("$transform", VStr "countryFromISO"); ("$args", VRef 3)];
    CObj [("id", VStr "id"); ("country", VRef 4);
          ("items[]", VStr "list[]")];
    CObj [("$transform", VStr "nope")];
    CObj [("id", VStr "id"); ("country", VRef 6);
          ("items[]", VStr "list[]")];
    CObj [("id", VStr "id"); ("items[]", VStr "list[]")] ].
Definition input : val := VRef 2.
Definition raising : val := VRef 5.
Definition unknown : val := VRef 7.
Definition without : val := VRef 8.
Definition registry : string -> option transform_fn := transforms no_intl.

End Skipped.

(** ** Paths and segments *)

Fixpoint string_forall (P : ascii -> bool) (s : string) : bool :=
  match s with
  | EmptyString => true
  | String c s' => P c && string_forall P s'
  end.


(** what a wildcard segment takes from the value found at its key: the
    members of an array, nothing for null or undefined, the value itself
    otherwise *)
Definition wildcard_values (h : heap) (x : val) : list val :=
  if is_array h x then array_elems h x
  else if is_nullish x then [] else [x].

(** ** The writer's checks *)

(** an object or an array: what [typeof] calls an object, null apart *)
Definition is_ref (x : val) : bool :=
  match x with
  | VRef _ => true
  | _ => false
  end.


(** ** Codes *)



(** a segment that both sides take as a plain property name: the writer
    sees no array mark at its end, the reader no bracket suffix *)
Definition plain_segment (seg : string) : bool :=
  negb (Str.endsWith "[]" seg)
  && match smode (parseSeg seg) with
     | prop => true
     | _ => false
     end.

(** a segment whose key is [__proto__], for the reader or for the writer:
    the one name that JavaScript does not treat as a property of the object
    it is read from or assigned to *)
Definition prototype_segment (seg : string) : bool :=
  String.eqb (key (parseSeg seg)) "__proto__"
  || String.eqb (if Str.endsWith "[]" seg then Str.slice_0_m2 seg else seg)
       "__proto__".

(** a mapping none of whose target paths is [__proto__] *)
Definition prototype_free_keys (entries : list (string * val)) : bool :=
  forallb (fun entry => negb (String.eqb entry.1 "__proto__")) entries.

(** a path none of whose segments has the key [__proto__] *)
Definition prototype_free (path : string) : bool :=
  forallb (fun seg => negb (prototype_segment seg)) (Str.split "." path).

(** the key under which the writer assigns at a segment *)
Definition writer_key (seg : string) : string :=
  if Str.endsWith "[]" seg then Str.slice_0_m2 seg else seg.

(** the path has a segment at which the writer assigns under the key
    [length]: on an array this sets its length *)
Definition assigns_length (path : string) : bool :=
  existsb (fun seg => String.eqb (writer_key seg) "length")
    (Str.split "." path).

(** the named properties that an array carries besides its elements; an
    array of a JSON text has none *)
Definition named_properties (h : heap) (x : val) : list (string * val) :=
  match x with
  | VRef a => match h !! a with
              | Some (CArr _ extra) => extra
              | _ => []
              end
  | _ => []
  end.


(** what a read can come upon, starting from [root]: the root itself, and
    whatever a property read or an index read finds in something it has
    come upon *)
Inductive found_in (h : heap) (root : val) : val -> Prop :=
  | found_root : found_in h root root
  | found_prop x k : found_in h root x -> found_in h root (get_prop h x k)
  | found_index x n :
      found_in h root x -> is_array h x = true ->
      found_in h root (get_index h x n).

Definition found_or_undefined (h : heap) (root v : val) : Prop :=
  v = VUndef \/ found_in h root v.

Definition cursor_found (h : heap) (root : val) (c : cursor) : Prop :=
  match c with
  | Single v => found_or_undefined h root v
  | Flow items => Forall (found_or_undefined h root) items
  end.

(** ** Outcomes *)

Global Instance outcome_fmap : FMap outcome := fun A B f m =>
  match m with
  | Ok a => Ok (f a)
  | Throw msg => Throw msg
  | Beyond => Beyond
  end.

(** ** Stores without dangling references *)

(** a value that is a primitive or refers to one of the first [n] cells *)
Definition val_ok (n : nat) (x : val) : Prop :=
  match x with
  | VRef a => a < n
  | _ => True
  end.

Definition props_ok (n : nat) (ps : list (string * val)) : Prop :=
  Forall (fun kv => val_ok n kv.2) ps.

Definition cell_ok (n : nat) (c : cell) : Prop :=
  match c with
  | CObj ps => props_ok n ps
  | CArr els extra => Forall (val_ok n) els /\ props_ok n extra
  end.

(** every reference held in the store points into the store *)
Definition closed (h : heap) : Prop := Forall (cell_ok (length h)) h.

Definition cursor_ok (n : nat) (c : cursor) : Prop :=
  match c with
  | Single v => val_ok n v
  | Flow items => Forall (val_ok n) items
  end.

(** a transform that returns a primitive, or something of the store it was
    given *)
Definition closed_fn (fn : transform_fn) : Prop :=
  forall h args out,
    closed h -> Forall (val_ok (length h)) args ->
    fn h args = Ok out -> val_ok (length h) out.

(** ** Stores that differ by cells nobody refers to

    [ins n g h] is the store [h] with the cells [g] put in at address [n]:
    what was at [n] or above moves up by the length of [g], and every
    reference moves with its target ([shift], [rv] on values, [rps] on
    properties, [rc] on cells, [rcur] on the reader's cursor, [rst] and
    [rstate] on results). *)

Definition shift (n : nat) (g : list cell) (a : addr) : addr :=
  if (a <? n)%nat then a else a + length g.

Definition rv (n : nat) (g : list cell) (x : val) : val :=
  match x with
  | VRef a => VRef (shift n g a)
  | _ => x
  end.

Definition rps (n : nat) (g : list cell) (ps : list (string * val))
  : list (string * val) :=
  (fun kv => (kv.1, rv n g kv.2)) <$> ps.

Definition rc (n : nat) (g : list cell) (c : cell) : cell :=
  match c with
  | CObj ps => CObj (rps n g ps)
  | CArr els extra => CArr (rv n g <$> els) (rps n g extra)
  end.

Definition ins (n : nat) (g : list cell) (h : heap) : heap :=
  (rc n g <$> take n h) ++ g ++ (rc n g <$> drop n h).

Definition rst (n : nat) (g : list cell) (r : heap * val) : heap * val :=
  (ins n g r.1, rv n g r.2).

Definition rcur (n : nat) (g : list cell) (c : cursor) : cursor :=
  match c with
  | Single v => Single (rv n g v)
  | Flow items => Flow (rv n g <$> items)
  end.

(** a transform that cannot tell the two stores apart *)
Definition stable_fn (n : nat) (g : list cell) (fn : transform_fn) : Prop :=
  forall h args,
    n <= length h -> fn (ins n g h) (rv n g <$> args) = rv n g <$> fn h args.

Definition rstate (n : nat) (g : list cell) (st : heap * list warning)
  : heap * list warning :=
  (ins n g st.1, st.2).

(** ** Skipped entries *)


(** the diagnostics with [l] put in front *)
Definition with_log (l : list warning) (st : heap * list warning)
  : heap * list warning := (st.1, l ++ st.2).

(** what the proof asks of a registered function: it returns a primitive or
    a value of the store it is given, and it cannot tell a store from the
    same store with unreachable cells put in *)
Definition well_behaved (fn : transform_fn) : Prop :=
  closed_fn fn /\ forall n g, stable_fn n g fn.



(** ** Words for the further properties

    What the properties beyond the specification are stated in: kinds of
    segment and of mapping value, what is read back after a write, mappings
    whose targets are keys of the output record, and stores that only
    grow. *)

(** a string without an opening bracket *)
Definition bracket_free (s : string) : bool :=
  string_forall (fun c => negb (Ascii.eqb c "[")) s.

(** a string without a dot: one segment of a path *)
Definition dot_free (s : string) : bool :=
  string_forall (fun c => negb (Ascii.eqb c ".")) s.

Definition is_wildcard (sg : segment) : bool :=
  match smode sg with
  | wildcard => true
  | _ => false
  end.

(** the path has a segment that the reader takes as a wildcard *)
Definition has_wildcard (path : string) : bool :=
  existsb (fun seg => is_wildcard (parseSeg seg)) (Str.split "." path).

(** a mapping value that names a source path: a string without the [=] of a
    literal in front *)
Definition is_source_path (spec : val) : bool :=
  match spec with
  | VStr s => negb (Str.startsWith "=" s)
  | _ => false
  end.

(** a mapping value that is a transform directive *)
Definition is_directive (h : heap) (spec : val) : bool :=
  is_plain_object h spec && hasOwnProperty h spec "$transform".

(** a segment that the reader and the writer take the same way: a plain
    property name for both, or [key[]] for both *)
Definition agreed_segment (seg : string) : bool :=
  plain_segment seg || is_wildcard (parseSeg seg).

(** what a path with an array mark gives back for a value written through
    it: the value, or the members of the value when it is an array written
    at a last segment with the array mark *)
Definition written_items (h : heap) (segments : list string) (value : val)
  : list val :=
  if is_wildcard (parseSeg (List.last segments "")) && is_array h value
  then array_elems h value else [value].

(** neither path is a prefix of the other: they part at some segment *)
Fixpoint diverge (p q : list string) : bool :=
  match p, q with
  | k1 :: p', k2 :: q' => if String.eqb k1 k2 then diverge p' q' else true
  | _, _ => false
  end.

(** what one write of [v] at plain segments leaves below an empty object at
    [t]: a chain of objects of one property each, every one allocated after
    the one that holds it *)
Fixpoint built (h : heap) (t : addr) (segments : list string) (v : val)
  : Prop :=
  match segments with
  | [] => False
  | k :: rest =>
      match rest with
      | [] => h !! t = Some (CObj [(k, v)])
      | _ :: _ =>
          exists c, t < c /\ h !! t = Some (CObj [(k, VRef c)])
                    /\ built h c rest v
      end
  end.

(** a target path of one segment, without the array mark: a key of the
    output record itself *)
Definition flat_target (targetPath : string) : bool :=
  dot_free targetPath && negb (Str.endsWith "[]" targetPath).

Definition flat_mapping (entries : list (string * val)) : bool :=
  forallb (fun kv => flat_target kv.1) entries.

(** [r], read in the store [hh], is what [transformOne] returns for [item]
    when it is run on its own from the store [h] *)
Definition item_result (registry : string -> option transform_fn)
  (h : heap) (mapping : val) (hh : heap) (item r : val) : Prop :=
  exists h_i log_i r_i,
    transformOne registry (h, []) item mapping = Ok ((h_i, log_i), r_i)
    /\ forall depth, reify depth hh r = reify depth h_i r_i.

Module Flat.

(** two input records in an array, and a mapping whose targets are all keys
    of the output record: two source paths, an object literal and a
    directive *)
Definition store : heap :=
  [ CArr [VStr "x"; VStr "y"] [];
    CObj [("id", VStr "1"); ("tags", VRef 0); ("code", VStr "gb")];
    CObj [("id", VStr "2"); ("code", VStr "zz")];
    CArr [VRef 1; VRef 2] [];
    CObj [("source", VStr "import")];
    CObj [("$transform", VStr "countryFromISO"); ("$path", VStr "code")];
    CObj [("id", VStr "id"); ("labels", VStr "tags[]"); ("meta", VRef 4);
          ("country", VRef 5)] ].
Definition input : val := VRef 3.
Definition mapping : val := VRef 6.
Definition entries : list (string * val) :=
  [("id", VStr "id"); ("labels", VStr "tags[]"); ("meta", VRef 4);
   ("country", VRef 5)].
Definition registry : string -> option transform_fn := transforms no_intl.

End Flat.

(** a value that [resolveSpec] has returned on the store [h], seen in a later
    store [hh]: a value of [h], or a fresh array of values of [h] *)
Definition settled (h hh : heap) (x : val) : Prop :=
  val_ok (length h) x
  \/ exists a items,
       x = VRef a /\ length h < a /\ hh !! a = Some (CArr items [])
       /\ Forall (val_ok (length h)) items.

(** the properties [ps] of the output record, in the store [hh], hold what
    the entries [entries] of the mapping resolve to on the store [h]: no key
    but theirs, and under the key of each entry that is not a directive the
    value that [resolveSpec] gives for it, or nothing when that is
    undefined *)
Definition recorded (h : heap) (input : val) (entries : list (string * val))
  (hh : heap) (ps : list (string * val)) : Prop :=
  (forall k, has_own k ps = true -> k ∈ entries.*1)
  /\ forall k spec,
       (k, spec) ∈ entries -> is_directive h spec = false ->
       match props_get k ps with
       | None => (resolveSpec h input spec).2 = VUndef
       | Some x =>
           (resolveSpec h input spec).2 <> VUndef
           /\ settled h hh x
           /\ forall depth,
                reify depth hh x = reify_in depth (resolveSpec h input spec)
       end.

(** a cell keeps its kind, its keys and, for an array, its elements' places *)
Definition cell_grows (c c' : cell) : Prop :=
  match c, c' with
  | CObj ps, CObj ps' => forall k, has_own k ps = true -> has_own k ps' = true
  | CArr els extra, CArr els' extra' =>
      length els <= length els'
      /\ forall k, has_own k extra = true -> has_own k extra' = true
  | _, _ => False
  end.

(** every cell of [h] is still there in [h'], grown at most *)
Definition store_grows (h h' : heap) : Prop :=
  forall a c, h !! a = Some c -> exists c', h' !! a = Some c' /\ cell_grows c c'.

(** what a caller can see of that: no own property goes away, nothing
    turns from an array into an object or back, no array gets shorter *)
Definition keeps_everything (h h' : heap) : Prop :=
  (forall x k, hasOwnProperty h x k = true -> hasOwnProperty h' x k = true)
  /\ (forall x, val_ok (length h) x -> is_array h' x = is_array h x)
  /\ (forall x, length (array_elems h x) <= length (array_elems h' x)).

(** a mapping value that stands for nothing: null, undefined or the empty
    string *)
Definition is_empty_spec (spec : val) : bool :=
  is_nullish spec || val_eqb spec (VStr "").


(** * Properties *)

(** ** The repository's unit tests, replayed on the model *)

Example tests_getValueByPath :
  read_json (TObj [("a", TObj [("b", TObj [("c", TNum 42)])])]) "a.b.c"
  = TNum 42
  /\ read_json (TObj [("list", TArr [TObj [("v", TNum 1)];
                                     TObj [("v", TNum 2)]] [])]) "list[1].v"
     = TNum 2
  /\ read_json (TObj [("list", TArr [TObj [("v", TNum 1)]; TObj [("v", TNum 2)];
                                     TObj [("v", TNum 3)]] [])]) "list[].v"
     = TArr [TNum 1; TNum 2; TNum 3] []
  /\ read_json (TObj [("a", TObj [])]) "a.b.c" = TUndef.
Proof. by vm_compute. Qed.

Example tests_setValueByPath :
  write_json (TObj []) [("a.b.c", TNum 10)]
  = Ok (TObj [("a", TObj [("b", TObj [("c", TNum 10)])])])
  /\ write_json (TObj []) [("nums[]", TNum 1); ("nums[]", TNum 2)]
     = Ok (TObj [("nums", TArr [TNum 1; TNum 2] [])])
  /\ write_json (TObj []) [("nums[]", TArr [TNum 3; TNum 4] [])]
     = Ok (TObj [("nums", TArr [TNum 3; TNum 4] [])]).
Proof. by vm_compute. Qed.

Example tests_resolveSpec :
  resolve_json (TObj [("a", TObj [("b", TNum 5)])]) (TStr "a.b") = TNum 5
  /\ resolve_json (TObj []) (TNum 123) = TNum 123
  /\ resolve_json (TObj []) (TBool true) = TBool true
  /\ resolve_json (TObj []) (TObj [("x", TNum 1)]) = TObj [("x", TNum 1)]
  /\ resolve_json (TObj []) (TObj [("$literal", TObj [("a", TNum 1)])])
     = TObj [("a", TNum 1)].
Proof. by vm_compute. Qed.

Example tests_countryFromISO :
  countryFromISO no_intl [] (VStr "GB") = Ok (VStr "United Kingdom")
  /\ countryFromISO no_intl [] (VStr "XX") = Ok (VStr "XX").
Proof. by vm_compute. Qed.

Example tests_transform :
  transform_json (transforms no_intl)
    (TObj [("id", TStr "123"); ("firstName", TStr "John");
           ("lastName", TStr "Doe")])
    (TObj [("id", TStr "id");
           ("personalInformation.forename", TStr "firstName");
           ("personalInformation.surname", TStr "lastName")])
  = Ok (TObj [("id", TStr "123");
              ("personalInformation",
               TObj [("forename", TStr "John"); ("surname", TStr "Doe")])],
        [])
  /\ transform_json (transforms no_intl)
       (TObj [("v", TNum 1)])
       (TObj [("a", TBool true); ("b", TNum 123); ("c", TObj [("x", TNum 1)]);
              ("d", TArr [TNum 1; TNum 2] []); ("e", TStr "=hello");
              ("f", TObj [("$literal", TStr "=hello")])])
     = Ok (TObj [("a", TBool true); ("b", TNum 123);
                 ("c", TObj [("x", TNum 1)]); ("d", TArr [TNum 1; TNum 2] []);
                 ("e", TStr "hello"); ("f", TStr "=hello")], [])
  /\ transform_json (transforms no_intl)
       (TObj [("contacts", TArr [TObj [("email", TStr "a@x")];
                                 TObj [("email", TStr "b@y")]] [])])
       (TObj [("emails[]", TStr "contacts[].email");
              ("firstEmail", TStr "contacts[0].email");
              ("allEmails", TStr "contacts[].email")])
     = Ok (TObj [("emails", TArr [TStr "a@x"; TStr "b@y"] []);
                 ("firstEmail", TStr "a@x");
                 ("allEmails", TArr [TStr "a@x"; TStr "b@y"] [])], [])
  /\ transform_json (transforms no_intl)
       (TObj [("person", TObj [("nationality", TStr "GB")])])
       (TObj [("country1", TObj [("$transform", TStr "countryFromISO");
                                 ("$path", TStr "person.nationality")]);
              ("country2", TObj [("$transform", TStr "countryFromISO");
                                 ("$args", TArr [TStr "person.nationality"] [])]);
              ("country3", TObj [("$transform", TStr "countryFromISO");
                                 ("$args", TArr [TStr "=US"] [])])])
     = Ok (TObj [("country1", TStr "United Kingdom");
                 ("country2", TStr "United Kingdom");
                 ("country3", TStr "United States")], [])
  /\ transform_json (transforms no_intl)
       (TArr [TObj [("id", TStr "1"); ("firstName", TStr "A");
                    ("lastName", TStr "X")];
              TObj [("id", TStr "2"); ("firstName", TStr "B");
                    ("lastName", TStr "Y")]] [])
       (TObj [("id", TStr "id");
              ("personalInformation.forename", TStr "firstName");
              ("personalInformation.surname", TStr "lastName")])
     = Ok (TArr [TObj [("id", TStr "1");
                       ("personalInformation",
                        TObj [("forename", TStr "A"); ("surname", TStr "X")])];
                 TObj [("id", TStr "2");
                       ("personalInformation",
                        TObj [("forename", TStr "B"); ("surname", TStr "Y")])]]
             [], []).
Proof. by vm_compute. Qed.

(** ** Basic facts about outcomes, keys and the store *)

Lemma val_eqb_true v w : val_eqb v w = true <-> v = w.
Proof. unfold val_eqb. apply bool_decide_eq_true. Qed.

Lemma val_eqb_false v w : val_eqb v w = false <-> v <> w.
Proof. unfold val_eqb. apply bool_decide_eq_false. Qed.

Lemma val_eqb_refl v : val_eqb v v = true.
Proof. by apply val_eqb_true. Qed.

Lemma startsWith_eq s : Str.startsWith "=" (String "=" s) = true.
Proof. reflexivity. Qed.

Lemma is_plain_object_string h s : is_plain_object h (VStr s) = false.
Proof.
  unfold is_plain_object. cbn [typeof]. by rewrite andb_false_r.
Qed.

(** the reader allocates only when it returns an array *)
Lemma getValueByPath_undefined h obj path :
  (getValueByPath h obj path).2 = VUndef ->
  getValueByPath h obj path = (h, VUndef).
Proof.
  unfold getValueByPath. destruct (String.eqb path ""); [done|].
  destruct (read_segments h (Single obj) (Str.split "." path)) as [[v|items]|];
    simpl; intros E; try done. by rewrite E.
Qed.

(** ** C5: absent values are never written *)

(** C5. Writing undefined leaves the store, hence the target, as it was, for
    every target and path.  In the interpreter an entry that names a source
    path which reads as undefined changes neither the store nor the
    diagnostics and completes normally; a missing key (one that the object
    neither has nor inherits), an index access on something that is not an
    array and an index past the end of an array (an index in the sense of
    JavaScript, below 2^32 - 1) are three ways in which a read ends in
    undefined. *)
Theorem undefined_is_never_written :
  (forall h target path, setValueByPath h target path VUndef = Ok h)
  /\ (forall registry input result h log targetPath path,
        path <> "" ->
        Str.startsWith "=" path = false ->
        (getValueByPath h input path).2 = VUndef ->
        transform_entry registry input result (h, log)
          (targetPath, VStr path) = Ok (h, log))
  /\ (forall h a ps k,
        h !! a = Some (CObj ps) -> has_own k ps = false ->
        inherited_name k = false ->
        read_step h (Single (VRef a)) (Segment k prop)
          = Some (Single VUndef)
        /\ forall sg, read_step h (Single VUndef) sg = None)
  /\ (forall h current k n,
        is_array h (get_prop h current k) = false ->
        read_step h (Single current) (Segment k (index n)) = None)
  /\ (forall h current k n,
        is_nullish current = false ->
        is_array h (get_prop h current k) = true ->
        (N.of_nat (length (array_elems h (get_prop h current k))) <= n)%N ->
        (n < 4294967295)%N ->
        read_step h (Single current) (Segment k (index n))
          = Some (Single VUndef)).
Proof.
  split; [|split; [|split; [|split]]].
  - intros h target path. reflexivity.
  - intros registry input result h log targetPath path Hne Hpre Hund.
    unfold transform_entry.
    assert (val_eqb (VStr path) (VStr "") = false) as ->.
    { apply val_eqb_false. congruence. }
    assert (val_eqb (VStr path) VNull = false) as ->
      by by apply val_eqb_false.
    rewrite is_plain_object_string. cbn [andb orb]. rewrite Hpre.
    rewrite (getValueByPath_undefined _ _ _ Hund). reflexivity.
  - intros h a ps k Ha Hk _. split; [|done].
    unfold read_step. simpl. rewrite Ha. unfold has_own in Hk.
    by destruct (props_get k ps).
  - intros h current k n Hna. unfold read_step. simpl.
    destruct (is_nullish current); [done|]. by rewrite Hna.
  - intros h current k n Hnn Harr Hlen _. unfold read_step. simpl.
    rewrite Hnn, Harr. simpl. unfold get_index.
    apply N.ltb_ge in Hlen. by rewrite Hlen.
Qed.

Lemma undefined_is_never_written_witness :
  transform_entry (transforms no_intl) (VRef 0) 1
    ([CObj [("a", VNum 1)]; CObj []], []) ("out", VStr "b.c")
  = Ok ([CObj [("a", VNum 1)]; CObj []], [])
  /\ read_step [CObj [("a", VNum 1)]] (Single (VRef 0)) (Segment "b" prop)
     = Some (Single VUndef)
  /\ read_step [CObj [("a", VNum 1)]] (Single (VRef 0)) (Segment "a" (index 0))
     = None
  /\ read_step [CArr [VNum 1] []; CObj [("a", VRef 0)]] (Single (VRef 1))
       (Segment "a" (index 3))
     = Some (Single VUndef).
Proof.
  destruct undefined_is_never_written
    as (_ & Hentry & Hmissing & Hshape & Hrange).
  split; [|split; [|split]].
  - apply Hentry; [discriminate | reflexivity | reflexivity].
  - apply (Hmissing _ 0 [("a", VNum 1)] "b"); reflexivity.
  - apply Hshape. reflexivity.
  - apply Hrange; [reflexivity | reflexivity | by vm_compute | reflexivity].
Defined.

(** ** C9: string literals *)

(** C9. A string entry that begins with an equals sign loses exactly that
    one character and is taken literally: resolveSpec returns the remainder
    without reading the input or touching the store, and the interpreter
    writes the remainder to the target path. *)
Theorem equals_prefix_is_a_literal :
  (forall h input s,
     resolveSpec h input (VStr (String "=" s)) = (h, VStr s))
  /\ (forall input, resolveSpec [] input (VStr "=GBP") = ([], VStr "GBP"))
  /\ (forall input, resolveSpec [] input (VStr "==lead") = ([], VStr "=lead"))
  /\ (forall registry input result h log targetPath s,
        transform_entry registry input result (h, log)
          (targetPath, VStr (String "=" s))
        = (h1 ← setValueByPath h result targetPath (VStr s); Ok (h1, log))).
Proof.
  assert (forall h input s,
            resolveSpec h input (VStr (String "=" s)) = (h, VStr s)) as R.
  { intros h input s. unfold resolveSpec.
    rewrite is_plain_object_string. cbn [is_nullish andb orb].
    assert (val_eqb (VStr (String "=" s)) (VStr "") = false) as ->
      by by apply val_eqb_false.
    rewrite startsWith_eq.
    by destruct (Str.startsWith "==" (String "=" s)). }
  split; [exact R|]. split; [intros; apply R|]. split; [intros; apply R|].
  intros registry input result h log targetPath s.
  unfold transform_entry. rewrite is_plain_object_string.
  assert (val_eqb (VStr (String "=" s)) (VStr "") = false) as ->
    by by apply val_eqb_false.
  assert (val_eqb (VStr (String "=" s)) VNull = false) as ->
    by by apply val_eqb_false.
  cbn [andb orb Str.slice1]. rewrite startsWith_eq.
  by destruct (Str.startsWith "==" (String "=" s)).
Qed.

(** ** C10: the arguments of a transform directive *)

Lemma resolve_args_length h input rawArgs :
  length (resolve_args h input rawArgs).2 = length rawArgs.
Proof.
  revert h. induction rawArgs as [|a rest IH]; intros h; [done|].
  cbn [resolve_args]. destruct (resolveSpec h input a) as [h1 v].
  specialize (IH h1). destruct (resolve_args h1 input rest) as [h2 vs].
  cbn in *. by rewrite IH.
Qed.

(** C10. In a transform directive an own [$args] key decides the argument
    list whatever [$path] holds: an array gives its elements, anything else
    is wrapped into a one-element list, and every raw argument goes through
    resolveSpec, one after the other.  Without [$args] and without [$path]
    the list is empty.  The function the registry has for the name is
    called with exactly that list. *)
Theorem directive_argument_list :
  (forall h input spec spec',
     hasOwnProperty h spec "$args" = true ->
     hasOwnProperty h spec' "$args" = true ->
     get_prop h spec "$args" = get_prop h spec' "$args" ->
     directive_args h input spec = directive_args h input spec')
  /\ (forall h input spec,
        hasOwnProperty h spec "$args" = true ->
        is_array h (get_prop h spec "$args") = true ->
        directive_args h input spec
        = resolve_args h input (array_elems h (get_prop h spec "$args")))
  /\ (forall h input spec,
        hasOwnProperty h spec "$args" = true ->
        is_array h (get_prop h spec "$args") = false ->
        directive_args h input spec
        = let (h1, v) := resolveSpec h input (get_prop h spec "$args") in
          (h1, [v]))
  /\ (forall h input spec,
        hasOwnProperty h spec "$args" = false ->
        hasOwnProperty h spec "$path" = false ->
        directive_args h input spec = (h, []))
  /\ (forall h input a rest,
        resolve_args h input (a :: rest)
        = let (h1, v) := resolveSpec h input a in
          let (h2, vs) := resolve_args h1 input rest in
          (h2, v :: vs))
  /\ (forall h input rawArgs,
        length (resolve_args h input rawArgs).2 = length rawArgs)
  /\ (forall registry input result h log targetPath spec name fn,
        is_plain_object h spec = true ->
        hasOwnProperty h spec "$transform" = true ->
        ToString h (get_prop h spec "$transform") = Ok name ->
        registry name = Some fn ->
        transform_entry registry input result (h, log) (targetPath, spec)
        = let (h1, args) := directive_args h input spec in
          match fn h1 args with
          | Ok out =>
              if negb (val_eqb out VUndef)
              then h2 ← setValueByPath h1 result targetPath out; Ok (h2, log)
              else Ok (h1, log)
          | Throw msg => Ok (h1, log ++ [TransformFailed name msg])
          | Beyond => Beyond
          end).
Proof.
  split; [|split; [|split; [|split; [|split; [done|split]]]]].
  - intros h input spec spec' H1 H2 E. unfold directive_args.
    by rewrite H1, H2, E.
  - intros h input spec H1 H2. unfold directive_args. by rewrite H1, H2.
  - intros h input spec H1 H2. unfold directive_args. rewrite H1, H2.
    cbn [resolve_args].
    by destruct (resolveSpec h input (get_prop h spec "$args")).
  - intros h input spec H1 H2. unfold directive_args. by rewrite H1, H2.
  - apply resolve_args_length.
  - intros registry input result h log targetPath spec name fn
      Hobj Hown Hname Hfn.
    unfold transform_entry.
    assert (val_eqb spec (VStr "") = false) as ->.
    { apply val_eqb_false. intros ->.
      by rewrite is_plain_object_string in Hobj. }
    assert (val_eqb spec VNull = false) as ->.
    { apply val_eqb_false. by intros ->. }
    cbn [orb]. rewrite Hobj, Hown. cbn [andb].
    rewrite Hname. cbn [mbind outcome_bind]. by rewrite Hfn.
Qed.

Lemma directive_argument_list_witness :
  directive_args Sample.store Sample.input Sample.directive
    = (Sample.store, [VStr "us"])
  /\ transform_entry (transforms no_intl) Sample.input
       Sample.result (Sample.store, []) ("country", Sample.directive)
     = Ok (<[Sample.result := CObj [("country", VStr "United States")]]>
             Sample.store, []).
Proof.
  destruct directive_argument_list as (_ & _ & Hwrap & _ & _ & _ & Hcall).
  split.
  - rewrite (Hwrap Sample.store Sample.input Sample.directive);
      reflexivity.
  - rewrite (Hcall (transforms no_intl) Sample.input
               Sample.result Sample.store [] "country" Sample.directive
               "countryFromISO"
               (fun h args => countryFromISO no_intl h (nth 0 args VUndef)));
      reflexivity.
Defined.

(** ** Paths as strings: splitting and parsing *)

Lemma append_nil (s : string) : "" +:+ s = s.
Proof. reflexivity. Qed.

Lemma append_cons c (p s : string) : String c p +:+ s = String c (p +:+ s).
Proof. reflexivity. Qed.

Lemma append_nil_r (s : string) : s +:+ "" = s.
Proof. induction s as [|c s IH]; [done|]. by rewrite append_cons, IH. Qed.

Lemma split_nonempty sep s : Str.split sep s <> [].
Proof.
  destruct s as [|c s]; [done|]. cbn [Str.split].
  destruct (Ascii.eqb c sep); [done|]. by destruct (Str.split sep s).
Qed.

Lemma split_app sep p q :
  Str.split sep (p +:+ String sep q) = Str.split sep p ++ Str.split sep q.
Proof.
  induction p as [|c p IH].
  - rewrite append_nil. cbn [Str.split]. by rewrite Ascii.eqb_refl.
  - rewrite append_cons. cbn [Str.split].
    destruct (Ascii.eqb c sep); [by rewrite IH|].
    rewrite IH. pose proof (split_nonempty sep p).
    by destruct (Str.split sep p).
Qed.

Lemma split_without sep s :
  string_forall (fun c => negb (Ascii.eqb c sep)) s = true ->
  Str.split sep s = [s].
Proof.
  induction s as [|c s IH]; [done|]. cbn [string_forall Str.split].
  intros [Hc Hs]%andb_true_iff. apply negb_true_iff in Hc. rewrite Hc.
  by rewrite (IH Hs).
Qed.


Lemma span_key_app s : (span_key s).1 +:+ (span_key s).2 = s.
Proof.
  induction s as [|c s IH]; [done|]. cbn [span_key].
  destruct (Ascii.eqb c "["); [done|].
  destruct (span_key s) as [k r]. cbn [fst snd] in *.
  by rewrite append_cons, IH.
Qed.

Lemma span_key_bracket k r :
  string_forall (fun c => negb (Ascii.eqb c "[")) k = true ->
  span_key (k +:+ String "[" r) = (k, String "[" r).
Proof.
  induction k as [|c k IH]; [done|]. rewrite append_cons.
  cbn [string_forall span_key].
  intros [Hc Hk]%andb_true_iff. apply negb_true_iff in Hc. rewrite Hc.
  by rewrite (IH Hk).
Qed.


(** a segment that parses as a plain property is its own key *)
Lemma parseSeg_prop_key seg :
  smode (parseSeg seg) = prop -> parseSeg seg = Segment seg prop.
Proof.
  unfold parseSeg. pose proof (span_key_app seg) as Happ.
  destruct (span_key seg) as [k rest]. cbn in Happ.
  destruct (String.eqb k ""); [done|].
  destruct rest as [|c r].
  - intros _. f_equal. by rewrite <- Happ, append_nil_r.
  - destruct (digits_then_close r) as [ds|]; [|done].
    by destruct (String.eqb ds "").
Qed.

Lemma append_not_empty p c q : String.eqb (p +:+ String c q) "" = false.
Proof. by destruct p. Qed.

Lemma read_segments_app h cur l1 l2 :
  read_segments h cur (l1 ++ l2)
  = match read_segments h cur l1 with
    | Some cur' => read_segments h cur' l2
    | None => None
    end.
Proof.
  revert cur. induction l1 as [|seg l1 IH]; intros cur; [done|].
  cbn [app read_segments].
  by destruct (read_step h cur (parseSeg seg)).
Qed.

(** ** C2: wildcard segments *)

Lemma fold_push (l acc : list val) :
  fold_left (fun m v => m ++ [v]) l acc = acc ++ l.
Proof.
  revert acc. induction l as [|v l IH]; intros acc; cbn [fold_left].
  - by rewrite app_nil_r.
  - by rewrite IH, <- app_assoc.
Qed.

Lemma read_items_wildcard h k items acc :
  fold_left (read_item h (Segment k wildcard)) items acc
  = acc ++ flat_map (fun item =>
                       if is_nullish item then []
                       else wildcard_values h (get_prop h item k)) items.
Proof.
  revert acc. induction items as [|item items IH]; intros acc;
    cbn [fold_left flat_map].
  - by rewrite app_nil_r.
  - rewrite IH. rewrite app_assoc. f_equal.
    unfold read_item, wildcard_values. cbn [key smode].
    destruct (is_nullish item); [by rewrite app_nil_r|].
    destruct (is_array h (get_prop h item k)); [apply fold_push|].
    destruct (is_nullish (get_prop h item k)); cbn [negb];
      [by rewrite app_nil_r | done].
Qed.

Lemma string_forall_app P s t :
  string_forall P (s +:+ t) = string_forall P s && string_forall P t.
Proof.
  induction s as [|c s IH]; [done|]. rewrite append_cons.
  cbn [string_forall]. by rewrite IH, andb_assoc.
Qed.




(** ** Reading back what was assigned *)

Lemma needs_object x :
  is_nullish x || negb (String.eqb (typeof x) "object") = negb (is_ref x).
Proof. by destruct x. Qed.

Lemma needs_carrier x :
  negb (truthy x) || negb (String.eqb (typeof x) "object") = negb (is_ref x).
Proof. destruct x; cbn [truthy typeof is_ref]; try done; apply orb_true_r. Qed.

Lemma props_get_replace k v ps :
  has_own k ps = true -> props_get k (props_replace k v ps) = Some v.
Proof.
  unfold has_own. induction ps as [|[k' w] ps IH]; [done|].
  cbn [props_get props_replace].
  destruct (String.eqb k' k) eqn:E; cbn [props_get]; rewrite E; [done|].
  exact IH.
Qed.

Lemma props_get_insert_index n k v ps :
  has_own k ps = false -> props_get k (props_insert_index n k v ps) = Some v.
Proof.
  unfold has_own. induction ps as [|[k' w] ps IH]; cbn [props_insert_index props_get].
  - by rewrite String.eqb_refl.
  - destruct (String.eqb k' k) eqn:E; [done|]. intros Hps.
    destruct (parse_index k') as [m|]; [destruct (m <? n)%N|];
      cbn [props_get]; rewrite ?E, ?String.eqb_refl; auto.
Qed.

Lemma props_get_app_new k v ps :
  has_own k ps = false -> props_get k (ps ++ [(k, v)]) = Some v.
Proof.
  unfold has_own. induction ps as [|[k' w] ps IH]; cbn [app props_get].
  - by rewrite String.eqb_refl.
  - by destruct (String.eqb k' k).
Qed.

Lemma props_get_set k v ps : props_get k (props_set k v ps) = Some v.
Proof.
  unfold props_set. destruct (has_own k ps) eqn:E.
  - by apply props_get_replace.
  - destruct (parse_index k).
    + by apply props_get_insert_index.
    + by apply props_get_app_new.
Qed.

Lemma set_prop_object h a ps k v :
  h !! a = Some (CObj ps) ->
  set_prop h a k v = Ok (<[a := CObj (props_set k v ps)]> h).
Proof. unfold set_prop. by intros ->. Qed.

Lemma set_prop_length h a k v h' :
  set_prop h a k v = Ok h' -> length h' = length h.
Proof.
  unfold set_prop. destruct (h !! a) as [[ps|els extra]|]; [| |done].
  - intros [= <-]. apply length_insert.
  - destruct (parse_index k) as [n|].
    + destruct (n <? _)%N; [intros [= <-]; apply length_insert|].
      destruct (n =? _)%N; [intros [= <-]; apply length_insert|done].
    + destruct (String.eqb k "length"); [done|].
      intros [= <-]. apply length_insert.
Qed.

Lemma set_prop_other h a k v h' a' :
  set_prop h a k v = Ok h' -> a' <> a -> h' !! a' = h !! a'.
Proof.
  unfold set_prop. intros H Hne.
  destruct (h !! a) as [[ps|els extra]|]; [| |done].
  - injection H as <-. by apply list_lookup_insert_ne.
  - destruct (parse_index k) as [n|].
    + destruct (n <? _)%N; [injection H as <-; by apply list_lookup_insert_ne|].
      destruct (n =? _)%N; [injection H as <-; by apply list_lookup_insert_ne|done].
    + destruct (String.eqb k "length"); [done|].
      injection H as <-. by apply list_lookup_insert_ne.
Qed.

Lemma get_prop_cell h h' a k :
  h' !! a = h !! a -> get_prop h' (VRef a) k = get_prop h (VRef a) k.
Proof. unfold get_prop. by intros ->. Qed.

Lemma get_prop_set_prop h a k v h' :
  set_prop h a k v = Ok h' -> get_prop h' (VRef a) k = v.
Proof.
  unfold set_prop, get_prop.
  destruct (h !! a) as [[ps|els extra]|] eqn:Ha; [| |done];
    pose proof (lookup_lt_Some _ _ _ Ha) as Hlt.
  - intros [= <-]. rewrite list_lookup_insert_eq by done.
    by rewrite props_get_set.
  - destruct (parse_index k) as [n|] eqn:Hk.
    + destruct (n <? _)%N eqn:Hn.
      * intros [= <-]. rewrite list_lookup_insert_eq by done.
        rewrite list_lookup_insert_eq; [done|]. apply N.ltb_lt in Hn. lia.
      * destruct (n =? _)%N eqn:Hn'; [|done].
        intros [= <-]. rewrite list_lookup_insert_eq by done.
        apply N.eqb_eq in Hn'. subst n. rewrite Nat2N.id.
        by rewrite lookup_app_r, Nat.sub_diag.
    + destruct (String.eqb k "length") eqn:Hl; [done|].
      intros [= <-]. rewrite list_lookup_insert_eq by done.
      by rewrite props_get_set.
Qed.

Lemma lookup_alloc_old (h :
  heap) c a : a < length h -> (h ++ [c]) !! a = h !! a.
Proof. intros. by apply lookup_app_l. Qed.

Lemma lookup_alloc_new (h : heap) c : (h ++ [c]) !! length h = Some c.
Proof. by rewrite lookup_app_r, Nat.sub_diag. Qed.

(** ** C4: plain segments before the last *)

Lemma write_segments_plain_segment h current raw next rest value :
  Str.endsWith "[]" raw = false ->
  current < length h ->
  (forall a,
     get_prop h (VRef current) raw = VRef a ->
     write_segments h current (raw :: next :: rest) value
     = write_segments h a (next :: rest) value)
  /\ (is_ref (get_prop h (VRef current) raw) = false ->
      write_segments h current (raw :: next :: rest) value
      = (h1 ← set_prop (h ++ [CObj []]) current raw (VRef (length h));
         write_segments h1 (length h) (next :: rest) value)
      /\ (forall h1,
            set_prop (h ++ [CObj []]) current raw (VRef (length h)) = Ok h1 ->
            h1 !! length h = Some (CObj [])
            /\ get_prop h1 (VRef current) raw = VRef (length h))
      /\ (forall ps,
            h !! current = Some (CObj ps) ->
            set_prop (h ++ [CObj []]) current raw (VRef (length h))
            = Ok (<[current := CObj (props_set raw (VRef (length h)) ps)]>
                    (h ++ [CObj []])))).
Proof.
  intros Hends Hcur. split.
  - intros a Hx. cbn [write_segments]. rewrite Hends.
    unfold ensure_object. rewrite needs_object, Hx. cbn [is_ref negb].
    cbn [mbind outcome_bind]. rewrite Hx. reflexivity.
  - intros Hx. split; [|split].
    + cbn [write_segments]. rewrite Hends.
      unfold ensure_object. rewrite needs_object, Hx. cbn [negb alloc].
      destruct (set_prop (h ++ [CObj []]) current raw (VRef (length h)))
        as [h1| |] eqn:Hset; cbn [mbind outcome_bind]; [|done..].
      by rewrite (get_prop_set_prop _ _ _ _ _ Hset).
    + intros h1 Hset. split; [|by apply (get_prop_set_prop _ _ _ _ _ Hset)].
      rewrite (set_prop_other _ _ _ _ _ (length h) Hset) by lia.
      apply lookup_alloc_new.
    + intros ps Hps. apply set_prop_object. by rewrite lookup_alloc_old.
Qed.

(** C4, as amended.  At a segment without the array mark that is not the
    last, the writer looks at [current[key]].  When that is an object or an
    array (anything whose [typeof] is ["object"] and that is not null) the
    store is left as it is and the walk goes on inside it.  When it is
    absent, null, a boolean, a number or a string, a fresh empty object is
    allocated, assigned to [current[key]], and the walk goes on inside the
    fresh object; on a plain object that assignment always succeeds. *)
Theorem plain_segment_descends h current raw next rest value :
  Str.endsWith "[]" raw = false ->
  current < length h ->
  (forall a,
     get_prop h (VRef current) raw = VRef a ->
     write_segments h current (raw :: next :: rest) value
     = write_segments h a (next :: rest) value)
  /\ (is_ref (get_prop h (VRef current) raw) = false ->
      write_segments h current (raw :: next :: rest) value
      = (h1 ← set_prop (h ++ [CObj []]) current raw (VRef (length h));
         write_segments h1 (length h) (next :: rest) value)
      /\ (forall h1,
            set_prop (h ++ [CObj []]) current raw (VRef (length h)) = Ok h1 ->
            h1 !! length h = Some (CObj [])
            /\ get_prop h1 (VRef current) raw = VRef (length h))
      /\ (forall ps,
            h !! current = Some (CObj ps) ->
            set_prop (h ++ [CObj []]) current raw (VRef (length h))
            = Ok (<[current := CObj (props_set raw (VRef (length h)) ps)]>
                    (h ++ [CObj []])))).
Proof. apply write_segments_plain_segment. Qed.

Lemma plain_segment_descends_witness :
  write_segments [CObj [("a", VStr "text")]] 0 ["a"; "b"] (VNum 5)
  = Ok [CObj [("a", VRef 1)]; CObj [("b", VNum 5)]]
  /\ write_segments [CObj [("b", VNum 1)]; CObj [("a", VRef 0)]] 1 ["a"; "b"]
       (VNum 5)
     = Ok [CObj [("b", VNum 5)]; CObj [("a", VRef 0)]].
Proof.
  split.
  - destruct (plain_segment_descends [CObj [("a", VStr "text")]] 0 "a" "b" []
                (VNum 5)) as [_ Hfresh]; [reflexivity | cbn; lia |].
    destruct Hfresh as (-> & _ & _); reflexivity.
  - destruct (plain_segment_descends
                [CObj [("b", VNum 1)]; CObj [("a", VRef 0)]] 1 "a" "b" []
                (VNum 5)) as [Hkeep _]; [reflexivity | cbn; lia |].
    rewrite (Hkeep 0); reflexivity.
Defined.

(** C4 as stated fails on arrays: [typeof] of an array is ["object"], so an
    array found at a plain segment is kept and written into.  Writing
    [a.b = 5] into [{a: [1]}] leaves [a] the same array, now carrying a
    property [b], where the claim has a fresh [{b: 5}]. *)
Lemma plain_segment_keeps_array :
  exists h',
    setValueByPath [CArr [VNum 1] []; CObj [("a", VRef 0)]] 1 "a.b" (VNum 5)
    = Ok h'
    /\ length h' = 2
    /\ get_prop h' (VRef 1) "a" = VRef 0
    /\ is_array h' (get_prop h' (VRef 1) "a") = true
    /\ reify 8 h' (VRef 1) = TObj [("a", TArr [TNum 1] [("b", TNum 5)])]
    /\ reify 8 h' (VRef 1) <> TObj [("a", TObj [("b", TNum 5)])].
Proof.
  eexists. split; [vm_compute; reflexivity|]. by vm_compute.
Qed.

(** ** C3: array-marked segments before the last *)

Lemma get_prop_array_0 h arr els extra :
  h !! arr = Some (CArr els extra) ->
  get_prop h (VRef arr) "0" = default VUndef (els !! 0).
Proof. unfold get_prop. by intros ->. Qed.

Lemma set_prop_array_0 h arr els extra v :
  h !! arr = Some (CArr els extra) ->
  set_prop h arr "0" v = Ok (<[arr := CArr (v :: tail els) extra]> h).
Proof.
  unfold set_prop. intros ->.
  change (parse_index "0") with (Some 0%N).
  by destruct els.
Qed.

Lemma write_segments_array_segment h current raw next rest value :
  Str.endsWith "[]" raw = true ->
  write_segments h current (raw :: next :: rest) value
  = (h1 ← ensure_array h current (Str.slice_0_m2 raw);
     h2 ← ensure_carrier h1 current (Str.slice_0_m2 raw);
     carrier ← descend (get_prop h2 (get_prop h2 (VRef current)
                                        (Str.slice_0_m2 raw)) "0");
     write_segments h2 carrier (next :: rest) value).
Proof. intros Hends. cbn [write_segments]. by rewrite Hends. Qed.



(** ** C8: countryFromISO *)
















(** ** C1: writing a value and reading it back *)

Lemma plain_segment_inv seg :
  plain_segment seg = true ->
  Str.endsWith "[]" seg = false /\ parseSeg seg = Segment seg prop.
Proof.
  unfold plain_segment. intros [H1 H2]%andb_true_iff.
  split; [by apply negb_true_iff|]. apply parseSeg_prop_key.
  by destruct (smode (parseSeg seg)).
Qed.

Lemma span_key_bracket_free s :
  string_forall (fun c => negb (Ascii.eqb c "[")) s = true ->
  span_key s = (s, EmptyString).
Proof.
  induction s as [|c s IH]; [done|]. cbn [string_forall span_key].
  intros [Hc Hs]%andb_true_iff. apply negb_true_iff in Hc.
  by rewrite Hc, (IH Hs).
Qed.

Lemma endsWith_bracket_free s :
  string_forall (fun c => negb (Ascii.eqb c "[")) s = true ->
  Str.endsWith "[]" s = false.
Proof.
  induction s as [|c s IH]; [done|]. cbn [string_forall Str.endsWith].
  intros [Hc Hs]%andb_true_iff. apply negb_true_iff in Hc.
  rewrite (IH Hs), orb_false_r. cbn [String.eqb]. by rewrite Hc.
Qed.

(** in particular, a segment without an opening bracket is plain *)
Lemma plain_segment_bracket_free seg :
  string_forall (fun c => negb (Ascii.eqb c "[")) seg = true ->
  plain_segment seg = true.
Proof.
  intros H. unfold plain_segment, parseSeg.
  rewrite (endsWith_bracket_free _ H), (span_key_bracket_free _ H).
  by destruct (String.eqb seg "").
Qed.

Lemma props_set_empty k v : props_set k v [] = [(k, v)].
Proof. unfold props_set. cbn [has_own props_get]. by destruct (parse_index k). Qed.

Lemma read_step_prop h a k :
  read_step h (Single (VRef a)) (Segment k prop)
  = Some (Single (get_prop h (VRef a) k)).
Proof. reflexivity. Qed.

Lemma write_read_segments value segments :
  segments <> [] ->
  forallb plain_segment segments = true ->
  forall h current,
    h !! current = Some (CObj []) ->
    exists h',
      write_segments h current segments value = Ok h'
      /\ length h <= length h'
      /\ (forall a, a < length h -> a <> current -> h' !! a = h !! a)
      /\ read_segments h' (Single (VRef current)) segments
         = Some (Single value).
Proof.
  induction segments as [|seg [|next rest] IH]; [done| |];
    intros _ Hplain h current Hcur;
    cbn [forallb] in Hplain; apply andb_true_iff in Hplain as [Hseg Hrest];
    destruct (plain_segment_inv _ Hseg) as [Hends Hparse];
    pose proof (lookup_lt_Some _ _ _ Hcur) as Hlt.
  - (* the last segment: [current[key] = value] *)
    exists (<[current := CObj [(seg, value)]]> h).
    cbn [write_segments read_segments]. rewrite Hends, Hparse, read_step_prop.
    rewrite (set_prop_object _ _ [] _ _ Hcur), props_set_empty.
    repeat split.
    + by rewrite length_insert.
    + intros a _ Hne. by apply list_lookup_insert_ne.
    + do 2 f_equal. unfold get_prop.
      rewrite list_lookup_insert_eq by done. cbn [props_get].
      by rewrite String.eqb_refl.
  - (* a fresh object for [current[key]], and the rest inside it *)
    set (h1 := <[current := CObj [(seg, VRef (length h))]]> (h ++ [CObj []])).
    assert (h1 !! length h = Some (CObj [])) as Hnew
      by (unfold h1; rewrite list_lookup_insert_ne by lia;
          apply lookup_alloc_new).
    assert (length h1 = S (length h)) as Hlen1
      by (unfold h1; rewrite length_insert, length_app; cbn; lia).
    destruct (IH ltac:(done) Hrest h1 (length h) Hnew)
      as (h' & Hwrite & Hlen & Hframe & Hread).
    exists h'.
    destruct (write_segments_plain_segment h current seg next rest value
                Hends Hlt) as [_ Hfresh].
    destruct Hfresh as (Hstep & _ & Hset).
    { unfold get_prop. by rewrite Hcur. }
    rewrite Hstep, (Hset [] Hcur), props_set_empty.
    cbn [mbind outcome_bind]. fold h1.
    repeat split; [done | lia | |].
    + intros a Ha Hne. rewrite Hframe by lia. unfold h1.
      rewrite list_lookup_insert_ne by done. by apply lookup_alloc_old.
    + cbn [read_segments]. rewrite Hparse, read_step_prop.
      assert (get_prop h' (VRef current) seg = VRef (length h)) as ->; [|done].
      unfold get_prop. rewrite Hframe by lia. unfold h1.
      rewrite list_lookup_insert_eq by (rewrite length_app; lia).
      cbn [props_get]. by rewrite String.eqb_refl.
Qed.

(** C1, as amended.  For every path that is not empty, whose segments
    carry no bracket suffix at all (no [[]] at the end for the writer, and
    nothing the reader parses as [key[]] or [key[n]]) and none of whose
    segments is [__proto__], and for every value other than undefined:
    writing the value at the path into a fresh empty object succeeds, and
    reading the path back from that object returns the very value, without
    touching the store.  (On JavaScript an assignment to [__proto__] makes
    no property, and a read of it returns the prototype; every other name
    that a fresh object inherits holds a function, which the writer
    replaces and the reader never meets once the name is assigned.) *)
Theorem write_then_read h path value :
  path <> "" ->
  forallb plain_segment (Str.split "." path) = true ->
  prototype_free path = true ->
  value <> VUndef ->
  exists h',
    setValueByPath (h ++ [CObj []]) (length h) path value = Ok h'
    /\ getValueByPath h' (VRef (length h)) path = (h', value).
Proof.
  intros Hpath Hplain _ Hvalue.
  destruct (write_read_segments value (Str.split "." path)
              (split_nonempty _ _) Hplain (h ++ [CObj []]) (length h)
              (lookup_alloc_new h (CObj [])))
    as (h' & Hwrite & _ & _ & Hread).
  exists h'. unfold setValueByPath, getValueByPath.
  apply val_eqb_false in Hvalue. rewrite Hvalue.
  apply String.eqb_neq in Hpath. rewrite Hpath, Hread. by split.
Qed.

Lemma write_then_read_witness :
  exists h',
    setValueByPath [CObj []] 0 "a.b.c" (VNum 10) = Ok h'
    /\ getValueByPath h' (VRef 0) "a.b.c" = (h', VNum 10).
Proof.
  apply (write_then_read [] "a.b.c" (VNum 10));
    [discriminate | reflexivity | reflexivity | discriminate].
Defined.

(** C1 as stated fails on two kinds of path without a wildcard.  A numeric
    index is no wildcard, but the writer takes [list[0]] as the name of a
    property while the reader looks for index 0 of an array at [list]; and
    the reader answers undefined for the empty path, under which the writer
    stores a property with the empty name. *)
Lemma write_then_read_fails :
  (exists h',
     setValueByPath [CObj []] 0 "list[0]" (VNum 1) = Ok h'
     /\ Str.endsWith "[]" "list[0]" = false
     /\ reify 8 h' (VRef 0) = TObj [("list[0]", TNum 1)]
     /\ getValueByPath h' (VRef 0) "list[0]" = (h', VUndef))
  /\ (exists h',
        setValueByPath [CObj []] 0 "" (VNum 1) = Ok h'
        /\ reify 8 h' (VRef 0) = TObj [("", TNum 1)]
        /\ getValueByPath h' (VRef 0) "" = (h', VUndef)).
Proof.
  split; eexists; (split; [vm_compute; reflexivity|]); by vm_compute.
Qed.

(** ** C7: array inputs *)

Lemma map_items_length registry st input mapping ks out st' rs :
  map_items registry st input mapping ks out = Ok (st', rs) ->
  length rs = length out + length ks.
Proof.
  revert st out. induction ks as [|k ks IH]; intros st out; cbn [map_items].
  - intros [= _ <-]. cbn. lia.
  - destruct (transformOne registry st
                (get_index st.1 input (N.of_nat k)) mapping)
      as [[st1 r]| |]; cbn [mbind outcome_bind]; [|done..].
    intros H. rewrite (IH _ _ H), length_app. cbn. lia.
Qed.

(** what holds of C7: an array comes back, as long as the input *)
Lemma transform_array_length registry st input mapping st' out :
  is_array st.1 input = true ->
  transform registry st input mapping = Ok (st', out) ->
  is_array st'.1 out = true
  /\ length (array_elems st'.1 out) = length (array_elems st.1 input).
Proof.
  unfold transform. intros ->.
  destruct (map_items registry st input mapping
              (seq 0 (length (array_elems st.1 input))) [])
    as [[st1 rs]| |] eqn:E; cbn [mbind outcome_bind alloc]; [|done..].
  intros [= <- <-]. unfold is_array, array_elems. cbn [fst].
  rewrite lookup_alloc_new. split; [done|].
  rewrite (map_items_length _ _ _ _ _ _ _ _ E), length_seq. done.
Qed.

(** C7 fails on the code.  The items of an array input are mapped one after
    the other against the same mapping object, and [setValueByPath] stores
    a literal of the mapping by reference: with the mapping
    [{"personalInformation.email": [],
      "personalInformation.email[].email": "email"}]
    the array literal itself becomes [personalInformation.email] of every
    output record, the first item puts its carrier object into it, and the
    second item overwrites the field the first one wrote.  Both output
    records end up with the second item's address, while the first item
    mapped on its own keeps its own. *)
Theorem transform_items_share_the_mapping_literals :
  let mapping :=
    TObj [("personalInformation.email", TArr [] []);
          ("personalInformation.email[].email", TStr "email")] in
  let record (address : string) :=
    TObj [("personalInformation",
           TObj [("email", TArr [TObj [("email", TStr address)]] [])])] in
  transform_json (transforms no_intl)
    (TArr [TObj [("email", TStr "a@x")]; TObj [("email", TStr "b@y")]] [])
    mapping
  = Ok (TArr [record "b@y"; record "b@y"] [], [])
  /\ transform_json (transforms no_intl)
       (TObj [("email", TStr "a@x")]) mapping
     = Ok (record "a@x", [])
  /\ record "b@y" <> record "a@x".
Proof. by vm_compute. Qed.

(** ** The store only grows *)

Lemma array_push_length h x v h' :
  array_push h x v = Ok h' -> length h' = length h.
Proof.
  destruct x as [| | | | |a]; try done. cbn [array_push].
  destruct (h !! a) as [[|els extra]|]; try done.
  intros [= <-]. apply length_insert.
Qed.

Lemma ensure_array_length h current k h' :
  ensure_array h current k = Ok h' -> length h <= length h'.
Proof.
  unfold ensure_array. destruct (negb _); [|by intros [= <-]].
  cbn [alloc]. intros H%set_prop_length. rewrite H, length_app. lia.
Qed.

Lemma ensure_carrier_length h current k h' :
  ensure_carrier h current k = Ok h' -> length h <= length h'.
Proof.
  unfold ensure_carrier. destruct (_ || _); [|by intros [= <-]].
  destruct (get_prop h (VRef current) k); try done.
  cbn [alloc]. intros H%set_prop_length. rewrite H, length_app. lia.
Qed.

Lemma ensure_object_length h current k h' :
  ensure_object h current k = Ok h' -> length h <= length h'.
Proof.
  unfold ensure_object. destruct (_ || _); [|by intros [= <-]].
  cbn [alloc]. intros H%set_prop_length. rewrite H, length_app. lia.
Qed.

Lemma bind_Ok {A B} (m : outcome A) (k : A -> outcome B) b :
  m ≫= k = Ok b -> exists a, m = Ok a /\ k a = Ok b.
Proof. destruct m; try done. eauto. Qed.

Lemma write_segments_length h current segments value h' :
  write_segments h current segments value = Ok h' -> length h <= length h'.
Proof.
  revert h current. induction segments as [|raw rest IH]; intros h current.
  { by intros [= <-]. }
  cbn [write_segments]. destruct (Str.endsWith "[]" raw).
  - intros (h1 & H1%ensure_array_length & H)%bind_Ok.
    destruct rest as [|next rest].
    + destruct (is_array h1 value).
      * cbn [alloc] in H. apply set_prop_length in H.
        rewrite length_app in H. cbn in H. lia.
      * apply array_push_length in H. lia.
    + apply bind_Ok in H as (h2 & H2%ensure_carrier_length & H).
      apply bind_Ok in H as (c & _ & H%IH). lia.
  - destruct rest as [|next rest].
    + intros H%set_prop_length. lia.
    + intros (h1 & H1%ensure_object_length & H)%bind_Ok.
      apply bind_Ok in H as (c & _ & H%IH). lia.
Qed.

Lemma setValueByPath_length h target path value h' :
  setValueByPath h target path value = Ok h' -> length h <= length h'.
Proof.
  unfold setValueByPath. destruct (val_eqb value VUndef); [by intros [= <-]|].
  apply write_segments_length.
Qed.

Lemma getValueByPath_length h obj path :
  length h <= length (getValueByPath h obj path).1.
Proof.
  unfold getValueByPath. destruct (String.eqb path ""); [done|].
  destruct (read_segments _ _ _) as [[v|items]|]; cbn; try done.
  rewrite length_app. lia.
Qed.

Lemma resolveSpec_length h input spec :
  length h <= length (resolveSpec h input spec).1.
Proof.
  unfold resolveSpec. destruct (_ || _); [done|].
  destruct (_ && _); [done|]. destruct spec; try done.
  destruct (Str.startsWith "=" s); [done|]. apply getValueByPath_length.
Qed.

Lemma resolve_args_heap_length h input rawArgs :
  length h <= length (resolve_args h input rawArgs).1.
Proof.
  revert h. induction rawArgs as [|a rest IH]; intros h; [done|].
  cbn [resolve_args]. pose proof (resolveSpec_length h input a) as H1.
  destruct (resolveSpec h input a) as [h1 v]. specialize (IH h1).
  destruct (resolve_args h1 input rest) as [h2 vs]. cbn in *. lia.
Qed.

Lemma directive_args_length h input spec :
  length h <= length (directive_args h input spec).1.
Proof.
  unfold directive_args. destruct (hasOwnProperty h spec "$args").
  { apply resolve_args_heap_length. }
  destruct (hasOwnProperty h spec "$path"); [|done].
  pose proof (resolveSpec_length h input (get_prop h spec "$path")).
  by destruct (resolveSpec _ _ _).
Qed.

Lemma transform_entry_length registry input result h log entry h' log' :
  transform_entry registry input result (h, log) entry = Ok (h', log') ->
  length h <= length h'.
Proof.
  destruct entry as [targetPath sourceSpec]. unfold transform_entry.
  destruct (_ || _); [by intros [= <- _]|].
  destruct (_ && _).
  { intros (name & _ & H)%bind_Ok. destruct (registry name) as [fn|];
      [|by injection H as <- _].
    pose proof (directive_args_length h input sourceSpec) as Hd.
    destruct (directive_args h input sourceSpec) as [h1 args]. cbn in Hd.
    destruct (fn h1 args) as [out| |]; [| |done].
    - destruct (negb _); [|injection H as <- _; lia].
      apply bind_Ok in H as (h2 & H2%setValueByPath_length & [= <- _]). lia.
    - injection H as <- _. lia. }
  destruct (_ && _).
  { by intros (h1 & H1%setValueByPath_length & [= <- _])%bind_Ok. }
  destruct sourceSpec as [| | | |s|];
    try by intros (h1 & H1%setValueByPath_length & [= <- _])%bind_Ok.
  destruct (Str.startsWith "=" s).
  { by intros (h1 & H1%setValueByPath_length & [= <- _])%bind_Ok. }
  pose proof (getValueByPath_length h input s) as Hg.
  destruct (getValueByPath h input s) as [h1 value]. cbn in Hg.
  destruct (val_eqb value VUndef); [by intros [= <- _]|].
  intros (h2 & H2%setValueByPath_length & [= <- _])%bind_Ok. lia.
Qed.

Lemma transform_entries_length registry input result entries st st' :
  transform_entries registry input result st entries = Ok st' ->
  length st.1 <= length st'.1.
Proof.
  revert st. induction entries as [|entry rest IH]; intros st.
  { by intros [= <-]. }
  cbn [transform_entries]. intros ([h1 log1] & H1 & H%IH)%bind_Ok.
  destruct st as [h log]. apply transform_entry_length in H1. cbn in *. lia.
Qed.

Lemma bind_fmap {A B C} (f : A -> B) (m : outcome A) (k : B -> outcome C) :
  (f <$> m) ≫= k = m ≫= (fun a => k (f a)).
Proof. by destruct m. Qed.

Lemma fmap_bind {A B C} (f : B -> C) (m : outcome A) (k : A -> outcome B) :
  f <$> (m ≫= k) = m ≫= (fun a => f <$> k a).
Proof. by destruct m. Qed.

Lemma bind_ext {A B} (m : outcome A) (k1 k2 : A -> outcome B) :
  (forall a, m = Ok a -> k1 a = k2 a) -> m ≫= k1 = m ≫= k2.
Proof. destruct m; try done. intros H. by apply H. Qed.

(** ** Stores without dangling references *)

Lemma Forall_weaken {A} (P Q : A -> Prop) (l : list A) :
  (forall x, P x -> Q x) -> Forall P l -> Forall Q l.
Proof. intros HPQ H. eapply Forall_impl; [exact H | exact HPQ]. Qed.

Lemma val_ok_mono n m x : n <= m -> val_ok n x -> val_ok m x.
Proof. destruct x; cbn; try done. lia. Qed.

Lemma vals_ok_mono n m xs :
  n <= m -> Forall (val_ok n) xs -> Forall (val_ok m) xs.
Proof. intros Hnm. apply Forall_weaken. intros x. by apply val_ok_mono. Qed.

Lemma props_ok_mono n m ps : n <= m -> props_ok n ps -> props_ok m ps.
Proof. intros Hnm. apply Forall_weaken. intros x. by apply val_ok_mono. Qed.

Lemma cell_ok_mono n m c : n <= m -> cell_ok n c -> cell_ok m c.
Proof.
  intros Hnm. destruct c as [ps|els extra]; cbn.
  - by apply props_ok_mono.
  - intros [? ?]. split; [by eapply vals_ok_mono | by eapply props_ok_mono].
Qed.

Lemma closed_alloc h c :
  closed h -> cell_ok (S (length h)) c -> closed (h ++ [c]).
Proof.
  unfold closed. intros Hh Hc. rewrite length_app, Nat.add_1_r.
  apply Forall_app. split; [|by apply Forall_singleton].
  revert Hh. apply Forall_weaken. intros c'. apply cell_ok_mono. lia.
Qed.

Lemma closed_insert h a c :
  closed h -> cell_ok (length h) c -> closed (<[a := c]> h).
Proof.
  unfold closed. intros Hh Hc. rewrite length_insert.
  destruct (decide (a < length h)) as [Hlt|Hge].
  - by apply Forall_insert.
  - rewrite list_insert_ge by lia. done.
Qed.

Lemma closed_lookup h a c :
  closed h -> h !! a = Some c -> cell_ok (length h) c.
Proof. intros Hh Ha. by eapply (Forall_lookup_1 _ _ _ _ Hh). Qed.

Lemma props_get_ok n k ps v :
  props_ok n ps -> props_get k ps = Some v -> val_ok n v.
Proof.
  induction 1 as [|[k' w] ps Hw Hps IH]; [done|]. cbn [props_get].
  destruct (String.eqb k' k); [by intros [= <-]|]. exact IH.
Qed.

Lemma props_set_ok n k v ps :
  props_ok n ps -> val_ok n v -> props_ok n (props_set k v ps).
Proof.
  intros Hps Hv. unfold props_set. destruct (has_own k ps).
  - induction Hps as [|[k' w] ps Hw Hps IH]; [constructor|].
    cbn [props_replace]. destruct (String.eqb k' k); by constructor.
  - destruct (parse_index k) as [m|].
    + induction Hps as [|[k' w] ps Hw Hps IH]; cbn [props_insert_index].
      { by repeat constructor. }
      destruct (parse_index k') as [m'|]; [destruct (m' <? m)%N|];
        by repeat constructor.
    + apply Forall_app. split; [done|]. by repeat constructor.
Qed.

Lemma default_ok n (o : option val) :
  (forall v, o = Some v -> val_ok n v) -> val_ok n (default VUndef o).
Proof. destruct o; cbn; [|done]. intros H. by apply H. Qed.

Lemma get_prop_ok h x k : closed h -> val_ok (length h) (get_prop h x k).
Proof.
  intros Hh. destruct x as [| | | |s|a]; try done.
  - cbn [get_prop]. destruct (parse_index k);
      [destruct (_ <? _)%N | destruct (String.eqb _ _)]; done.
  - cbn [get_prop]. destruct (h !! a) as [[ps|els extra]|] eqn:Ha; [| |done];
      pose proof (closed_lookup _ _ _ Hh Ha) as Hc; cbn in Hc.
    + apply default_ok. intros v. by apply props_get_ok.
    + destruct Hc as [Hels Hex]. destruct (parse_index k) as [m|].
      * apply default_ok. intros v Hv.
        by apply (Forall_lookup_1 _ _ _ _ Hels Hv).
      * destruct (String.eqb k "length"); [done|].
        apply default_ok. intros v. by apply props_get_ok.
Qed.

Lemma array_elems_ok h x :
  closed h -> Forall (val_ok (length h)) (array_elems h x).
Proof.
  intros Hh. destruct x as [| | | | |a]; try by constructor.
  cbn [array_elems]. destruct (h !! a) as [[ps|els extra]|] eqn:Ha;
    try by constructor.
  by destruct (closed_lookup _ _ _ Hh Ha).
Qed.

Lemma get_index_ok h x m : closed h -> val_ok (length h) (get_index h x m).
Proof.
  intros Hh. unfold get_index. destruct (m <? _)%N; [|done].
  apply default_ok. intros v Hv.
  by apply (Forall_lookup_1 _ _ _ _ (array_elems_ok h x Hh) Hv).
Qed.

Lemma set_prop_ok h a k v h' :
  closed h -> val_ok (length h) v -> set_prop h a k v = Ok h' -> closed h'.
Proof.
  intros Hh Hv. unfold set_prop.
  destruct (h !! a) as [[ps|els extra]|] eqn:Ha; [| |done];
    pose proof (closed_lookup _ _ _ Hh Ha) as Hc; cbn in Hc.
  - intros [= <-]. apply closed_insert; [done|]. by apply props_set_ok.
  - destruct Hc as [Hels Hex]. destruct (parse_index k) as [m|].
    + destruct (m <? _)%N eqn:Hm.
      { intros [= <-]. apply closed_insert; [done|]. split; [|done].
        destruct (decide (N.to_nat m < length els)).
        - by apply Forall_insert.
        - by rewrite list_insert_ge by lia. }
      destruct (m =? _)%N; [|done].
      intros [= <-]. apply closed_insert; [done|]. split; [|done].
      apply Forall_app. split; [done|]. by repeat constructor.
    + destruct (String.eqb k "length"); [done|].
      intros [= <-]. apply closed_insert; [done|]. split; [done|].
      by apply props_set_ok.
Qed.

Lemma array_push_ok h x v h' :
  closed h -> val_ok (length h) v -> array_push h x v = Ok h' -> closed h'.
Proof.
  intros Hh Hv. destruct x as [| | | | |a]; try done. cbn [array_push].
  destruct (h !! a) as [[ps|els extra]|] eqn:Ha; try done.
  destruct (closed_lookup _ _ _ Hh Ha) as [Hels Hex].
  intros [= <-]. apply closed_insert; [done|]. split; [|done].
  apply Forall_app. split; [done|]. by repeat constructor.
Qed.

Lemma read_item_ok h sg mapped item :
  closed h ->
  Forall (val_ok (length h)) mapped ->
  Forall (val_ok (length h)) (read_item h sg mapped item).
Proof.
  intros Hh Hm. unfold read_item. destruct (is_nullish item); [done|].
  assert (forall v, val_ok (length h) v ->
                    Forall (val_ok (length h)) (mapped ++ [v])) as Hpush.
  { intros v Hv. apply Forall_app. split; [done|]. by repeat constructor. }
  destruct (smode sg) as [|m|].
  - apply Hpush. by apply get_prop_ok.
  - destruct (is_array h _); apply Hpush; [by apply get_index_ok | done].
  - destruct (is_array h _).
    + rewrite fold_push. apply Forall_app. split; [done|].
      by apply array_elems_ok.
    + destruct (negb _); [|done]. apply Hpush. by apply get_prop_ok.
Qed.

Lemma read_items_ok h sg items mapped :
  closed h ->
  Forall (val_ok (length h)) mapped ->
  Forall (val_ok (length h)) (fold_left (read_item h sg) items mapped).
Proof.
  intros Hh. revert mapped. induction items as [|item items IH];
    intros mapped Hm; [done|].
  cbn [fold_left]. apply IH. by apply read_item_ok.
Qed.

Lemma read_step_ok h cur sg cur' :
  closed h -> read_step h cur sg = Some cur' -> cursor_ok (length h) cur'.
Proof.
  intros Hh. destruct cur as [current|items]; cbn [read_step].
  - destruct (is_nullish current); [done|]. destruct (smode sg) as [|m|].
    + intros [= <-]. by apply get_prop_ok.
    + destruct (negb _); [done|]. intros [= <-]. by apply get_index_ok.
    + intros [= <-]. cbn. rewrite map_id. destruct (is_array h _).
      * by apply array_elems_ok.
      * destruct (is_nullish _); [constructor|].
        repeat constructor. by apply get_prop_ok.
  - intros [= <-]. cbn. apply read_items_ok; [done|constructor].
Qed.

Lemma read_segments_ok h cur segs cur' :
  closed h ->
  cursor_ok (length h) cur ->
  read_segments h cur segs = Some cur' ->
  cursor_ok (length h) cur'.
Proof.
  intros Hh. revert cur. induction segs as [|seg segs IH]; intros cur Hcur.
  { by intros [= <-]. }
  cbn [read_segments].
  destruct (read_step h cur (parseSeg seg)) as [cur1|] eqn:E; [|done].
  apply IH. by eapply read_step_ok.
Qed.

Lemma getValueByPath_ok h obj path :
  closed h ->
  val_ok (length h) obj ->
  closed (getValueByPath h obj path).1
  /\ val_ok (length (getValueByPath h obj path).1) (getValueByPath h obj path).2.
Proof.
  intros Hh Hobj. unfold getValueByPath.
  destruct (String.eqb path ""); [done|].
  destruct (read_segments h (Single obj) (Str.split "." path))
    as [[v|items]|] eqn:E; cbn [read_result alloc fst snd]; try done.
  - split; [done|]. by apply (read_segments_ok _ (Single obj) _ _ Hh Hobj E).
  - pose proof (read_segments_ok _ (Single obj) _ _ Hh Hobj E) as Hitems.
    cbn in Hitems.
    split.
    + apply closed_alloc; [done|]. split; [|constructor].
      revert Hitems. apply vals_ok_mono. lia.
    + cbn. rewrite length_app. cbn. lia.
Qed.

Lemma ensure_array_ok h current k h' :
  closed h -> ensure_array h current k = Ok h' -> closed h'.
Proof.
  intros Hh. unfold ensure_array. destruct (negb _); [|by intros [= <-]].
  cbn [alloc]. apply set_prop_ok.
  - apply closed_alloc; [done|]. split; constructor.
  - cbn. rewrite length_app. cbn. lia.
Qed.

Lemma ensure_carrier_ok h current k h' :
  closed h -> ensure_carrier h current k = Ok h' -> closed h'.
Proof.
  intros Hh. unfold ensure_carrier. destruct (_ || _); [|by intros [= <-]].
  destruct (get_prop h (VRef current) k); try done.
  cbn [alloc]. apply set_prop_ok.
  - apply closed_alloc; [done|]. constructor.
  - cbn. rewrite length_app. cbn. lia.
Qed.

Lemma ensure_object_ok h current k h' :
  closed h -> ensure_object h current k = Ok h' -> closed h'.
Proof.
  intros Hh. unfold ensure_object. destruct (_ || _); [|by intros [= <-]].
  cbn [alloc]. apply set_prop_ok.
  - apply closed_alloc; [done|]. constructor.
  - cbn. rewrite length_app. cbn. lia.
Qed.

Lemma write_segments_ok h current segments value h' :
  closed h ->
  val_ok (length h) value ->
  write_segments h current segments value = Ok h' ->
  closed h'.
Proof.
  revert h current. induction segments as [|raw rest IH];
    intros h current Hh Hv.
  { by intros [= <-]. }
  cbn [write_segments]. destruct (Str.endsWith "[]" raw).
  - intros (h1 & H1 & H)%bind_Ok.
    pose proof (ensure_array_length _ _ _ _ H1) as Hl1.
    apply ensure_array_ok in H1; [|done].
    assert (val_ok (length h1) value) as Hv1 by by eapply val_ok_mono.
    destruct rest as [|next rest].
    + destruct (is_array h1 value).
      * cbn [alloc] in H. revert H. apply set_prop_ok.
        -- apply closed_alloc; [done|]. split; [|constructor].
           eapply vals_ok_mono; [|by apply array_elems_ok]. lia.
        -- cbn. rewrite length_app. cbn. lia.
      * revert H. by apply array_push_ok.
    + apply bind_Ok in H as (h2 & H2 & H).
      pose proof (ensure_carrier_length _ _ _ _ H2) as Hl2.
      apply ensure_carrier_ok in H2; [|done].
      apply bind_Ok in H as (c & _ & H). revert H. apply IH; [done|].
      by eapply val_ok_mono.
  - destruct rest as [|next rest].
    + by apply set_prop_ok.
    + intros (h1 & H1 & H)%bind_Ok.
      pose proof (ensure_object_length _ _ _ _ H1) as Hl1.
      apply ensure_object_ok in H1; [|done].
      apply bind_Ok in H as (c & _ & H). revert H. apply IH; [done|].
      by eapply val_ok_mono.
Qed.

Lemma setValueByPath_ok h target path value h' :
  closed h ->
  val_ok (length h) value ->
  setValueByPath h target path value = Ok h' ->
  closed h'.
Proof.
  intros Hh Hv. unfold setValueByPath.
  destruct (val_eqb value VUndef); [by intros [= <-]|].
  by apply write_segments_ok.
Qed.

Lemma resolveSpec_ok h input spec :
  closed h ->
  val_ok (length h) input ->
  val_ok (length h) spec ->
  closed (resolveSpec h input spec).1
  /\ val_ok (length (resolveSpec h input spec).1) (resolveSpec h input spec).2.
Proof.
  intros Hh Hi Hs. unfold resolveSpec. destruct (_ || _); [done|].
  destruct (_ && _). { split; [done|]. by apply get_prop_ok. }
  destruct spec as [| | | |s|]; try done.
  destruct (Str.startsWith "=" s); [done|]. by apply getValueByPath_ok.
Qed.

Lemma resolve_args_ok h input rawArgs :
  closed h ->
  val_ok (length h) input ->
  Forall (val_ok (length h)) rawArgs ->
  closed (resolve_args h input rawArgs).1
  /\ Forall (val_ok (length (resolve_args h input rawArgs).1))
       (resolve_args h input rawArgs).2.
Proof.
  revert h. induction rawArgs as [|a rest IH]; intros h Hh Hi Hraw.
  { by split. }
  apply Forall_cons in Hraw as [Ha Hrest]. cbn [resolve_args].
  pose proof (resolveSpec_ok h input a Hh Hi Ha) as [Hh1 Hv].
  pose proof (resolveSpec_length h input a) as Hl1.
  destruct (resolveSpec h input a) as [h1 v]. cbn [fst snd] in *.
  destruct (IH h1 Hh1) as [Hh2 Hvs].
  { by eapply val_ok_mono. } { by eapply vals_ok_mono. }
  pose proof (resolve_args_heap_length h1 input rest) as Hl2.
  destruct (resolve_args h1 input rest) as [h2 vs]. cbn [fst snd] in *.
  split; [done|]. constructor; [|done]. by eapply val_ok_mono.
Qed.

Lemma directive_args_ok h input spec :
  closed h ->
  val_ok (length h) input ->
  closed (directive_args h input spec).1
  /\ Forall (val_ok (length (directive_args h input spec).1))
       (directive_args h input spec).2.
Proof.
  intros Hh Hi. unfold directive_args.
  destruct (hasOwnProperty h spec "$args").
  { apply resolve_args_ok; [done..|].
    destruct (is_array h _); [by apply array_elems_ok|].
    repeat constructor. by apply get_prop_ok. }
  destruct (hasOwnProperty h spec "$path"); [|by split].
  pose proof (resolveSpec_ok h input (get_prop h spec "$path") Hh Hi
                (get_prop_ok _ _ _ Hh)) as [Hh1 Hv].
  destruct (resolveSpec _ _ _) as [h1 v]. cbn [fst snd] in *.
  split; [done|]. by repeat constructor.
Qed.

Lemma transform_entry_ok registry input result h log targetPath sourceSpec h' log' :
  (forall name fn, registry name = Some fn -> closed_fn fn) ->
  closed h ->
  val_ok (length h) input ->
  val_ok (length h) sourceSpec ->
  transform_entry registry input result (h, log) (targetPath, sourceSpec)
  = Ok (h', log') ->
  closed h'.
Proof.
  intros Hreg Hh Hi Hs. unfold transform_entry.
  destruct (_ || _); [by intros [= <- _]|].
  destruct (_ && _).
  { intros (name & _ & H)%bind_Ok.
    destruct (registry name) as [fn|] eqn:Hfn; [|by injection H as <- _].
    pose proof (directive_args_ok h input sourceSpec Hh Hi) as [Hh1 Hargs].
    destruct (directive_args h input sourceSpec) as [h1 args].
    cbn [fst snd] in *.
    destruct (fn h1 args) as [out| |] eqn:Hout; [| |done].
    - destruct (negb _); [|by injection H as <- _].
      apply bind_Ok in H as (h2 & H2 & [= <- _]). revert H2.
      apply setValueByPath_ok; [done|].
      by apply (Hreg _ _ Hfn h1 args out).
    - by injection H as <- _. }
  destruct (_ && _).
  { intros (h1 & H1 & [= <- _])%bind_Ok. revert H1.
    apply setValueByPath_ok; [done|]. by apply get_prop_ok. }
  destruct sourceSpec as [| | | |s|];
    try (intros (h1 & H1 & [= <- _])%bind_Ok; revert H1;
         by apply setValueByPath_ok).
  destruct (Str.startsWith "=" s).
  { intros (h1 & H1 & [= <- _])%bind_Ok; revert H1.
    by apply setValueByPath_ok. }
  pose proof (getValueByPath_ok h input s Hh Hi) as [Hh1 Hv].
  destruct (getValueByPath h input s) as [h1 value]. cbn [fst snd] in *.
  destruct (val_eqb value VUndef); [by intros [= <- _]|].
  intros (h2 & H2 & [= <- _])%bind_Ok. revert H2.
  by apply setValueByPath_ok.
Qed.

Lemma transform_entries_ok registry input result entries st st' :
  (forall name fn, registry name = Some fn -> closed_fn fn) ->
  closed st.1 ->
  val_ok (length st.1) input ->
  Forall (fun kv => val_ok (length st.1) kv.2) entries ->
  transform_entries registry input result st entries = Ok st' ->
  closed st'.1.
Proof.
  intros Hreg. revert st. induction entries as [|[k v] rest IH];
    intros [h log] Hh Hi Hes.
  { by intros [= <-]. }
  apply Forall_cons in Hes as [Hv Hrest]. cbn [transform_entries fst snd] in *.
  intros ([h1 log1] & H1 & H)%bind_Ok.
  pose proof (transform_entry_length _ _ _ _ _ _ _ _ H1) as Hl.
  apply transform_entry_ok in H1; [|done..].
  revert H. apply IH; cbn [fst snd]; [done| |].
  - by eapply val_ok_mono.
  - revert Hrest. apply Forall_weaken. intros kv. by apply val_ok_mono.
Qed.

(** ** Skipped entries

    *** Stores that differ by cells nobody refers to *)

Section Renaming.

(** [g] is a run of cells put into the store at address [n]; what was at
    [n] or above moves up by the length of [g] *)
Variable n : nat.
Variable g : list cell.

Lemma shift_inj a b : shift n g a = shift n g b -> a = b.
Proof.
  unfold shift. destruct (Nat.ltb_spec a n), (Nat.ltb_spec b n); lia.
Qed.

Lemma length_ins h : length (ins n g h) = length h + length g.
Proof.
  unfold ins. rewrite !length_app, !length_fmap, length_take, length_drop. lia.
Qed.

Lemma shift_length h :
  n <= length h -> shift n g (length h) = length (ins n g h).
Proof.
  intros Hn. rewrite length_ins. unfold shift.
  destruct (Nat.ltb_spec (length h) n); [lia | done].
Qed.

Lemma lookup_ins h a :
  n <= length h -> ins n g h !! shift n g a = rc n g <$> (h !! a).
Proof.
  intros Hn. unfold ins, shift. destruct (Nat.ltb_spec a n) as [E|E].
  - rewrite lookup_app_l by (rewrite length_fmap, length_take; lia).
    rewrite list_lookup_fmap, lookup_take_lt by done. done.
  - rewrite lookup_app_r by (rewrite length_fmap, length_take; lia).
    rewrite length_fmap, length_take, Nat.min_l by done.
    rewrite lookup_app_r by lia.
    rewrite list_lookup_fmap, lookup_drop. do 2 f_equal. lia.
Qed.

Lemma insert_ins h a c :
  n <= length h ->
  ins n g (<[a := c]> h) = <[shift n g a := rc n g c]> (ins n g h).
Proof.
  intros Hn. unfold ins, shift. destruct (Nat.ltb_spec a n) as [E|E].
  - rewrite take_insert_lt, drop_insert_lt by lia.
    rewrite list_fmap_insert.
    rewrite insert_app_l by (rewrite length_fmap, length_take; lia).
    done.
  - rewrite take_insert_ge, drop_insert_ge by lia.
    rewrite list_fmap_insert.
    rewrite insert_app_r_alt by (rewrite length_fmap, length_take; lia).
    rewrite length_fmap, length_take, Nat.min_l by done.
    rewrite insert_app_r_alt by lia.
    do 3 f_equal. lia.
Qed.

Lemma app_ins h c :
  n <= length h -> ins n g (h ++ [c]) = ins n g h ++ [rc n g c].
Proof.
  intros Hn. unfold ins.
  rewrite take_app_le, drop_app_le by done.
  by rewrite fmap_app, <- !app_assoc.
Qed.

(** *** Values *)

Lemma rv_nullish x : is_nullish (rv n g x) = is_nullish x.
Proof. by destruct x. Qed.

Lemma rv_truthy x : truthy (rv n g x) = truthy x.
Proof. by destruct x. Qed.

Lemma rv_typeof x : typeof (rv n g x) = typeof x.
Proof. by destruct x. Qed.

Lemma rv_is_ref x : is_ref (rv n g x) = is_ref x.
Proof. by destruct x. Qed.

Lemma rv_eqb x y : val_eqb (rv n g x) (rv n g y) = val_eqb x y.
Proof.
  unfold val_eqb. apply bool_decide_ext. split; [|by intros ->].
  destruct x, y; cbn; try done. intros [= H]. by rewrite (shift_inj _ _ H).
Qed.

Lemma rv_eqb_undef x : val_eqb (rv n g x) VUndef = val_eqb x VUndef.
Proof. apply (rv_eqb x VUndef). Qed.

Lemma rv_eqb_null x : val_eqb (rv n g x) VNull = val_eqb x VNull.
Proof. apply (rv_eqb x VNull). Qed.

Lemma rv_eqb_str x s : val_eqb (rv n g x) (VStr s) = val_eqb x (VStr s).
Proof. apply (rv_eqb x (VStr s)). Qed.

Lemma rps_get k ps : props_get k (rps n g ps) = rv n g <$> props_get k ps.
Proof.
  induction ps as [|[k' v] ps IH]; [done|]. cbn [rps fmap list_fmap props_get fst snd].
  destruct (String.eqb k' k); [done|]. exact IH.
Qed.

Lemma rps_has_own k ps : has_own k (rps n g ps) = has_own k ps.
Proof. unfold has_own. rewrite rps_get. by destruct (props_get k ps). Qed.

Lemma rps_replace k v ps :
  props_replace k (rv n g v) (rps n g ps) = rps n g (props_replace k v ps).
Proof.
  induction ps as [|[k' w] ps IH]; [done|].
  cbn [rps fmap list_fmap props_replace fst snd].
  destruct (String.eqb k' k); [done|]. cbn [fmap list_fmap fst snd]. f_equal. exact IH.
Qed.

Lemma rps_insert_index m k v ps :
  props_insert_index m k (rv n g v) (rps n g ps)
  = rps n g (props_insert_index m k v ps).
Proof.
  induction ps as [|[k' w] ps IH]; [done|].
  cbn [rps fmap list_fmap props_insert_index fst snd].
  destruct (parse_index k') as [m'|]; [destruct (m' <? m)%N|]; try done.
  cbn [fmap list_fmap fst snd]. f_equal. exact IH.
Qed.

Lemma rps_set k v ps :
  props_set k (rv n g v) (rps n g ps) = rps n g (props_set k v ps).
Proof.
  unfold props_set. rewrite rps_has_own.
  destruct (has_own k ps); [apply rps_replace|].
  destruct (parse_index k); [apply rps_insert_index|].
  unfold rps. by rewrite fmap_app.
Qed.

(** *** Store operations *)

Lemma ins_get_prop h x k :
  n <= length h -> get_prop (ins n g h) (rv n g x) k = rv n g (get_prop h x k).
Proof.
  intros Hn. destruct x as [| | | | s | a]; try done.
  - cbn [rv get_prop].
    destruct (parse_index k);
      [destruct (_ <? _)%N | destruct (String.eqb _ _)]; done.
  - cbn [rv get_prop]. rewrite lookup_ins by done.
    destruct (h !! a) as [[ps|els extra]|]; cbn [fmap option_fmap option_map rc];
      [| |done].
    + rewrite rps_get. by destruct (props_get k ps).
    + destruct (parse_index k) as [m|].
      * rewrite list_lookup_fmap. by destruct (els !! N.to_nat m).
      * destruct (String.eqb k "length"); [by rewrite length_fmap|].
        rewrite rps_get. by destruct (props_get k extra).
Qed.

Lemma ins_is_array h x :
  n <= length h -> is_array (ins n g h) (rv n g x) = is_array h x.
Proof.
  intros Hn. destruct x as [| | | | | a]; try done.
  cbn [rv is_array]. rewrite lookup_ins by done.
  by destruct (h !! a) as [[|]|].
Qed.

Lemma ins_array_elems h x :
  n <= length h ->
  array_elems (ins n g h) (rv n g x) = rv n g <$> array_elems h x.
Proof.
  intros Hn. destruct x as [| | | | | a]; try done.
  cbn [rv array_elems]. rewrite lookup_ins by done.
  by destruct (h !! a) as [[|]|].
Qed.

Lemma ins_get_index h x m :
  n <= length h ->
  get_index (ins n g h) (rv n g x) m = rv n g (get_index h x m).
Proof.
  intros Hn. unfold get_index. rewrite ins_array_elems by done.
  rewrite length_fmap, list_lookup_fmap.
  destruct (m <? _)%N; [|done]. by destruct (array_elems h x !! N.to_nat m).
Qed.

Lemma ins_set_prop h a k v :
  n <= length h ->
  set_prop (ins n g h) (shift n g a) k (rv n g v)
  = ins n g <$> set_prop h a k v.
Proof.
  intros Hn. unfold set_prop. rewrite lookup_ins by done.
  destruct (h !! a) as [[ps|els extra]|]; cbn [fmap option_fmap option_map rc];
    [| |done].
  - cbn [fmap outcome_fmap]. by rewrite insert_ins, rps_set.
  - rewrite length_fmap. destruct (parse_index k) as [m|].
    + destruct (m <? _)%N.
      { cbn [fmap outcome_fmap]. rewrite insert_ins by done. cbn [rc].
        by rewrite list_fmap_insert. }
      destruct (m =? _)%N; [|done].
      cbn [fmap outcome_fmap]. rewrite insert_ins by done. cbn [rc].
      by rewrite fmap_app.
    + destruct (String.eqb k "length"); [done|].
      cbn [fmap outcome_fmap]. rewrite insert_ins by done. cbn [rc].
      by rewrite rps_set.
Qed.

Lemma ins_array_push h x v :
  n <= length h ->
  array_push (ins n g h) (rv n g x) (rv n g v) = ins n g <$> array_push h x v.
Proof.
  intros Hn. destruct x as [| | | | | a]; try done.
  cbn [rv array_push]. rewrite lookup_ins by done.
  destruct (h !! a) as [[ps|els extra]|]; cbn [fmap option_fmap option_map rc];
    try done.
  cbn [fmap outcome_fmap]. rewrite insert_ins by done. cbn [rc].
  by rewrite fmap_app.
Qed.

Lemma ins_alloc h c :
  n <= length h -> alloc (ins n g h) (rc n g c) = rst n g (alloc h c).
Proof.
  intros Hn. unfold alloc, rst. cbn [fst snd rv].
  by rewrite app_ins, shift_length.
Qed.

(** *** The reader *)

Lemma ins_read_item h sg mapped item :
  n <= length h ->
  read_item (ins n g h) sg (rv n g <$> mapped) (rv n g item)
  = rv n g <$> read_item h sg mapped item.
Proof.
  intros Hn. unfold read_item. rewrite rv_nullish.
  destruct (is_nullish item); [done|].
  rewrite ins_get_prop by done.
  destruct (smode sg) as [|m|].
  - by rewrite fmap_app.
  - rewrite ins_is_array by done.
    destruct (is_array h _); rewrite fmap_app; [|done].
    by rewrite ins_get_index.
  - rewrite ins_is_array, rv_nullish by done.
    destruct (is_array h _).
    + rewrite ins_array_elems by done. rewrite !fold_push.
      by rewrite fmap_app.
    + destruct (is_nullish _); cbn [negb]; [done|]. by rewrite fmap_app.
Qed.

Lemma ins_read_items h sg items mapped :
  n <= length h ->
  fold_left (read_item (ins n g h) sg) (rv n g <$> items) (rv n g <$> mapped)
  = rv n g <$> fold_left (read_item h sg) items mapped.
Proof.
  intros Hn. revert mapped.
  induction items as [|item items IH]; intros mapped; [done|].
  cbn [fmap list_fmap fold_left]. rewrite ins_read_item by done. apply IH.
Qed.

Lemma ins_read_step h cur sg :
  n <= length h ->
  read_step (ins n g h) (rcur n g cur) sg = rcur n g <$> read_step h cur sg.
Proof.
  intros Hn. destruct cur as [current|items]; cbn [rcur read_step].
  - rewrite rv_nullish. destruct (is_nullish current); [done|].
    rewrite ins_get_prop by done. destruct (smode sg) as [|m|].
    + done.
    + rewrite ins_is_array by done.
      destruct (is_array h _); cbn [negb]; [|done].
      by rewrite ins_get_index.
    + rewrite ins_is_array, rv_nullish, !map_id by done.
      cbn [fmap option_fmap option_map rcur]. do 2 f_equal.
      destruct (is_array h _); [by apply ins_array_elems|].
      by destruct (is_nullish _).
  - cbn [fmap option_fmap option_map rcur]. do 2 f_equal.
    by apply (ins_read_items h sg items []).
Qed.

Lemma ins_read_segments h cur segs :
  n <= length h ->
  read_segments (ins n g h) (rcur n g cur) segs
  = rcur n g <$> read_segments h cur segs.
Proof.
  intros Hn. revert cur. induction segs as [|seg segs IH]; intros cur; [done|].
  cbn [read_segments]. rewrite ins_read_step by done.
  destruct (read_step h cur (parseSeg seg)) as [cur'|]; [|done].
  cbn [fmap option_fmap option_map]. apply IH.
Qed.

Lemma ins_read_result h r :
  n <= length h ->
  read_result (ins n g h) (rcur n g <$> r) = rst n g (read_result h r).
Proof.
  intros Hn. destruct r as [[v|items]|]; try done.
  cbn [fmap option_fmap option_map rcur read_result].
  by rewrite <- ins_alloc.
Qed.

Lemma ins_getValueByPath h obj path :
  n <= length h ->
  getValueByPath (ins n g h) (rv n g obj) path
  = rst n g (getValueByPath h obj path).
Proof.
  intros Hn. unfold getValueByPath. destruct (String.eqb path ""); [done|].
  rewrite (ins_read_segments h (Single obj)) by done.
  by apply ins_read_result.
Qed.

(** *** The writer *)

Lemma ins_ensure_array h current k :
  n <= length h ->
  ensure_array (ins n g h) (shift n g current) k
  = ins n g <$> ensure_array h current k.
Proof.
  intros Hn. unfold ensure_array.
  change (VRef (shift n g current)) with (rv n g (VRef current)).
  rewrite ins_get_prop, ins_is_array by done.
  destruct (negb _); [|done].
  change (CArr [] []) with (rc n g (CArr [] [])). rewrite ins_alloc by done.
  cbn [rst alloc fst snd].
  apply (ins_set_prop (h ++ [CArr [] []]) current k (VRef (length h))).
  rewrite length_app. lia.
Qed.

Lemma ins_ensure_carrier h current k :
  n <= length h ->
  ensure_carrier (ins n g h) (shift n g current) k
  = ins n g <$> ensure_carrier h current k.
Proof.
  intros Hn. unfold ensure_carrier.
  change (VRef (shift n g current)) with (rv n g (VRef current)).
  rewrite !ins_get_prop, rv_truthy, rv_typeof by done.
  destruct (_ || _); [|done].
  destruct (get_prop h (VRef current) k) as [| | | | |arr]; try done.
  cbn [rv].
  change (CObj []) with (rc n g (CObj [])). rewrite ins_alloc by done.
  cbn [rst alloc fst snd].
  apply (ins_set_prop (h ++ [CObj []]) arr "0" (VRef (length h))).
  rewrite length_app. lia.
Qed.

Lemma ins_ensure_object h current k :
  n <= length h ->
  ensure_object (ins n g h) (shift n g current) k
  = ins n g <$> ensure_object h current k.
Proof.
  intros Hn. unfold ensure_object.
  change (VRef (shift n g current)) with (rv n g (VRef current)).
  rewrite !ins_get_prop, rv_nullish, rv_typeof by done.
  destruct (_ || _); [|done].
  change (CObj []) with (rc n g (CObj [])). rewrite ins_alloc by done.
  cbn [rst alloc fst snd].
  apply (ins_set_prop (h ++ [CObj []]) current k (VRef (length h))).
  rewrite length_app. lia.
Qed.

Lemma rv_descend x : descend (rv n g x) = shift n g <$> descend x.
Proof. by destruct x. Qed.

Lemma ins_write_segments h current segments value :
  n <= length h ->
  write_segments (ins n g h) (shift n g current) segments (rv n g value)
  = ins n g <$> write_segments h current segments value.
Proof.
  revert h current.
  induction segments as [|raw rest IH]; intros h current Hn; [done|].
  cbn [write_segments]. destruct (Str.endsWith "[]" raw).
  - rewrite ins_ensure_array, bind_fmap, fmap_bind by done.
    apply bind_ext. intros h1 H1%ensure_array_length.
    assert (n <= length h1) as Hn1 by lia.
    destruct rest as [|next rest].
    + rewrite ins_is_array by done. destruct (is_array h1 value).
      * rewrite ins_array_elems by done.
        change (CArr (rv n g <$> array_elems h1 value) [])
          with (rc n g (CArr (array_elems h1 value) [])).
        rewrite ins_alloc by done. cbn [rst alloc fst snd].
        apply (ins_set_prop (h1 ++ [_]) current _ (VRef (length h1))).
        rewrite length_app. lia.
      * change (VRef (shift n g current)) with (rv n g (VRef current)).
        rewrite ins_get_prop by done. by apply ins_array_push.
    + rewrite ins_ensure_carrier, bind_fmap, fmap_bind by done.
      apply bind_ext. intros h2 H2%ensure_carrier_length.
      assert (n <= length h2) as Hn2 by lia.
      change (VRef (shift n g current)) with (rv n g (VRef current)).
      rewrite !ins_get_prop, rv_descend, bind_fmap, fmap_bind by done.
      apply bind_ext. intros c _. by apply IH.
  - destruct rest as [|next rest].
    + by apply ins_set_prop.
    + rewrite ins_ensure_object, bind_fmap, fmap_bind by done.
      apply bind_ext. intros h1 H1%ensure_object_length.
      assert (n <= length h1) as Hn1 by lia.
      change (VRef (shift n g current)) with (rv n g (VRef current)).
      rewrite !ins_get_prop, rv_descend, bind_fmap, fmap_bind by done.
      apply bind_ext. intros c _. by apply IH.
Qed.

Lemma ins_setValueByPath h target path value :
  n <= length h ->
  setValueByPath (ins n g h) (shift n g target) path (rv n g value)
  = ins n g <$> setValueByPath h target path value.
Proof.
  intros Hn. unfold setValueByPath. rewrite rv_eqb_undef.
  destruct (val_eqb value VUndef); [done|]. by apply ins_write_segments.
Qed.

(** *** The resolver and the interpreter *)

Lemma ins_ToString h x :
  n <= length h -> ToString (ins n g h) (rv n g x) = ToString h x.
Proof.
  intros Hn. destruct x as [| | | | |a]; try done.
  cbn [rv ToString]. rewrite lookup_ins by done.
  destruct (h !! a) as [[ps|]|]; try done.
  cbn [fmap option_fmap option_map rc]. by rewrite rps_has_own.
Qed.

Lemma ins_is_plain_object h x :
  n <= length h -> is_plain_object (ins n g h) (rv n g x) = is_plain_object h x.
Proof.
  intros Hn. unfold is_plain_object.
  by rewrite rv_truthy, rv_typeof, ins_is_array.
Qed.

Lemma ins_hasOwnProperty h x k :
  n <= length h ->
  hasOwnProperty (ins n g h) (rv n g x) k = hasOwnProperty h x k.
Proof.
  intros Hn. destruct x as [| | | | |a]; try done.
  cbn [rv hasOwnProperty]. rewrite lookup_ins by done.
  destruct (h !! a) as [[ps|els extra]|]; try done;
    cbn [fmap option_fmap option_map rc].
  - apply rps_has_own.
  - by rewrite length_fmap, rps_has_own.
Qed.

Lemma ins_resolveSpec h input spec :
  n <= length h ->
  resolveSpec (ins n g h) (rv n g input) (rv n g spec)
  = rst n g (resolveSpec h input spec).
Proof.
  intros Hn. unfold resolveSpec.
  rewrite rv_nullish, rv_eqb_str, ins_is_plain_object, ins_hasOwnProperty
    by done.
  destruct (_ || _); [done|]. destruct (_ && _).
  { unfold rst. cbn [fst snd]. by rewrite ins_get_prop. }
  destruct spec as [| | | |s|]; try done. cbn [rv].
  destruct (Str.startsWith "=" s); [done|]. by apply ins_getValueByPath.
Qed.

Lemma ins_resolve_args h input rawArgs :
  n <= length h ->
  resolve_args (ins n g h) (rv n g input) (rv n g <$> rawArgs)
  = (ins n g (resolve_args h input rawArgs).1,
     rv n g <$> (resolve_args h input rawArgs).2).
Proof.
  revert h. induction rawArgs as [|a rest IH]; intros h Hn; [done|].
  cbn [fmap list_fmap resolve_args]. rewrite ins_resolveSpec by done.
  pose proof (resolveSpec_length h input a) as H1.
  destruct (resolveSpec h input a) as [h1 v]. cbn [rst fst snd] in *.
  rewrite IH by lia. by destruct (resolve_args h1 input rest).
Qed.

Lemma ins_directive_args h input spec :
  n <= length h ->
  directive_args (ins n g h) (rv n g input) (rv n g spec)
  = (ins n g (directive_args h input spec).1,
     rv n g <$> (directive_args h input spec).2).
Proof.
  intros Hn. unfold directive_args.
  rewrite !ins_hasOwnProperty, !ins_get_prop, ins_is_array by done.
  destruct (hasOwnProperty h spec "$args").
  { rewrite <- ins_resolve_args by done. f_equal.
    destruct (is_array h _); [by apply ins_array_elems|done]. }
  destruct (hasOwnProperty h spec "$path"); [|done].
  rewrite ins_resolveSpec by done. by destruct (resolveSpec _ _ _).
Qed.

Section Entries.

Variable registry : string -> option transform_fn.
Hypothesis registry_stable :
  forall name fn, registry name = Some fn -> stable_fn n g fn.

Lemma ins_transform_entry input result h log targetPath sourceSpec :
  n <= length h ->
  transform_entry registry (rv n g input) (shift n g result) (ins n g h, log)
    (targetPath, rv n g sourceSpec)
  = rstate n g <$> transform_entry registry input result (h, log)
                 (targetPath, sourceSpec).
Proof.
  intros Hn. unfold transform_entry.
  rewrite rv_eqb_str, rv_eqb_null, ins_is_plain_object,
    !ins_hasOwnProperty by done.
  destruct (_ || _); [done|]. destruct (_ && _).
  { rewrite ins_get_prop, ins_ToString, fmap_bind by done.
    apply bind_ext. intros name _.
    destruct (registry name) as [fn|] eqn:Hfn; [|done].
    rewrite ins_directive_args by done.
    pose proof (directive_args_length h input sourceSpec) as Hd.
    destruct (directive_args h input sourceSpec) as [h1 args].
    cbn [fst snd] in *.
    rewrite (registry_stable _ _ Hfn) by lia.
    destruct (fn h1 args) as [out| |]; try done.
    cbn [fmap outcome_fmap]. rewrite rv_eqb_undef.
    destruct (negb _); [|done].
    rewrite ins_setValueByPath, bind_fmap, fmap_bind by lia. done. }
  destruct (_ && _).
  { rewrite ins_get_prop, ins_setValueByPath, bind_fmap, fmap_bind by done.
    done. }
  assert (forall value,
            is_ref value = false ->
            setValueByPath (ins n g h) (shift n g result) targetPath value
            ≫= (fun h1 => Ok (h1, log))
            = rstate n g <$> setValueByPath h result targetPath value
                         ≫= (fun h1 => Ok (h1, log))) as Hprim.
  { intros value Hv.
    pose proof (ins_setValueByPath h result targetPath value Hn) as E.
    destruct value; try done; cbn [rv] in E;
      by rewrite E, bind_fmap, fmap_bind. }
  destruct sourceSpec as [| |b|z|s|a]; cbn [rv]; try by apply Hprim.
  2:{ pose proof (ins_setValueByPath h result targetPath (VRef a) Hn) as E.
      cbn [rv] in E. by rewrite E, bind_fmap, fmap_bind. }
  destruct (Str.startsWith "=" s); [by apply Hprim|].
  rewrite ins_getValueByPath by done.
  pose proof (getValueByPath_length h input s) as Hg.
  destruct (getValueByPath h input s) as [h1 value]. cbn [rst fst snd] in *.
  rewrite rv_eqb_undef. destruct (val_eqb value VUndef); [done|].
  rewrite ins_setValueByPath, bind_fmap, fmap_bind by lia. done.
Qed.

Lemma ins_transform_entries input result entries st :
  n <= length st.1 ->
  transform_entries registry (rv n g input) (shift n g result) (rstate n g st)
    ((fun kv => (kv.1, rv n g kv.2)) <$> entries)
  = rstate n g <$> transform_entries registry input result st entries.
Proof.
  revert st. induction entries as [|[k v] rest IH]; intros [h log] Hn;
    [done|].
  cbn [fmap list_fmap transform_entries fst snd].
  unfold rstate at 1. cbn [fst snd].
  rewrite ins_transform_entry, bind_fmap, fmap_bind by done.
  apply bind_ext. intros [h1 log1] H1%transform_entry_length.
  apply IH. cbn [fst snd] in *. lia.
Qed.

End Entries.

(** *** Reading a structure back *)

Lemma ins_reify depth h x :
  n <= length h -> reify depth (ins n g h) (rv n g x) = reify depth h x.
Proof.
  intros Hn. revert x. induction depth as [|d IH]; intros x.
  { by destruct x. }
  assert (forall ps,
            map (fun kv => (kv.1, reify d (ins n g h) kv.2)) (rps n g ps)
            = map (fun kv : string * val => (kv.1, reify d h kv.2)) ps)
    as Hprops.
  { induction ps as [|[k v] ps IHps]; [done|].
    cbn [rps fmap list_fmap map fst snd]. rewrite IH. f_equal. exact IHps. }
  destruct x as [| | | | |a]; try done. cbn [rv reify].
  rewrite lookup_ins by done.
  destruct (h !! a) as [[ps|els extra]|]; try done;
    cbn [fmap option_fmap option_map rc].
  - by rewrite Hprops.
  - rewrite Hprops. f_equal.
    induction els as [|e els IHels]; [done|].
    cbn [fmap list_fmap map]. rewrite IH. f_equal. exact IHels.
Qed.

End Renaming.

(** *** On a closed store the renaming changes nothing it can reach *)

Lemma rv_ok n g x : val_ok n x -> rv n g x = x.
Proof.
  destruct x as [| | | | |a]; try done. cbn. intros Ha. unfold shift.
  by destruct (Nat.ltb_spec a n); [|lia].
Qed.

Lemma rvs_ok n g xs : Forall (val_ok n) xs -> rv n g <$> xs = xs.
Proof.
  induction 1 as [|x xs Hx Hxs IH]; [done|].
  cbn [fmap list_fmap]. rewrite rv_ok by done. f_equal. exact IH.
Qed.

Lemma rps_ok n g ps : props_ok n ps -> rps n g ps = ps.
Proof.
  induction 1 as [|[k v] ps Hv Hps IH]; [done|].
  cbn [rps fmap list_fmap fst snd]. rewrite rv_ok by done. f_equal. exact IH.
Qed.

Lemma rc_ok n g c : cell_ok n c -> rc n g c = c.
Proof.
  destruct c as [ps|els extra]; cbn.
  - intros H. by rewrite rps_ok.
  - intros [H1 H2]. by rewrite rvs_ok, rps_ok.
Qed.

Lemma rcs_ok n g (cs : heap) : Forall (cell_ok n) cs -> rc n g <$> cs = cs.
Proof.
  induction 1 as [|c cs Hc Hcs IH]; [done|].
  cbn [fmap list_fmap]. rewrite rc_ok by done. f_equal. exact IH.
Qed.

Lemma ins_closed g h : closed h -> ins (length h) g h = h ++ g.
Proof.
  intros Hh. unfold ins. rewrite firstn_all, drop_all.
  cbn [fmap list_fmap]. rewrite app_nil_r. f_equal. by apply rcs_ok.
Qed.

Lemma entries_ok_fmap n g (entries : list (string * val)) :
  Forall (fun kv => val_ok n kv.2) entries ->
  (fun kv => (kv.1, rv n g kv.2)) <$> entries = entries.
Proof. apply rps_ok. Qed.

(** *** What a skipped entry does *)

Lemma getValueByPath_extends h obj path :
  exists cells, (getValueByPath h obj path).1 = h ++ cells.
Proof.
  unfold getValueByPath. destruct (String.eqb path "").
  { exists []. by rewrite app_nil_r. }
  destruct (read_segments _ _ _) as [[v|items]|]; cbn [read_result alloc fst];
    eauto; exists []; by rewrite app_nil_r.
Qed.

Lemma resolveSpec_extends h input spec :
  exists cells, (resolveSpec h input spec).1 = h ++ cells.
Proof.
  assert (exists cells : heap, h = h ++ cells) as Hnil
    by (exists []; by rewrite app_nil_r).
  unfold resolveSpec. destruct (_ || _); [done|]. destruct (_ && _); [done|].
  destruct spec; try done. destruct (Str.startsWith "=" s); [done|].
  apply getValueByPath_extends.
Qed.

Lemma resolve_args_extends h input rawArgs :
  exists cells, (resolve_args h input rawArgs).1 = h ++ cells.
Proof.
  revert h. induction rawArgs as [|a rest IH]; intros h.
  { exists []. by rewrite app_nil_r. }
  cbn [resolve_args]. destruct (resolveSpec_extends h input a) as [c1 H1].
  destruct (resolveSpec h input a) as [h1 v]. cbn [fst] in H1. subst h1.
  destruct (IH (h ++ c1)) as [c2 H2].
  destruct (resolve_args (h ++ c1) input rest) as [h2 vs]. cbn [fst] in *.
  exists (c1 ++ c2). by rewrite app_assoc.
Qed.

Lemma directive_args_extends h input spec :
  exists cells, (directive_args h input spec).1 = h ++ cells.
Proof.
  unfold directive_args. destruct (hasOwnProperty h spec "$args").
  { apply resolve_args_extends. }
  destruct (hasOwnProperty h spec "$path").
  - destruct (resolveSpec_extends h input (get_prop h spec "$path")) as [c H].
    destruct (resolveSpec _ _ _). eauto.
  - exists []. by rewrite app_nil_r.
Qed.


(** *** The diagnostics do not steer the interpreter *)

Lemma transform_entry_log registry input result h l log entry :
  transform_entry registry input result (h, l ++ log) entry
  = with_log l <$> transform_entry registry input result (h, log) entry.
Proof.
  destruct entry as [targetPath sourceSpec]. unfold transform_entry.
  assert (forall m : outcome heap,
            m ≫= (fun h1 => Ok (h1, l ++ log))
            = with_log l <$> (m ≫= (fun h1 => Ok (h1, log)))) as Hset
    by (by intros [| |]).
  destruct (_ || _); [done|]. destruct (_ && _).
  { rewrite fmap_bind. apply bind_ext. intros name _.
    destruct (registry name) as [fn|].
    - destruct (directive_args h input sourceSpec) as [h1 args].
      destruct (fn h1 args) as [out| |]; try done.
      + destruct (negb _); [apply Hset | done].
      + unfold with_log. cbn. by rewrite app_assoc.
    - unfold with_log. cbn. by rewrite app_assoc. }
  destruct (_ && _); [apply Hset|].
  destruct sourceSpec; try apply Hset.
  destruct (Str.startsWith "=" s); [apply Hset|].
  destruct (getValueByPath h input s) as [h1 value].
  destruct (val_eqb value VUndef); [done | apply Hset].
Qed.

Lemma transform_entries_log registry input result entries h l log :
  transform_entries registry input result (h, l ++ log) entries
  = with_log l <$> transform_entries registry input result (h, log) entries.
Proof.
  revert h log. induction entries as [|entry rest IH]; intros h log; [done|].
  cbn [transform_entries]. rewrite transform_entry_log, bind_fmap, fmap_bind.
  apply bind_ext. intros [h1 log1] _. apply IH.
Qed.

Lemma transform_entries_app registry input result st l1 l2 :
  transform_entries registry input result st (l1 ++ l2)
  = transform_entries registry input result st l1
    ≫= (fun st1 => transform_entries registry input result st1 l2).
Proof.
  revert st. induction l1 as [|entry l1 IH]; intros st; [done|].
  cbn [app transform_entries].
  destruct (transform_entry registry input result st entry) as [st1| |];
    try done. apply IH.
Qed.

Lemma object_entries_alloc h c x :
  val_ok (length h) x -> object_entries (h ++ [c]) x = object_entries h x.
Proof.
  destruct x as [| | | | |a]; try done. cbn [val_ok object_entries].
  intros Ha. by rewrite lookup_alloc_old.
Qed.

Lemma object_entries_ok h x entries :
  closed h ->
  object_entries h x = Ok entries ->
  Forall (fun kv => val_ok (length h) kv.2) entries.
Proof.
  intros Hh. destruct x as [| | | |s|a]; try done; cbn [object_entries].
  - intros [= <-]. constructor.
  - intros [= <-]. constructor.
  - intros [= <-]. apply Forall_forall. intros [k v].
    intros (i & c & -> & _)%elem_of_lookup_imap_1. done.
  - destruct (h !! a) as [[ps|els extra]|] eqn:Ha; [| |done];
      pose proof (closed_lookup _ _ _ Hh Ha) as Hc; cbn in Hc;
      intros [= <-]; [done|].
    destruct Hc as [Hels Hex]. apply Forall_app. split; [|done].
    apply Forall_forall. intros [k v].
    intros (i & e & -> & He)%elem_of_lookup_imap_1. cbn.
    by apply (Forall_lookup_1 _ _ _ _ Hels He).
Qed.

(** *** The theorem *)


(** *** The exported registry is well behaved *)

Lemma countryFromISO_primitive displayNames h code out :
  countryFromISO displayNames h code = Ok out -> is_ref out = false.
Proof.
  unfold countryFromISO. destruct (_ || _); [by intros [= <-]|].
  destruct (ToString h code) as [s| |]; [|done..]. cbn [mbind outcome_bind].
  destruct (displayNames _) as [name| |];
    [destruct (_ && _)|..];
    try destruct (table_get _ fallback); by intros [= <-].
Qed.

Lemma ins_countryFromISO n g displayNames h code :
  n <= length h ->
  countryFromISO displayNames (ins n g h) (rv n g code)
  = rv n g <$> countryFromISO displayNames h code.
Proof.
  intros Hn. unfold countryFromISO.
  rewrite rv_nullish, rv_eqb_str, ins_ToString by done.
  destruct (_ || _); [done|].
  destruct (ToString h code) as [s| |]; [|done..]. cbn [mbind outcome_bind].
  destruct (displayNames _) as [name| |];
    [destruct (_ && _)|..];
    try destruct (table_get _ fallback); done.
Qed.

Lemma nth_0_rv n g args :
  nth 0 (rv n g <$> args) VUndef = rv n g (nth 0 args VUndef).
Proof. by destruct args. Qed.

Lemma inherited_function_well_behaved name fn :
  inherited_function name = Some fn -> well_behaved fn.
Proof.
  unfold inherited_function.
  destruct (String.eqb name "toString");
    [|destruct (String.eqb name "isPrototypeOf"); [|destruct (_ || _)]];
    [| | |done]; intros [= <-]; split.
  - by intros h args out _ _ [= <-].
  - by intros n g h args Hn.
  - intros h args out _ _. by destruct (nth 0 args VUndef); intros [= <-].
  - intros n g h args Hn. rewrite nth_0_rv.
    by destruct (nth 0 args VUndef).
  - by intros h args out _ _.
  - by intros n g h args Hn.
Qed.

Lemma transforms_well_behaved displayNames name fn :
  transforms displayNames name = Some fn -> well_behaved fn.
Proof.
  unfold transforms.
  destruct (String.eqb name "countryFromISO");
    [|apply inherited_function_well_behaved].
  intros [= <-]. split.
  - intros h args out _ _ Hout. apply countryFromISO_primitive in Hout.
    by destruct out.
  - intros n g h args Hn. rewrite nth_0_rv. by apply ins_countryFromISO.
Qed.


(** the three runs, read back: the same record each time, and the warning
    of the skipped entry *)
Example skipped_runs :
  (fun r => '(st, out) ← r; Ok (reify 8 st.1 out, st.2))
    <$> [transform Skipped.registry (Skipped.store, []) Skipped.input
           Skipped.raising;
         transform Skipped.registry (Skipped.store, []) Skipped.input
           Skipped.unknown;
         transform Skipped.registry (Skipped.store, []) Skipped.input
           Skipped.without]
  = [Ok (TObj [("id", TStr "7"); ("items", TArr [TNum 1; TNum 2] [])],
         [TransformFailed "countryFromISO"
            "Cannot convert object to primitive value"]);
     Ok (TObj [("id", TStr "7"); ("items", TArr [TNum 1; TNum 2] [])],
         [UnknownTransform "nope"]);
     Ok (TObj [("id", TStr "7"); ("items", TArr [TNum 1; TNum 2] [])],
         [])].
Proof. by vm_compute. Qed.


(** ** C6: names that the registry inherits *)

(** C6 fails on the code.  The interpreter looks the name of a directive
    up with [transforms[fnName]] and takes whatever function it finds, and
    [transforms] is an object literal: it inherits the methods of
    [Object.prototype].  A directive that names [toString] or
    [isPrototypeOf], neither of them a registered transform, is therefore
    not skipped: the inherited function is called (with [this] undefined
    and no arguments), its result is written at the target path, and no
    warning is given.  A name found nowhere is skipped with its warning,
    and the record is then the one of the mapping without the entry. *)
Theorem inherited_functions_pass_for_transforms
  (displayNames : string -> region_lookup) :
  let input := TObj [("id", TStr "7")] in
  let with_entry (name : string) :=
    TObj [("id", TStr "id"); ("kind", TObj [("$transform", TStr name)])] in
  let without_entry := TObj [("id", TStr "id")] in
  transform_json (transforms displayNames) input (with_entry "toString")
  = Ok (TObj [("id", TStr "7"); ("kind", TStr "[object Undefined]")], [])
  /\ transform_json (transforms displayNames) input
       (with_entry "isPrototypeOf")
     = Ok (TObj [("id", TStr "7"); ("kind", TBool false)], [])
  /\ transform_json (transforms displayNames) input (with_entry "nope")
     = Ok (TObj [("id", TStr "7")], [UnknownTransform "nope"])
  /\ transform_json (transforms displayNames) input without_entry
     = Ok (TObj [("id", TStr "7")], []).
Proof. by vm_compute. Qed.


(** * Further properties

    What the code shows beyond the statements of the specification: the
    path grammar, the reader, the writer, and the interpreter on some kinds
    of mapping. *)

(** ** The path grammar *)

Lemma span_key_rest s :
  (span_key s).2 = "" \/ exists r, (span_key s).2 = String "[" r.
Proof.
  induction s as [|c s IH]; [by left|]. cbn [span_key].
  destruct (Ascii.eqb_spec c "[") as [->|Hc]; [right; by eexists|].
  destruct (span_key s) as [k r]. exact IH.
Qed.

Lemma span_key_key s : bracket_free (span_key s).1 = true.
Proof.
  induction s as [|c s IH]; [done|]. cbn [span_key].
  destruct (Ascii.eqb c "[") eqn:Hc; [done|].
  destruct (span_key s) as [k r]. cbn [fst] in *.
  unfold bracket_free in *. cbn [string_forall]. by rewrite Hc, IH.
Qed.

Lemma digits_then_close_inv r ds :
  digits_then_close r = Some ds ->
  r = ds +:+ "]" /\ Str.all_digits ds = true.
Proof.
  revert ds. induction r as [|c r IH]; intros ds; [done|].
  cbn [digits_then_close].
  destruct (Ascii.eqb_spec c "]") as [->|Hc]; cbn [andb].
  - destruct (String.eqb_spec r "") as [->|Hr].
    + by intros [= <-].
    + done.
  - destruct (Str.is_digit c) eqn:Hd; [|done].
    destruct (digits_then_close r) as [ds'|]; [|done].
    intros [= <-]. destruct (IH ds' eq_refl) as [-> Hds].
    split; [done|]. cbn [Str.all_digits]. by rewrite Hd, Hds.
Qed.

Lemma is_digit_not_close c : Str.is_digit c = true -> Ascii.eqb c "]" = false.
Proof.
  intros Hd. destruct (Ascii.eqb_spec c "]") as [->|]; [|done].
  by vm_compute in Hd.
Qed.

Lemma digits_then_close_digits ds :
  Str.all_digits ds = true -> digits_then_close (ds +:+ "]") = Some ds.
Proof.
  induction ds as [|c ds IH]; [done|]. cbn [Str.all_digits].
  intros [Hc Hds]%andb_true_iff. rewrite append_cons.
  cbn [digits_then_close]. rewrite (is_digit_not_close _ Hc). cbn [andb].
  by rewrite Hc, (IH Hds).
Qed.

Lemma eqb_empty_false (s : string) : s <> "" -> String.eqb s "" = false.
Proof. intros H. by apply String.eqb_neq. Qed.

Lemma parseSeg_shape seg :
  match smode (parseSeg seg) with
  | prop => key (parseSeg seg) = seg
  | wildcard =>
      seg = key (parseSeg seg) +:+ "[]"
      /\ key (parseSeg seg) <> ""
      /\ bracket_free (key (parseSeg seg)) = true
  | index n =>
      exists ds,
        seg = key (parseSeg seg) +:+ String "[" (ds +:+ "]")
        /\ key (parseSeg seg) <> ""
        /\ bracket_free (key (parseSeg seg)) = true
        /\ ds <> "" /\ Str.all_digits ds = true
        /\ n = Str.digits_value 0 ds
  end.
Proof.
  unfold parseSeg. pose proof (span_key_app seg) as Happ.
  pose proof (span_key_rest seg) as Hrest.
  pose proof (span_key_key seg) as Hkey.
  destruct (span_key seg) as [k rest]. cbn [fst snd] in *.
  destruct (String.eqb_spec k "") as [->|Hk]; [done|].
  destruct rest as [|c r]; [cbn; by rewrite <- Happ, append_nil_r|].
  destruct Hrest as [|[r' [= -> ->]]]; [done|].
  destruct (digits_then_close r') as [ds|] eqn:Hds; [|done].
  apply digits_then_close_inv in Hds as [-> Hdigits].
  destruct (String.eqb_spec ds "") as [->|Hne]; cbn [smode key].
  - by rewrite <- Happ.
  - exists ds. by rewrite <- Happ.
Qed.

Lemma parseSeg_bracket_free seg :
  bracket_free seg = true -> parseSeg seg = Segment seg prop.
Proof.
  intros H. unfold parseSeg. rewrite (span_key_bracket_free _ H).
  by destruct (String.eqb seg "").
Qed.

Lemma parseSeg_wildcard_form k :
  k <> "" -> bracket_free k = true -> parseSeg (k +:+ "[]") = Segment k wildcard.
Proof.
  intros Hne Hk. unfold parseSeg. rewrite (span_key_bracket _ _ Hk).
  by rewrite (eqb_empty_false _ Hne).
Qed.

Lemma parseSeg_index_form k ds :
  k <> "" -> bracket_free k = true ->
  ds <> "" -> Str.all_digits ds = true ->
  parseSeg (k +:+ String "[" (ds +:+ "]"))
  = Segment k (index (Str.digits_value 0 ds)).
Proof.
  intros Hne Hk Hds Hdigits. unfold parseSeg.
  rewrite (span_key_bracket _ _ Hk), (eqb_empty_false _ Hne).
  by rewrite (digits_then_close_digits _ Hdigits), (eqb_empty_false _ Hds).
Qed.

(** X1. The path grammar of the reader.  Whatever [parseSeg] is given, it
    answers.  A segment is taken as [key[]] exactly when it is a key that is
    not empty and has no opening bracket, followed by an empty bracket pair;
    as [key[n]] exactly when such a key is followed by one or more digits in
    brackets, the index being the number the digits denote (leading zeros
    allowed); and in every other case as a plain property whose name is the
    whole segment, brackets included. *)
Theorem parseSeg_grammar :
  (forall seg,
     match smode (parseSeg seg) with
     | prop => key (parseSeg seg) = seg
     | wildcard =>
         seg = key (parseSeg seg) +:+ "[]"
         /\ key (parseSeg seg) <> ""
         /\ bracket_free (key (parseSeg seg)) = true
     | index n =>
         exists ds,
           seg = key (parseSeg seg) +:+ String "[" (ds +:+ "]")
           /\ key (parseSeg seg) <> ""
           /\ bracket_free (key (parseSeg seg)) = true
           /\ ds <> "" /\ Str.all_digits ds = true
           /\ n = Str.digits_value 0 ds
     end)
  /\ (forall k,
        k <> "" -> bracket_free k = true ->
        parseSeg (k +:+ "[]") = Segment k wildcard)
  /\ (forall k ds,
        k <> "" -> bracket_free k = true ->
        ds <> "" -> Str.all_digits ds = true ->
        parseSeg (k +:+ String "[" (ds +:+ "]"))
        = Segment k (index (Str.digits_value 0 ds))).
Proof.
  split; [exact parseSeg_shape|]. split.
  - exact parseSeg_wildcard_form.
  - exact parseSeg_index_form.
Qed.

Lemma parseSeg_grammar_witness :
  parseSeg "list[]" = Segment "list" wildcard
  /\ parseSeg "list[007]" = Segment "list" (index 7).
Proof.
  destruct parseSeg_grammar as (_ & Hw & Hi). split.
  - apply (Hw "list"); [discriminate | reflexivity].
  - apply (Hi "list" "007"); [discriminate | reflexivity | discriminate | reflexivity].
Defined.

(** ** Where the reader and the writer agree on a segment *)

Lemma endsWith_app k : Str.endsWith "[]" (k +:+ "[]") = true.
Proof.
  induction k as [|c k IH]; [done|]. rewrite append_cons.
  cbn [Str.endsWith]. rewrite IH. apply orb_true_r.
Qed.

Lemma length_append (s t : string) :
  String.length (s +:+ t) = String.length s + String.length t.
Proof.
  induction s as [|c s IH]; [done|]. rewrite append_cons. cbn. by rewrite IH.
Qed.

Lemma substring_prefix (s t : string) :
  String.substring 0 (String.length s) (s +:+ t) = s.
Proof.
  induction s as [|c s IH].
  - rewrite append_nil. cbn. by destruct t.
  - rewrite append_cons. cbn. by rewrite IH.
Qed.

Lemma slice_app k : Str.slice_0_m2 (k +:+ "[]") = k.
Proof.
  unfold Str.slice_0_m2. rewrite length_append. cbn [String.length].
  replace (String.length k + 2 - 2) with (String.length k) by lia.
  apply substring_prefix.
Qed.

Lemma endsWith_inv seg :
  Str.endsWith "[]" seg = true -> seg = Str.slice_0_m2 seg +:+ "[]".
Proof.
  assert (Str.endsWith "[]" seg = true -> exists k, seg = k +:+ "[]") as Hex.
  { induction seg as [|c s IH]; [done|]. cbn [Str.endsWith].
    intros [H|H]%orb_true_iff.
    - apply String.eqb_eq in H. exists "". by rewrite H.
    - destruct (IH H) as [k ->]. by exists (String c k). }
  intros H. destruct (Hex H) as [k ->]. by rewrite slice_app.
Qed.

Lemma endsWith_digit_close k ds :
  ds <> "" -> Str.all_digits ds = true ->
  Str.endsWith "[]" (k +:+ String "[" (ds +:+ "]")) = false.
Proof.
  intros Hne Hds.
  assert (forall t, Str.all_digits t = true -> Str.endsWith "[]" (t +:+ "]") = false)
    as Htail.
  { induction t as [|c t IH]; [done|]. cbn [Str.all_digits].
    intros [Hc Ht]%andb_true_iff. rewrite append_cons. cbn [Str.endsWith].
    rewrite (IH Ht), orb_false_r.
    destruct (String.eqb_spec (String c (t +:+ "]")) "[]") as [E|]; [|done].
    injection E as -> _. by vm_compute in Hc. }
  assert (Str.endsWith "[]" (String "[" (ds +:+ "]")) = false) as Hopen.
  { cbn [Str.endsWith]. rewrite (Htail _ Hds), orb_false_r.
    destruct ds as [|c ds]; [done|]. cbn [Str.all_digits] in Hds.
    apply andb_true_iff in Hds as [Hc _]. rewrite append_cons.
    destruct (String.eqb_spec (String "[" (String c (ds +:+ "]"))) "[]")
      as [E|]; [|done].
    injection E as -> _. by vm_compute in Hc. }
  induction k as [|c k IH]; [by rewrite append_nil|].
  rewrite append_cons. cbn [Str.endsWith]. rewrite IH, orb_false_r.
  destruct (String.eqb_spec (String c (k +:+ String "[" (ds +:+ "]"))) "[]")
    as [E|]; [|done].
  injection E as -> E. destruct k as [|c' k]; [|destruct k; done].
  rewrite append_nil in E. injection E as _ E. by destruct ds.
Qed.

(** X2. Where the reader and the writer agree on a segment.  A segment
    that the reader takes as a wildcard [key[]] is an array-marked segment
    for the writer, with the same key.  A segment that the reader takes as
    an index [key[n]] is not array-marked for the writer, which uses the
    whole segment as a property name.  And an array-marked segment whose key
    is not empty and has no opening bracket is a wildcard with that key for
    the reader. *)
Theorem reader_and_writer_segments seg :
  (smode (parseSeg seg) = wildcard ->
   Str.endsWith "[]" seg = true /\ Str.slice_0_m2 seg = key (parseSeg seg))
  /\ (forall n, smode (parseSeg seg) = index n ->
                Str.endsWith "[]" seg = false)
  /\ (Str.endsWith "[]" seg = true ->
      Str.slice_0_m2 seg <> "" -> bracket_free (Str.slice_0_m2 seg) = true ->
      parseSeg seg = Segment (Str.slice_0_m2 seg) wildcard).
Proof.
  pose proof (parseSeg_shape seg) as Hshape. split; [|split].
  - intros Hw. rewrite Hw in Hshape. destruct Hshape as (Hseg & _ & _).
    rewrite Hseg at 1 2. by rewrite endsWith_app, slice_app.
  - intros n Hn. rewrite Hn in Hshape.
    destruct Hshape as (ds & Hseg & _ & _ & Hne & Hds & _).
    rewrite Hseg. by apply endsWith_digit_close.
  - intros Hends Hne Hfree. rewrite (endsWith_inv _ Hends) at 1.
    by apply parseSeg_wildcard_form.
Qed.

Lemma reader_and_writer_segments_witness :
  (Str.endsWith "[]" "emails[]" = true /\ Str.slice_0_m2 "emails[]" = "emails")
  /\ Str.endsWith "[]" "list[0]" = false
  /\ parseSeg "emails[]" = Segment "emails" wildcard.
Proof.
  split; [|split].
  - apply (proj1 (reader_and_writer_segments "emails[]")). reflexivity.
  - apply (proj1 (proj2 (reader_and_writer_segments "list[0]")) 0%N).
    reflexivity.
  - apply (proj2 (proj2 (reader_and_writer_segments "emails[]")));
      [reflexivity | discriminate | reflexivity].
Defined.

(** ** The shape of what the reader returns *)

Lemma read_segments_flow h segments items :
  exists items', read_segments h (Flow items) segments = Some (Flow items').
Proof.
  revert items. induction segments as [|seg rest IH]; intros items.
  - by exists items.
  - cbn [read_segments read_step]. apply IH.
Qed.

Lemma read_segments_nullish h v segments :
  is_nullish v = true -> segments <> [] ->
  read_segments h (Single v) segments = None.
Proof.
  intros Hv. destruct segments as [|seg rest]; [done|]. intros _.
  cbn [read_segments read_step]. by rewrite Hv.
Qed.

Lemma read_segments_single h v segments :
  existsb (fun seg => is_wildcard (parseSeg seg)) segments = false ->
  read_segments h (Single v) segments = None
  \/ exists v', read_segments h (Single v) segments = Some (Single v').
Proof.
  revert v. induction segments as [|seg rest IH]; intros v; cbn [existsb].
  - intros _. right. by exists v.
  - intros [Hseg Hrest]%orb_false_iff. cbn [read_segments].
    unfold read_step, is_wildcard in *.
    destruct (is_nullish v); [by left|].
    destruct (smode (parseSeg seg)) as [|n|]; [by apply IH| |done].
    destruct (negb _); [by left | by apply IH].
Qed.

Lemma read_segments_wildcard h v segments :
  existsb (fun seg => is_wildcard (parseSeg seg)) segments = true ->
  read_segments h (Single v) segments = None
  \/ exists items, read_segments h (Single v) segments = Some (Flow items).
Proof.
  revert v. induction segments as [|seg rest IH]; intros v; cbn [existsb];
    [done|].
  intros Hex. cbn [read_segments]. unfold read_step, is_wildcard in *.
  destruct (is_nullish v); [by left|].
  destruct (smode (parseSeg seg)) as [|n|]; cbn [orb] in Hex.
  - by apply IH.
  - destruct (negb _); [by left | by apply IH].
  - right. apply read_segments_flow.
Qed.

Lemma found_element h root x v :
  found_in h root x -> is_array h x = true -> v ∈ array_elems h x ->
  found_in h root v.
Proof.
  intros Hx Harr [i Hi]%list_elem_of_lookup_1.
  assert (v = get_index h x (N.of_nat i)) as ->; [|by apply found_index].
  unfold get_index. pose proof (lookup_lt_Some _ _ _ Hi) as Hlt.
  destruct (N.ltb_spec (N.of_nat i) (N.of_nat (length (array_elems h x))));
    [|lia].
  by rewrite Nat2N.id, Hi.
Qed.

Lemma found_nullish h root v :
  found_or_undefined h root v -> is_nullish v = false -> found_in h root v.
Proof. by intros [->|H]. Qed.

Lemma read_item_found h root sg mapped item :
  Forall (found_or_undefined h root) mapped ->
  found_or_undefined h root item ->
  Forall (found_or_undefined h root) (read_item h sg mapped item).
Proof.
  intros Hm Hi. unfold read_item.
  destruct (is_nullish item) eqn:Hn; [done|].
  pose proof (found_nullish _ _ _ Hi Hn) as Hitem.
  pose proof (found_prop h root item (key sg) Hitem) as Hval.
  destruct (smode sg) as [|n|].
  - apply Forall_app. split; [done|]. constructor; [by right|done].
  - destruct (is_array h _) eqn:Harr; apply Forall_app; (split; [done|]);
      (constructor; [|done]); [right|by left].
    by apply found_index.
  - destruct (is_array h _) eqn:Harr.
    + rewrite fold_push. apply Forall_app. split; [done|].
      apply Forall_forall. intros v Hv. right.
      by apply (found_element h root _ v Hval Harr).
    + destruct (is_nullish (get_prop h item (key sg))); cbn [negb]; [done|].
      apply Forall_app. split; [done|]. constructor; [by right|done].
Qed.

Lemma read_items_found h root sg items mapped :
  Forall (found_or_undefined h root) mapped ->
  Forall (found_or_undefined h root) items ->
  Forall (found_or_undefined h root) (fold_left (read_item h sg) items mapped).
Proof.
  intros Hm Hi. revert mapped Hm.
  induction Hi as [|item items Hitem _ IH]; intros mapped Hm; [done|].
  cbn [fold_left]. apply IH. by apply read_item_found.
Qed.

Lemma read_step_found h root cur sg cur' :
  cursor_found h root cur ->
  read_step h cur sg = Some cur' -> cursor_found h root cur'.
Proof.
  destruct cur as [current|items]; cbn [cursor_found read_step]; intros Hc.
  - destruct (is_nullish current) eqn:Hn; [done|].
    pose proof (found_nullish _ _ _ Hc Hn) as Hcur.
    pose proof (found_prop h root current (key sg) Hcur) as Hval.
    destruct (smode sg) as [|n|].
    + intros [= <-]. by right.
    + destruct (is_array h _) eqn:Harr; [|done]. intros [= <-]. right.
      by apply found_index.
    + intros [= <-]. cbn [cursor_found]. rewrite map_id.
      destruct (is_array h _) eqn:Harr.
      * apply Forall_forall. intros v Hv. right.
        by apply (found_element h root _ v Hval Harr).
      * destruct (is_nullish (get_prop h current (key sg))); [done|].
        constructor; [by right|done].
  - intros [= <-]. by apply read_items_found.
Qed.

Lemma read_segments_found h root segments cur cur' :
  cursor_found h root cur ->
  read_segments h cur segments = Some cur' -> cursor_found h root cur'.
Proof.
  revert cur. induction segments as [|seg rest IH]; intros cur Hc;
    cbn [read_segments]; [by intros [= <-]|].
  destruct (read_step h cur (parseSeg seg)) as [cur1|] eqn:Hstep; [|done].
  apply IH. by apply (read_step_found _ _ _ _ _ Hc Hstep).
Qed.

(** X3. What [getValueByPath] can return.  Whatever it returns for a path
    without a wildcard segment, the store is left as it is and nothing is
    copied: the result is undefined, or a value that property reads and
    index reads come upon when they start from the input.  Whatever it
    returns for a path with a wildcard segment is undefined, with the store
    as it was, or a freshly allocated array, never a value of the input
    itself, and every element of that array is undefined or such a value.
    Once the read is in the array flow it stays there: whatever segments
    follow, the result is a fresh array of that kind. *)
Theorem reader_result_shape :
  (forall h obj path h' v,
     has_wildcard path = false ->
     getValueByPath h obj path = (h', v) ->
     h' = h /\ found_or_undefined h obj v)
  /\ (forall h obj path h' v,
        has_wildcard path = true ->
        getValueByPath h obj path = (h', v) ->
        (h' = h /\ v = VUndef)
        \/ exists items,
             h' = h ++ [CArr items []] /\ v = VRef (length h)
             /\ Forall (found_or_undefined h obj) items)
  /\ (forall h obj p q items h' v,
        read_segments h (Single obj) (Str.split "." p) = Some (Flow items) ->
        getValueByPath h obj (p +:+ String "." q) = (h', v) ->
        exists items',
          h' = h ++ [CArr items' []] /\ v = VRef (length h)
          /\ Forall (found_or_undefined h obj) items').
Proof.
  assert (forall h obj, cursor_found h obj (Single obj)) as Hroot
    by (intros h obj; right; constructor).
  split; [|split].
  - intros h obj path h' v Hw. unfold getValueByPath.
    destruct (String.eqb path ""); [intros [= <- <-]; by split; [|left]|].
    destruct (read_segments_single h obj _ Hw) as [->|[v' Hv]].
    + intros [= <- <-]. by split; [|left].
    + rewrite Hv. intros [= <- <-]. split; [done|].
      apply (read_segments_found _ _ _ _ (Single v') (Hroot h obj) Hv).
  - intros h obj path h' v Hw. unfold getValueByPath.
    destruct (String.eqb path ""); [intros [= <- <-]; by left|].
    destruct (read_segments_wildcard h obj _ Hw) as [->|[items Hi]];
      [intros [= <- <-]; by left|].
    rewrite Hi. intros [= <- <-]. right. exists items. repeat split.
    apply (read_segments_found _ _ _ _ (Flow items) (Hroot h obj) Hi).
  - intros h obj p q items h' v Hp. unfold getValueByPath.
    rewrite append_not_empty, split_app, read_segments_app, Hp.
    destruct (read_segments_flow h (Str.split "." q) items) as [items' Hq].
    rewrite Hq. intros [= <- <-]. exists items'. repeat split.
    apply (read_segments_found h obj (Str.split "." q) (Flow items)
             (Flow items')); [|done].
    apply (read_segments_found _ _ _ _ (Flow items) (Hroot h obj) Hp).
Qed.

Lemma reader_result_shape_witness :
  found_or_undefined [CObj [("a", VNum 1)]] (VRef 0) (VNum 1)
  /\ (exists items,
        [CObj [("a", VNum 1)]; CArr [VNum 1] []]
        = [CObj [("a", VNum 1)]] ++ [CArr items []]
        /\ Forall (found_or_undefined [CObj [("a", VNum 1)]] (VRef 0)) items)
  /\ (exists items',
        [CObj [("a", VNum 1)]; CArr [VUndef] []]
        = [CObj [("a", VNum 1)]] ++ [CArr items' []]
        /\ Forall (found_or_undefined [CObj [("a", VNum 1)]] (VRef 0))
             items').
Proof.
  destruct reader_result_shape as (Hplain & Hwild & Hflow). split; [|split].
  - apply (Hplain [CObj [("a", VNum 1)]] (VRef 0) "a"
             [CObj [("a", VNum 1)]] (VNum 1)); reflexivity.
  - destruct (Hwild [CObj [("a", VNum 1)]] (VRef 0) "a[]"
                [CObj [("a", VNum 1)]; CArr [VNum 1] []] (VRef 1))
      as [[H _]|(items & H & _ & Hitems)]; [reflexivity | reflexivity | |].
    + discriminate H.
    + by exists items.
  - destruct (Hflow [CObj [("a", VNum 1)]] (VRef 0) "a[]" "b[0]" [VNum 1]
                [CObj [("a", VNum 1)]; CArr [VUndef] []] (VRef 1))
      as (items' & H & _ & Hitems); [reflexivity | reflexivity |].
    by exists items'.
Defined.

(** ** Segments met in the array flow *)

Lemma read_items_prop h k items acc :
  fold_left (read_item h (Segment k prop)) items acc
  = acc ++ map (fun item => get_prop h item k)
             (List.filter (fun item => negb (is_nullish item)) items).
Proof.
  revert acc. induction items as [|item items IH]; intros acc;
    cbn [fold_left List.filter].
  - by rewrite app_nil_r.
  - rewrite IH. unfold read_item. cbn [key smode].
    destruct (is_nullish item); cbn [negb map]; [done|].
    by rewrite <- app_assoc.
Qed.

Lemma read_items_index h k n items acc :
  fold_left (read_item h (Segment k (index n))) items acc
  = acc ++ map (fun item =>
                  if is_array h (get_prop h item k)
                  then get_index h (get_prop h item k) n else VUndef)
             (List.filter (fun item => negb (is_nullish item)) items).
Proof.
  revert acc. induction items as [|item items IH]; intros acc;
    cbn [fold_left List.filter].
  - by rewrite app_nil_r.
  - rewrite IH. unfold read_item. cbn [key smode].
    destruct (is_nullish item); cbn [negb map]; [done|].
    destruct (is_array h (get_prop h item k)); by rewrite <- app_assoc.
Qed.

Lemma all_digits_dot_free ds : Str.all_digits ds = true -> dot_free ds = true.
Proof.
  unfold dot_free. induction ds as [|c ds IH]; [done|].
  cbn [Str.all_digits string_forall]. intros [Hc Hds]%andb_true_iff.
  rewrite (IH Hds), andb_true_r.
  destruct (Ascii.eqb_spec c ".") as [->|]; [|done]. by vm_compute in Hc.
Qed.

Lemma dot_free_index_segment k ds :
  dot_free k = true -> Str.all_digits ds = true ->
  dot_free (k +:+ String "[" (ds +:+ "]")) = true.
Proof.
  intros Hk Hds%all_digits_dot_free. unfold dot_free in *.
  rewrite string_forall_app, Hk. cbn [string_forall andb].
  rewrite string_forall_app, Hds. reflexivity.
Qed.

Lemma split_segment seg : dot_free seg = true -> Str.split "." seg = [seg].
Proof. apply split_without. Qed.

(** X4. Plain and index segments met in the array flow.  A plain segment
    takes the property from every element that is not null or undefined:
    the result has one entry per such element, in order, undefined where the
    property is missing, and null or undefined elements are dropped.  An
    index segment does the same with the element at the index of the array
    that the key holds, and gives undefined where the key holds no array. *)
Theorem segments_in_array_flow :
  (forall h root p k items,
     bracket_free k = true -> dot_free k = true ->
     read_segments h (Single root) (Str.split "." p) = Some (Flow items) ->
     getValueByPath h root (p +:+ String "." k)
     = alloc h
         (CArr (map (fun item => get_prop h item k)
                  (List.filter (fun item => negb (is_nullish item)) items)) []))
  /\ (forall h root p k ds items,
        k <> "" -> bracket_free k = true -> dot_free k = true ->
        ds <> "" -> Str.all_digits ds = true ->
        read_segments h (Single root) (Str.split "." p) = Some (Flow items) ->
        getValueByPath h root (p +:+ String "." (k +:+ String "[" (ds +:+ "]")))
        = alloc h
            (CArr (map (fun item =>
                          if is_array h (get_prop h item k)
                          then get_index h (get_prop h item k)
                                 (Str.digits_value 0 ds)
                          else VUndef)
                     (List.filter (fun item => negb (is_nullish item)) items))
               [])).
Proof.
  split.
  - intros h root p k items Hb Hd Hp. unfold getValueByPath.
    rewrite append_not_empty, split_app, read_segments_app, Hp.
    rewrite (split_segment _ Hd). cbn [read_segments].
    rewrite (parseSeg_bracket_free _ Hb). cbn [read_step].
    by rewrite read_items_prop.
  - intros h root p k ds items Hne Hb Hd Hds Hdigits Hp. unfold getValueByPath.
    rewrite append_not_empty, split_app, read_segments_app, Hp.
    rewrite split_segment.
    2:{ by apply dot_free_index_segment. }
    cbn [read_segments].
    rewrite (parseSeg_index_form _ _ Hne Hb Hds Hdigits). cbn [read_step].
    by rewrite read_items_index.
Qed.

Lemma segments_in_array_flow_witness :
  getValueByPath
    [CObj [("v", VNum 1)]; CObj []; CArr [VRef 0; VNull; VRef 1] [];
     CObj [("list", VRef 2)]]
    (VRef 3) "list[].v"
  = ([CObj [("v", VNum 1)]; CObj []; CArr [VRef 0; VNull; VRef 1] [];
      CObj [("list", VRef 2)]; CArr [VNum 1; VUndef] []], VRef 4)
  /\ getValueByPath
       [CArr [VNum 5; VNum 6] []; CObj [("xs", VRef 0)]; CObj [("xs", VNum 3)];
        CArr [VRef 1; VRef 2] []; CObj [("list", VRef 3)]]
       (VRef 4) "list[].xs[1]"
     = ([CArr [VNum 5; VNum 6] []; CObj [("xs", VRef 0)]; CObj [("xs", VNum 3)];
         CArr [VRef 1; VRef 2] []; CObj [("list", VRef 3)];
         CArr [VNum 6; VUndef] []], VRef 5).
Proof.
  destruct segments_in_array_flow as [Hprop Hindex]. split.
  - rewrite (Hprop _ (VRef 3) "list[]" "v" [VRef 0; VNull; VRef 1]);
      reflexivity.
  - rewrite (Hindex _ (VRef 4) "list[]" "xs" "1" [VRef 1; VRef 2]);
      try reflexivity; discriminate.
Defined.

(** ** Reading a path in two steps *)

(** X5. Reading in two steps.  For a path [p] that is not empty and has no
    wildcard segment, and a path [q] that is not empty, reading [p.q] is
    reading [q] from what reading [p] returns. *)
Theorem read_composes h obj p q :
  p <> "" -> q <> "" -> has_wildcard p = false ->
  getValueByPath h obj (p +:+ String "." q)
  = getValueByPath h (getValueByPath h obj p).2 q.
Proof.
  intros Hp Hq Hw. unfold getValueByPath.
  rewrite append_not_empty, split_app, read_segments_app.
  rewrite (eqb_empty_false _ Hp), (eqb_empty_false _ Hq).
  destruct (read_segments_single h obj _ Hw) as [->|[v ->]]; cbn [read_result snd].
  - by rewrite (read_segments_nullish h VUndef) by (done || apply split_nonempty).
  - done.
Qed.

Lemma read_composes_witness :
  getValueByPath [CObj [("c", VNum 42)]; CObj [("b", VRef 0)]; CObj [("a", VRef 1)]]
    (VRef 2) "a.b.c"
  = getValueByPath [CObj [("c", VNum 42)]; CObj [("b", VRef 0)]; CObj [("a", VRef 1)]]
      (getValueByPath
         [CObj [("c", VNum 42)]; CObj [("b", VRef 0)]; CObj [("a", VRef 1)]]
         (VRef 2) "a.b").2 "c".
Proof.
  apply (read_composes _ (VRef 2) "a.b" "c"); [discriminate | discriminate | reflexivity].
Defined.

(** ** Nothing to read from *)

Lemma read_nullish h obj path :
  is_nullish obj = true -> getValueByPath h obj path = (h, VUndef).
Proof.
  intros Hobj. unfold getValueByPath. destruct (String.eqb path ""); [done|].
  by rewrite read_segments_nullish by (done || apply split_nonempty).
Qed.

Lemma source_path_entry_nullish registry input result h log targetPath spec :
  is_nullish input = true -> is_source_path spec = true ->
  transform_entry registry input result (h, log) (targetPath, spec)
  = Ok (h, log).
Proof.
  intros Hin Hspec. destruct spec as [| | | |s|]; try done.
  cbn [is_source_path] in Hspec. apply negb_true_iff in Hspec.
  unfold transform_entry. rewrite is_plain_object_string. cbn [andb].
  destruct (val_eqb (VStr s) (VStr "") || val_eqb (VStr s) VNull); [done|].
  rewrite Hspec, (read_nullish _ _ _ Hin). by rewrite val_eqb_refl.
Qed.

Lemma source_path_entries_nullish registry input result st entries :
  is_nullish input = true ->
  Forall (fun kv => is_source_path kv.2 = true) entries ->
  transform_entries registry input result st entries = Ok st.
Proof.
  intros Hin. induction 1 as [|[k spec] entries Hspec _ IH]; [done|].
  cbn [transform_entries]. destruct st as [h log].
  by rewrite (source_path_entry_nullish _ _ _ _ _ _ _ Hin Hspec).
Qed.

(** X6. Nothing to read from.  From null or undefined every path reads as
    undefined, and nothing is raised.  Hence [transform] applied to null or
    undefined, with a mapping whose values are all source paths, returns a
    fresh empty record and no warning. *)
Theorem nothing_to_read_from registry h log input mapping entries :
  is_nullish input = true ->
  val_ok (length h) mapping ->
  object_entries h mapping = Ok entries ->
  Forall (fun kv => is_source_path kv.2 = true) entries ->
  (forall path, getValueByPath h input path = (h, VUndef))
  /\ transform registry (h, log) input mapping
     = Ok ((h ++ [CObj []], log), VRef (length h)).
Proof.
  intros Hin Hmapping Hentries Hpaths. split.
  - intros path. by apply read_nullish.
  - unfold transform. cbn [fst snd].
    assert (is_array h input = false) as -> by by destruct input.
    unfold transformOne. cbn [alloc fst snd].
    rewrite object_entries_alloc, Hentries by done. cbn [mbind outcome_bind].
    by rewrite source_path_entries_nullish.
Qed.

Lemma nothing_to_read_from_witness :
  (forall path,
     getValueByPath [CObj [("id", VStr "id"); ("name", VStr "person.name")]]
       VNull path
     = ([CObj [("id", VStr "id"); ("name", VStr "person.name")]], VUndef))
  /\ transform (transforms no_intl)
       ([CObj [("id", VStr "id"); ("name", VStr "person.name")]], [])
       VNull (VRef 0)
     = Ok (([CObj [("id", VStr "id"); ("name", VStr "person.name")]]
            ++ [CObj []], []), VRef 1).
Proof.
  apply (nothing_to_read_from (transforms no_intl)
           [CObj [("id", VStr "id"); ("name", VStr "person.name")]]
           [] VNull (VRef 0)
           [("id", VStr "id"); ("name", VStr "person.name")]).
  - reflexivity.
  - cbn. lia.
  - reflexivity.
  - repeat constructor.
Defined.

(** ** The interpreter and the resolver *)

Lemma is_plain_object_primitive h x :
  is_ref x = false -> is_plain_object h x = false.
Proof.
  unfold is_plain_object. destruct x as [| |b|z|s|a]; try done; intros _;
    cbn [typeof String.eqb]; by rewrite andb_false_r.
Qed.

Lemma transform_entry_resolve
  registry input result h log targetPath sourceSpec :
  is_directive h sourceSpec = false ->
  transform_entry registry input result (h, log) (targetPath, sourceSpec)
  = (let (h1, value) := resolveSpec h input sourceSpec in
     h2 ← setValueByPath h1 result targetPath value; Ok (h2, log)).
Proof.
  unfold is_directive. intros Hdir. unfold transform_entry, resolveSpec.
  rewrite Hdir.
  destruct sourceSpec as [| |b|z|s|a]; try reflexivity.
  - by rewrite is_plain_object_primitive.
  - by rewrite is_plain_object_primitive.
  - rewrite is_plain_object_string. cbn [andb is_nullish orb].
    destruct (String.eqb_spec s "") as [->|Hs]; [done|].
    assert (val_eqb (VStr s) (VStr "") = false) as ->
      by (apply val_eqb_false; congruence).
    assert (val_eqb (VStr s) VNull = false) as -> by by apply val_eqb_false.
    cbn [orb]. destruct (Str.startsWith "=" s); [done|].
    destruct (getValueByPath h input s) as [h1 value].
    destruct (val_eqb value VUndef) eqn:Hv; [|done].
    apply val_eqb_true in Hv. subst value.
    unfold setValueByPath. by rewrite val_eqb_refl.
  - assert (val_eqb (VRef a) (VStr "") = false) as -> by by apply val_eqb_false.
    assert (val_eqb (VRef a) VNull = false) as -> by by apply val_eqb_false.
    cbn [orb is_nullish]. clear Hdir. by destruct (_ && _).
Qed.

(** X7. The interpreter and [resolveSpec] agree.  For every mapping entry
    whose value is not a transform directive, one turn of the loop of
    [transformOne] does what [resolveSpec] followed by [setValueByPath]
    does, and leaves the diagnostics alone: the rules written out in
    [transformOne] (empty values, the [$literal] wrapper, literals that are
    not strings, the [=] prefix, source paths) are the rules of
    [resolveSpec]. *)
Theorem entry_is_resolve_then_write
  registry input result h log targetPath sourceSpec :
  is_directive h sourceSpec = false ->
  transform_entry registry input result (h, log) (targetPath, sourceSpec)
  = (let (h1, value) := resolveSpec h input sourceSpec in
     h2 ← setValueByPath h1 result targetPath value; Ok (h2, log)).
Proof. apply transform_entry_resolve. Qed.

Lemma entry_is_resolve_then_write_witness :
  transform_entry (transforms no_intl) Sample.input Sample.result
    (Sample.store, []) ("nationality", VStr "person.nationality")
  = (let (h1, value) :=
       resolveSpec Sample.store Sample.input (VStr "person.nationality") in
     h2 ← setValueByPath h1 Sample.result "nationality" value; Ok (h2, [])).
Proof.
  apply (entry_is_resolve_then_write (transforms no_intl)). reflexivity.
Defined.

(** ** The array mark at the last segment *)


Lemma ensure_array_fresh h current ps k :
  h !! current = Some (CObj ps) ->
  is_array h (get_prop h (VRef current) k) = false ->
  ensure_array h current k
  = Ok (<[current := CObj (props_set k (VRef (length h)) ps)]>
          (h ++ [CArr [] []])).
Proof.
  intros Hcur Harr. unfold ensure_array. rewrite Harr. cbn [negb alloc].
  apply set_prop_object. rewrite lookup_alloc_old; [done|].
  by eapply lookup_lt_Some.
Qed.


(** a store that differs from [h] at most in the object at [current] and in
    cells beyond [h] *)
Lemma is_array_frame h h' current ps ps' x :
  h !! current = Some (CObj ps) ->
  h' !! current = Some (CObj ps') ->
  (forall a, a < length h -> a <> current -> h' !! a = h !! a) ->
  val_ok (length h) x ->
  is_array h' x = is_array h x /\ array_elems h' x = array_elems h x.
Proof.
  intros Hcur Hcur' Hframe Hx. destruct x as [| | | | |a]; try done.
  cbn in Hx. unfold is_array, array_elems.
  destruct (decide (a = current)) as [->|Hne].
  - by rewrite Hcur, Hcur'.
  - by rewrite (Hframe a Hx Hne).
Qed.




(** ** Writing through array marks and reading back *)

Lemma plain_not_wildcard seg :
  plain_segment seg = true -> is_wildcard (parseSeg seg) = false.
Proof.
  intros H. destruct (plain_segment_inv _ H) as [_ Hparse].
  unfold is_wildcard. by rewrite Hparse.
Qed.

Lemma wildcard_segment_inv seg :
  is_wildcard (parseSeg seg) = true ->
  Str.endsWith "[]" seg = true
  /\ parseSeg seg = Segment (Str.slice_0_m2 seg) wildcard.
Proof.
  unfold is_wildcard. intros Hw. pose proof (parseSeg_shape seg) as Hshape.
  destruct (parseSeg seg) as [k m] eqn:Hparse. cbn [smode key] in *.
  destruct m; try done. destruct Hshape as (-> & _ & _).
  by rewrite endsWith_app, slice_app.
Qed.

Lemma read_step_wildcard_single h a k :
  read_step h (Single (VRef a)) (Segment k wildcard)
  = Some (Flow (wildcard_values h (get_prop h (VRef a) k))).
Proof. unfold read_step. cbn [is_nullish smode key]. by rewrite map_id. Qed.

Lemma read_step_wildcard_flow h a k :
  read_step h (Flow [VRef a]) (Segment k wildcard)
  = Some (Flow (wildcard_values h (get_prop h (VRef a) k))).
Proof.
  unfold read_step. rewrite read_items_wildcard.
  cbn [flat_map is_nullish app]. by rewrite app_nil_r.
Qed.

Lemma read_step_prop_flow h a k :
  read_step h (Flow [VRef a]) (Segment k prop)
  = Some (Flow [get_prop h (VRef a) k]).
Proof. reflexivity. Qed.

Lemma wildcard_values_array h a els extra :
  h !! a = Some (CArr els extra) -> wildcard_values h (VRef a) = els.
Proof.
  intros Ha. unfold wildcard_values, is_array, array_elems. by rewrite Ha.
Qed.

Lemma last_cons (seg next : string) rest :
  List.last (seg :: next :: rest) "" = List.last (next :: rest) "".
Proof. reflexivity. Qed.

Lemma written_items_frame h h' current ps ps' seg next rest value :
  h !! current = Some (CObj ps) ->
  h' !! current = Some (CObj ps') ->
  (forall a, a < length h -> a <> current -> h' !! a = h !! a) ->
  val_ok (length h) value ->
  written_items h' (next :: rest) value
  = written_items h (seg :: next :: rest) value.
Proof.
  intros Hcur Hcur' Hframe Hok. unfold written_items. rewrite last_cons.
  destruct (is_array_frame h h' current _ _ value Hcur Hcur' Hframe Hok)
    as [-> ->]. done.
Qed.

Lemma write_read_agreed value segments :
  segments <> [] ->
  forallb agreed_segment segments = true ->
  forall h current,
    h !! current = Some (CObj []) ->
    val_ok (length h) value ->
    exists h',
      write_segments h current segments value = Ok h'
      /\ length h <= length h'
      /\ (forall a, a < length h -> a <> current -> h' !! a = h !! a)
      /\ (exists ps', h' !! current = Some (CObj ps'))
      /\ read_segments h' (Single (VRef current)) segments
         = Some (if existsb (fun seg => is_wildcard (parseSeg seg)) segments
                 then Flow (written_items h segments value)
                 else Single value)
      /\ read_segments h' (Flow [VRef current]) segments
         = Some (Flow (written_items h segments value)).
Proof.
  induction segments as [|seg [|next rest] IH]; [done| |];
    intros _ Hagreed h current Hcur Hok;
    cbn [forallb] in Hagreed; apply andb_true_iff in Hagreed as [Hseg Hrest];
    pose proof (lookup_lt_Some _ _ _ Hcur) as Hlt;
    unfold agreed_segment in Hseg;
    destruct (plain_segment seg) eqn:Hplain; cbn [orb] in Hseg.
  - (* a plain last segment *)
    destruct (plain_segment_inv _ Hplain) as [Hends Hparse].
    pose proof (plain_not_wildcard _ Hplain) as Hnw.
    exists (<[current := CObj [(seg, value)]]> h).
    cbn [write_segments read_segments existsb]. rewrite Hends, Hnw, Hparse.
    rewrite read_step_prop, read_step_prop_flow.
    rewrite (set_prop_object _ _ [] _ _ Hcur), props_set_empty.
    assert (get_prop (<[current := CObj [(seg, value)]]> h) (VRef current) seg
            = value) as ->.
    { unfold get_prop. rewrite list_lookup_insert_eq by done.
      cbn [props_get]. by rewrite String.eqb_refl. }
    unfold written_items. cbn [List.last]. rewrite Hnw. cbn [andb orb].
    repeat split; try done.
    + by rewrite length_insert.
    + intros a _ Hne. by apply list_lookup_insert_ne.
    + eexists. by apply list_lookup_insert_eq.
  - (* an array-marked last segment *)
    destruct (wildcard_segment_inv _ Hseg) as [Hends Hparse].
    set (k := Str.slice_0_m2 seg) in *.
    assert (get_prop h (VRef current) k = VUndef) as Hnone
      by (unfold get_prop; by rewrite Hcur).
    cbn [write_segments read_segments existsb]. rewrite Hends, Hseg, Hparse.
    fold k. cbn [orb].
    rewrite (ensure_array_fresh _ _ _ _ Hcur) by (by rewrite Hnone).
    rewrite props_set_empty. cbn [mbind outcome_bind].
    set (h1 := <[current := CObj [(k, VRef (length h))]]> (h ++ [CArr [] []])).
    assert (length h1 = S (length h)) as Hlen1
      by (unfold h1; rewrite length_insert, length_app; cbn; lia).
    assert (h1 !! current = Some (CObj [(k, VRef (length h))])) as Hcur1
      by (unfold h1; apply list_lookup_insert_eq; rewrite length_app; lia).
    assert (forall b, b < length h -> b <> current -> h1 !! b = h !! b)
      as Hframe1.
    { intros b Hb Hbne. unfold h1.
      rewrite list_lookup_insert_ne by done. by apply lookup_alloc_old. }
    assert (h1 !! length h = Some (CArr [] [])) as Hnew1
      by (unfold h1; rewrite list_lookup_insert_ne by lia;
          apply lookup_alloc_new).
    assert (get_prop h1 (VRef current) k = VRef (length h)) as Hget1.
    { unfold get_prop. rewrite Hcur1. cbn [props_get].
      by rewrite String.eqb_refl. }
    destruct (is_array_frame h h1 current _ _ value Hcur Hcur1 Hframe1 Hok)
      as [Harr1 Hels1].
    rewrite Harr1. unfold written_items. cbn [List.last].
    rewrite Hseg. cbn [andb].
    destruct (is_array h value) eqn:Hv.
    + (* the value is an array: a copy of it *)
      cbn [alloc].
      rewrite (set_prop_object _ _ [(k, VRef (length h))])
        by (rewrite lookup_alloc_old by lia; exact Hcur1).
      eexists. split; [reflexivity|].
      set (h' := <[current := _]> _).
      assert (h' !! current
              = Some (CObj (props_set k (VRef (length h1))
                              [(k, VRef (length h))]))) as Hcur'
        by (unfold h'; apply list_lookup_insert_eq; rewrite length_app; lia).
      assert (get_prop h' (VRef current) k = VRef (length h1)) as Hget.
      { unfold get_prop. rewrite Hcur'. by rewrite props_get_set. }
      assert (h' !! length h1 = Some (CArr (array_elems h1 value) [])) as Hnew
        by (unfold h'; rewrite list_lookup_insert_ne by lia;
            apply lookup_alloc_new).
      rewrite read_step_wildcard_single, read_step_wildcard_flow, Hget.
      rewrite (wildcard_values_array _ _ _ _ Hnew), Hels1.
      repeat split; try done.
      * unfold h'. rewrite length_insert, length_app. lia.
      * intros a Ha Hne. unfold h'. rewrite list_lookup_insert_ne by done.
        rewrite lookup_alloc_old by lia. by apply Hframe1.
      * by eexists.
    + (* the value is pushed *)
      rewrite Hget1. unfold array_push. rewrite Hnew1.
      eexists. split; [reflexivity|].
      set (h' := <[length h := _]> h1).
      assert (h' !! current = Some (CObj [(k, VRef (length h))])) as Hcur'
        by (unfold h'; by rewrite list_lookup_insert_ne by lia).
      assert (get_prop h' (VRef current) k = VRef (length h)) as Hget
        by (rewrite <- Hget1; apply get_prop_cell; congruence).
      assert (h' !! length h = Some (CArr ([] ++ [value]) [])) as Hnew
        by (unfold h'; apply list_lookup_insert_eq; lia).
      rewrite read_step_wildcard_single, read_step_wildcard_flow, Hget.
      rewrite (wildcard_values_array _ _ _ _ Hnew).
      repeat split; try done.
      * unfold h'. rewrite length_insert. lia.
      * intros a Ha Hne. unfold h'. rewrite list_lookup_insert_ne by lia.
        by apply Hframe1.
      * by eexists.
  - (* a plain segment before the last: a fresh object to go on in *)
    destruct (plain_segment_inv _ Hplain) as [Hends Hparse].
    pose proof (plain_not_wildcard _ Hplain) as Hnw.
    set (h1 := <[current := CObj [(seg, VRef (length h))]]> (h ++ [CObj []])).
    assert (h1 !! length h = Some (CObj [])) as Hnew
      by (unfold h1; rewrite list_lookup_insert_ne by lia;
          apply lookup_alloc_new).
    assert (length h1 = S (length h)) as Hlen1
      by (unfold h1; rewrite length_insert, length_app; cbn; lia).
    assert (h1 !! current = Some (CObj [(seg, VRef (length h))])) as Hcur1
      by (unfold h1; apply list_lookup_insert_eq; rewrite length_app; lia).
    assert (forall b, b < length h -> b <> current -> h1 !! b = h !! b)
      as Hframe1.
    { intros b Hb Hbne. unfold h1.
      rewrite list_lookup_insert_ne by done. by apply lookup_alloc_old. }
    destruct (IH ltac:(done) Hrest h1 (length h) Hnew
                ltac:(eapply val_ok_mono; [|exact Hok]; lia))
      as (h' & Hwrite & Hlen & Hframe & _ & Hread & Hflow).
    exists h'.
    destruct (write_segments_plain_segment h current seg next rest value
                Hends Hlt) as [_ Hfresh].
    destruct Hfresh as (Hstep & _ & Hset).
    { unfold get_prop. by rewrite Hcur. }
    rewrite Hstep, (Hset [] Hcur), props_set_empty.
    cbn [mbind outcome_bind]. fold h1.
    assert (h' !! current = Some (CObj [(seg, VRef (length h))])) as Hcur'
      by (rewrite Hframe by lia; exact Hcur1).
    assert (get_prop h' (VRef current) seg = VRef (length h)) as Hget.
    { unfold get_prop. rewrite Hcur'. cbn [props_get].
      by rewrite String.eqb_refl. }
    rewrite <- (written_items_frame h h1 current _ _ seg next rest value
                  Hcur Hcur1 Hframe1 Hok).
    repeat split; [done | lia | | by eexists | |].
    + intros a Ha Hne. rewrite Hframe by lia. by apply Hframe1.
    + cbn [read_segments existsb] in *. rewrite Hnw, Hparse, read_step_prop, Hget.
      cbn [orb]. exact Hread.
    + cbn [read_segments] in *. rewrite Hparse, read_step_prop_flow, Hget.
      exact Hflow.
  - (* an array-marked segment before the last: a fresh array with a fresh
       object at index 0 to go on in *)
    destruct (wildcard_segment_inv _ Hseg) as [Hends Hparse].
    set (k := Str.slice_0_m2 seg) in *.
    assert (get_prop h (VRef current) k = VUndef) as Hnone
      by (unfold get_prop; by rewrite Hcur).
    rewrite (write_segments_array_segment _ _ _ _ _ _ Hends). fold k.
    rewrite (ensure_array_fresh _ _ _ _ Hcur) by (by rewrite Hnone).
    rewrite props_set_empty. cbn [mbind outcome_bind].
    set (h1 := <[current := CObj [(k, VRef (length h))]]> (h ++ [CArr [] []])).
    assert (length h1 = S (length h)) as Hlen1
      by (unfold h1; rewrite length_insert, length_app; cbn; lia).
    assert (h1 !! current = Some (CObj [(k, VRef (length h))])) as Hcur1
      by (unfold h1; apply list_lookup_insert_eq; rewrite length_app; lia).
    assert (forall b, b < length h -> b <> current -> h1 !! b = h !! b)
      as Hframe1.
    { intros b Hb Hbne. unfold h1.
      rewrite list_lookup_insert_ne by done. by apply lookup_alloc_old. }
    assert (h1 !! length h = Some (CArr [] [])) as Hnew1
      by (unfold h1; rewrite list_lookup_insert_ne by lia;
          apply lookup_alloc_new).
    assert (get_prop h1 (VRef current) k = VRef (length h)) as Hget1.
    { unfold get_prop. rewrite Hcur1. cbn [props_get].
      by rewrite String.eqb_refl. }
    unfold ensure_carrier. rewrite needs_carrier, Hget1.
    rewrite (get_prop_array_0 _ _ _ _ Hnew1).
    change (default VUndef ([] !! 0)) with VUndef. cbn [is_ref negb alloc].
    rewrite (set_prop_array_0 _ _ [] [])
      by (rewrite lookup_alloc_old by lia; done).
    cbn [mbind outcome_bind tail].
    set (h2 := <[length h := CArr [VRef (length h1)] []]> (h1 ++ [CObj []])).
    assert (length h2 = S (S (length h))) as Hlen2
      by (unfold h2; rewrite length_insert, length_app; cbn; lia).
    assert (h2 !! length h = Some (CArr [VRef (length h1)] [])) as Ha2
      by (unfold h2; apply list_lookup_insert_eq; rewrite length_app; lia).
    assert (h2 !! current = Some (CObj [(k, VRef (length h))])) as Hcur2.
    { unfold h2. rewrite list_lookup_insert_ne by lia.
      rewrite lookup_alloc_old by lia. exact Hcur1. }
    assert (forall b, b < length h -> b <> current -> h2 !! b = h !! b)
      as Hframe2.
    { intros b Hb Hbne. unfold h2. rewrite list_lookup_insert_ne by lia.
      rewrite lookup_alloc_old by lia. by apply Hframe1. }
    assert (h2 !! length h1 = Some (CObj [])) as Hnew2.
    { unfold h2. rewrite list_lookup_insert_ne by lia. apply lookup_alloc_new. }
    assert (get_prop h2 (VRef current) k = VRef (length h)) as Hget2.
    { unfold get_prop. rewrite Hcur2. cbn [props_get].
      by rewrite String.eqb_refl. }
    rewrite Hget2, (get_prop_array_0 _ _ _ _ Ha2).
    change (default VUndef ([VRef (length h1)] !! 0)) with (VRef (length h1)).
    cbn [descend mbind outcome_bind].
    destruct (IH ltac:(done) Hrest h2 (length h1) Hnew2
                ltac:(eapply val_ok_mono; [|exact Hok]; lia))
      as (h' & Hwrite & Hlen & Hframe & _ & _ & Hflow).
    exists h'.
    assert (h' !! current = Some (CObj [(k, VRef (length h))])) as Hcur'
      by (rewrite Hframe by lia; exact Hcur2).
    assert (get_prop h' (VRef current) k = VRef (length h)) as Hget.
    { unfold get_prop. rewrite Hcur'. cbn [props_get].
      by rewrite String.eqb_refl. }
    assert (h' !! length h = Some (CArr [VRef (length h1)] [])) as Ha'
      by (rewrite Hframe by lia; exact Ha2).
    rewrite <- (written_items_frame h h2 current _ _ seg next rest value
                  Hcur Hcur2 Hframe2 Hok).
    repeat split; [done | lia | | by eexists | |].
    + intros a Ha Hne. rewrite Hframe by lia. by apply Hframe2.
    + cbn [read_segments existsb] in *. rewrite Hseg, Hparse. cbn [orb].
      rewrite read_step_wildcard_single, Hget.
      rewrite (wildcard_values_array _ _ _ _ Ha'). exact Hflow.
    + cbn [read_segments] in *. rewrite Hparse.
      rewrite read_step_wildcard_flow, Hget.
      rewrite (wildcard_values_array _ _ _ _ Ha'). exact Hflow.
Qed.

Lemma is_array_alloc h c x :
  val_ok (length h) x ->
  is_array (h ++ [c]) x = is_array h x
  /\ array_elems (h ++ [c]) x = array_elems h x.
Proof.
  destruct x as [| | | | |a]; try done. cbn. intros Ha.
  unfold is_array, array_elems. by rewrite lookup_alloc_old.
Qed.

(** X9. Writing through array marks and reading back.  Take a path whose
    segments are each taken the same way by the reader and the writer (as a
    plain property, or as [key[]]), that has at least one [key[]], and in
    which no key is [__proto__].  Writing a value other than undefined at it
    into a fresh empty object succeeds, and reading the same path back
    returns a fresh array that holds exactly that value; or, when the last
    segment has the array mark and the value is an array, the elements of
    the value.  The value, when it is an array, is one without named
    properties, as every array of a JSON text is: it is copied with its
    inherited [slice]. *)
Theorem write_then_read_through_arrays h path value :
  forallb agreed_segment (Str.split "." path) = true ->
  has_wildcard path = true ->
  prototype_free path = true ->
  value <> VUndef ->
  val_ok (length h) value ->
  named_properties h value = [] ->
  exists h',
    setValueByPath (h ++ [CObj []]) (length h) path value = Ok h'
    /\ getValueByPath h' (VRef (length h)) path
       = alloc h' (CArr (written_items h (Str.split "." path) value) []).
Proof.
  intros Hagreed Hw _ Hvalue Hok _.
  destruct (write_read_agreed value (Str.split "." path)
              (split_nonempty _ _) Hagreed (h ++ [CObj []]) (length h)
              (lookup_alloc_new h (CObj [])))
    as (h' & Hwrite & _ & _ & _ & Hread & _).
  { eapply val_ok_mono; [|exact Hok]. rewrite length_app. lia. }
  exists h'. unfold setValueByPath, getValueByPath.
  apply val_eqb_false in Hvalue. rewrite Hvalue.
  assert (String.eqb path "" = false) as ->.
  { apply String.eqb_neq. by intros ->. }
  unfold has_wildcard in Hw. rewrite Hw in Hread. rewrite Hread.
  split; [done|]. cbn [read_result].
  assert (written_items (h ++ [CObj []]) (Str.split "." path) value
          = written_items h (Str.split "." path) value) as ->; [|done].
  unfold written_items.
  by destruct (is_array_alloc h (CObj []) value Hok) as [-> ->].
Qed.

Lemma write_then_read_through_arrays_witness :
  exists h',
    setValueByPath ([] ++ [CObj []]) 0 "emails[].tags[]" (VStr "home") = Ok h'
    /\ getValueByPath h' (VRef 0) "emails[].tags[]"
       = alloc h' (CArr [VStr "home"] []).
Proof.
  apply (write_then_read_through_arrays [] "emails[].tags[]" (VStr "home"));
    [reflexivity | reflexivity | reflexivity | discriminate | exact I
    | reflexivity].
Defined.

(** ** Two writes into one record *)

Lemma props_get_replace_other k k' v ps :
  String.eqb k' k = false ->
  props_get k (props_replace k' v ps) = props_get k ps.
Proof.
  intros Hne. induction ps as [|[k0 w] ps IH]; [done|].
  cbn [props_replace]. destruct (String.eqb k0 k') eqn:E; cbn [props_get].
  - apply String.eqb_eq in E. subst k0. by rewrite Hne.
  - destruct (String.eqb k0 k); [done | exact IH].
Qed.

Lemma props_get_insert_index_other n k k' v ps :
  String.eqb k' k = false ->
  props_get k (props_insert_index n k' v ps) = props_get k ps.
Proof.
  intros Hne. induction ps as [|[k0 w] ps IH]; cbn [props_insert_index props_get].
  - by rewrite Hne.
  - destruct (parse_index k0) as [m|]; [destruct (m <? n)%N|];
      cbn [props_get]; rewrite ?Hne; try done.
    destruct (String.eqb k0 k); [done | exact IH].
Qed.

Lemma props_get_app_other k k' v ps :
  String.eqb k' k = false ->
  props_get k (ps ++ [(k', v)]) = props_get k ps.
Proof.
  intros Hne. induction ps as [|[k0 w] ps IH]; cbn [app props_get].
  - by rewrite Hne.
  - destruct (String.eqb k0 k); [done | exact IH].
Qed.

Lemma props_get_set_other k k' v ps :
  String.eqb k' k = false ->
  props_get k (props_set k' v ps) = props_get k ps.
Proof.
  intros Hne. unfold props_set. destruct (has_own k' ps).
  - by apply props_get_replace_other.
  - destruct (parse_index k').
    + by apply props_get_insert_index_other.
    + by apply props_get_app_other.
Qed.

Lemma built_frame h h' t segments v :
  (forall a, t <= a -> a < length h -> h' !! a = h !! a) ->
  built h t segments v -> built h' t segments v.
Proof.
  revert t. induction segments as [|k [|next rest] IH]; intros t Hframe;
    [done| |]; cbn [built].
  - intros Ht. rewrite Hframe; [done | lia | by eapply lookup_lt_Some].
  - intros (c & Hc & Ht & Hrest). exists c. split; [done|]. split.
    + rewrite Hframe; [done | lia | by eapply lookup_lt_Some].
    + apply IH; [|done]. intros a Ha Hlt. apply Hframe; lia.
Qed.

Lemma built_read h t segments v :
  forallb plain_segment segments = true ->
  built h t segments v ->
  read_segments h (Single (VRef t)) segments = Some (Single v).
Proof.
  revert t. induction segments as [|k [|next rest] IH]; intros t;
    [done| |]; cbn [forallb built];
    intros [Hk Hrest]%andb_true_iff;
    destruct (plain_segment_inv _ Hk) as [_ Hparse].
  - intros Ht. cbn [read_segments]. rewrite Hparse, read_step_prop.
    unfold get_prop. rewrite Ht. cbn [props_get]. by rewrite String.eqb_refl.
  - intros (c & _ & Ht & Hc).
    change (read_segments h (Single (VRef t)) (k :: next :: rest))
      with (match read_step h (Single (VRef t)) (parseSeg k) with
            | None => None
            | Some cur' => read_segments h cur' (next :: rest)
            end).
    rewrite Hparse, read_step_prop.
    assert (get_prop h (VRef t) k = VRef c) as ->.
    { unfold get_prop. rewrite Ht. cbn [props_get].
      by rewrite String.eqb_refl. }
    by apply IH.
Qed.

(** the first write, into an empty object *)
Lemma write_builds value segments :
  segments <> [] ->
  forallb plain_segment segments = true ->
  forall h current,
    h !! current = Some (CObj []) ->
    exists h',
      write_segments h current segments value = Ok h'
      /\ length h <= length h'
      /\ (forall a, a < length h -> a <> current -> h' !! a = h !! a)
      /\ built h' current segments value.
Proof.
  induction segments as [|seg [|next rest] IH]; [done| |];
    intros _ Hplain h current Hcur;
    cbn [forallb] in Hplain; apply andb_true_iff in Hplain as [Hseg Hrest];
    destruct (plain_segment_inv _ Hseg) as [Hends Hparse];
    pose proof (lookup_lt_Some _ _ _ Hcur) as Hlt.
  - exists (<[current := CObj [(seg, value)]]> h).
    cbn [write_segments built]. rewrite Hends.
    rewrite (set_prop_object _ _ [] _ _ Hcur), props_set_empty.
    repeat split.
    + by rewrite length_insert.
    + intros a _ Hne. by apply list_lookup_insert_ne.
    + by apply list_lookup_insert_eq.
  - set (h1 := <[current := CObj [(seg, VRef (length h))]]> (h ++ [CObj []])).
    assert (h1 !! length h = Some (CObj [])) as Hnew
      by (unfold h1; rewrite list_lookup_insert_ne by lia;
          apply lookup_alloc_new).
    assert (length h1 = S (length h)) as Hlen1
      by (unfold h1; rewrite length_insert, length_app; cbn; lia).
    destruct (IH ltac:(done) Hrest h1 (length h) Hnew)
      as (h' & Hwrite & Hlen & Hframe & Hbuilt).
    exists h'.
    destruct (write_segments_plain_segment h current seg next rest value
                Hends Hlt) as [_ Hfresh].
    destruct Hfresh as (Hstep & _ & Hset).
    { unfold get_prop. by rewrite Hcur. }
    rewrite Hstep, (Hset [] Hcur), props_set_empty.
    cbn [mbind outcome_bind]. fold h1.
    repeat split; [done | lia | |].
    + intros a Ha Hne. rewrite Hframe by lia. unfold h1.
      rewrite list_lookup_insert_ne by done. by apply lookup_alloc_old.
    + exists (length h). split; [done|]. split; [|done].
      rewrite Hframe by lia. unfold h1.
      apply list_lookup_insert_eq. rewrite length_app. lia.
Qed.

(** a second write at the same segments *)
Lemma write_again v1 v2 segments :
  forallb plain_segment segments = true ->
  forall h t,
    built h t segments v1 ->
    exists h',
      write_segments h t segments v2 = Ok h'
      /\ (forall a, a < t -> h' !! a = h !! a)
      /\ built h' t segments v2.
Proof.
  induction segments as [|seg [|next rest] IH]; [done| |];
    intros Hplain h t;
    cbn [forallb] in Hplain; apply andb_true_iff in Hplain as [Hseg Hrest];
    destruct (plain_segment_inv _ Hseg) as [Hends Hparse]; cbn [built].
  - intros Ht. pose proof (lookup_lt_Some _ _ _ Ht) as Hlt.
    exists (<[t := CObj [(seg, v2)]]> h).
    cbn [write_segments]. rewrite Hends, (set_prop_object _ _ _ _ _ Ht).
    unfold props_set, has_own. cbn [props_get props_replace].
    rewrite String.eqb_refl. repeat split.
    + intros a Ha. apply list_lookup_insert_ne. lia.
    + by apply list_lookup_insert_eq.
  - intros (c & Hc & Ht & Hbuilt).
    pose proof (lookup_lt_Some _ _ _ Ht) as Hlt.
    destruct (IH Hrest h c Hbuilt) as (h' & Hwrite & Hframe & Hbuilt').
    exists h'.
    destruct (write_segments_plain_segment h t seg next rest v2
                Hends Hlt) as [Hkeep _].
    rewrite (Hkeep c)
      by (unfold get_prop; rewrite Ht; cbn [props_get];
          by rewrite String.eqb_refl).
    repeat split; [done | |].
    + intros a Ha. apply Hframe. lia.
    + exists c. split; [done|]. split; [|done]. by rewrite Hframe.
Qed.

(** a second write at segments that part from the first ones *)
Lemma write_beside v1 v2 segs1 :
  forall segs2 h t,
    diverge segs1 segs2 = true ->
    forallb plain_segment segs1 = true ->
    forallb plain_segment segs2 = true ->
    built h t segs1 v1 ->
    exists h',
      write_segments h t segs2 v2 = Ok h'
      /\ (forall a, a < t -> h' !! a = h !! a)
      /\ read_segments h' (Single (VRef t)) segs1 = Some (Single v1)
      /\ read_segments h' (Single (VRef t)) segs2 = Some (Single v2).
Proof.
  induction segs1 as [|k1 r1 IH]; [done|].
  intros [|k2 r2] h t; [done|]. cbn [diverge forallb].
  intros Hdiv [Hk1 Hr1]%andb_true_iff [Hk2 Hr2]%andb_true_iff Hbuilt.
  destruct (plain_segment_inv _ Hk1) as [_ Hparse1].
  destruct (plain_segment_inv _ Hk2) as [Hends2 Hparse2].
  destruct (String.eqb_spec k1 k2) as [<-|Hne].
  - (* the same segment: both go on in the object below *)
    destruct r1 as [|n1 r1]; [done|]. destruct r2 as [|n2 r2];
      [by destruct r1|].
    cbn [built] in Hbuilt. destruct Hbuilt as (c & Hc & Ht & Hbuilt).
    pose proof (lookup_lt_Some _ _ _ Ht) as Hlt.
    destruct (IH (n2 :: r2) h c Hdiv Hr1 Hr2 Hbuilt)
      as (h' & Hwrite & Hframe & Hread1 & Hread2).
    exists h'.
    destruct (write_segments_plain_segment h t k1 n2 r2 v2 Hends2 Hlt)
      as [Hkeep _].
    assert (get_prop h (VRef t) k1 = VRef c) as Hget.
    { unfold get_prop. rewrite Ht. cbn [props_get].
      by rewrite String.eqb_refl. }
    rewrite (Hkeep c Hget).
    assert (get_prop h' (VRef t) k1 = VRef c) as Hget'.
    { rewrite <- Hget. apply get_prop_cell. by apply Hframe. }
    repeat split; [done | | |].
    + intros a Ha. apply Hframe. lia.
    + change (read_segments h' (Single (VRef t)) (k1 :: n1 :: r1))
        with (match read_step h' (Single (VRef t)) (parseSeg k1) with
              | None => None
              | Some cur' => read_segments h' cur' (n1 :: r1)
              end).
      by rewrite Hparse1, read_step_prop, Hget'.
    + change (read_segments h' (Single (VRef t)) (k1 :: n2 :: r2))
        with (match read_step h' (Single (VRef t)) (parseSeg k1) with
              | None => None
              | Some cur' => read_segments h' cur' (n2 :: r2)
              end).
      by rewrite Hparse1, read_step_prop, Hget'.
  - (* they part here: the object at [t] gets a second property *)
    apply String.eqb_neq in Hne.
    assert (String.eqb k2 k1 = false) as Hne'
      by (rewrite String.eqb_sym; exact Hne).
    assert (exists x1,
               h !! t = Some (CObj [(k1, x1)])
               /\ forall h',
                    (forall a, t < a -> a < length h -> h' !! a = h !! a) ->
                    get_prop h' (VRef t) k1 = x1 ->
                    read_segments h' (Single (VRef t)) (k1 :: r1)
                    = Some (Single v1)) as (x1 & Ht & Hread1).
    { destruct r1 as [|n1 r1]; cbn [built] in Hbuilt.
      - exists v1. split; [done|]. intros h' _ Hget.
        cbn [read_segments]. by rewrite Hparse1, read_step_prop, Hget.
      - destruct Hbuilt as (c & Hc & Ht & Hbuilt). exists (VRef c).
        split; [done|]. intros h' Hframe Hget.
        change (read_segments h' (Single (VRef t)) (k1 :: n1 :: r1))
          with (match read_step h' (Single (VRef t)) (parseSeg k1) with
                | None => None
                | Some cur' => read_segments h' cur' (n1 :: r1)
                end).
        rewrite Hparse1, read_step_prop, Hget.
        apply built_read; [done|]. apply (built_frame h); [|done].
        intros a Ha Hlt. apply Hframe; lia. }
    pose proof (lookup_lt_Some _ _ _ Ht) as Hlt.
    assert (forall v, props_get k1 (props_set k2 v [(k1, x1)]) = Some x1)
      as Hkeep1.
    { intros v. rewrite (props_get_set_other _ _ _ _ Hne'). cbn [props_get].
      by rewrite String.eqb_refl. }
    destruct r2 as [|n2 r2].
    + (* the second path ends here *)
      exists (<[t := CObj (props_set k2 v2 [(k1, x1)])]> h).
      cbn [write_segments]. rewrite Hends2, (set_prop_object _ _ _ _ _ Ht).
      assert (forall k, get_prop (<[t := CObj (props_set k2 v2 [(k1, x1)])]> h)
                          (VRef t) k
                        = default VUndef
                            (props_get k (props_set k2 v2 [(k1, x1)])))
        as Hget.
      { intros k. unfold get_prop. by rewrite list_lookup_insert_eq by done. }
      repeat split.
      * intros a Ha. apply list_lookup_insert_ne. lia.
      * apply Hread1.
        -- intros a Ha _. apply list_lookup_insert_ne. lia.
        -- by rewrite Hget, Hkeep1.
      * cbn [read_segments]. rewrite Hparse2, read_step_prop, Hget.
        by rewrite props_get_set.
    + (* the second path goes on, in a fresh object *)
      set (h1 := <[t := CObj (props_set k2 (VRef (length h)) [(k1, x1)])]>
                   (h ++ [CObj []])).
      assert (h1 !! length h = Some (CObj [])) as Hnew
        by (unfold h1; rewrite list_lookup_insert_ne by lia;
            apply lookup_alloc_new).
      assert (length h1 = S (length h)) as Hlen1
        by (unfold h1; rewrite length_insert, length_app; cbn; lia).
      assert (h1 !! t
              = Some (CObj (props_set k2 (VRef (length h)) [(k1, x1)])))
        as Ht1
        by (unfold h1; apply list_lookup_insert_eq; rewrite length_app; lia).
      destruct (write_read_segments v2 (n2 :: r2) ltac:(done) Hr2 h1
                  (length h) Hnew) as (h' & Hwrite & Hlen & Hframe & Hread2).
      exists h'.
      destruct (write_segments_plain_segment h t k2 n2 r2 v2 Hends2 Hlt)
        as [_ Hfresh].
      destruct Hfresh as (Hstep & _ & Hset).
      { unfold get_prop. rewrite Ht. cbn [props_get]. by rewrite Hne. }
      rewrite Hstep, (Hset _ Ht). cbn [mbind outcome_bind]. fold h1.
      assert (h' !! t = h1 !! t) as Ht' by (apply Hframe; lia).
      assert (forall k, get_prop h' (VRef t) k
                        = default VUndef
                            (props_get k (props_set k2 (VRef (length h))
                                            [(k1, x1)]))) as Hget.
      { intros k. unfold get_prop. by rewrite Ht', Ht1. }
      repeat split; [done | | |].
      * intros a Ha. rewrite Hframe by lia. unfold h1.
        rewrite list_lookup_insert_ne by lia. apply lookup_alloc_old. lia.
      * apply Hread1.
        -- intros a Ha Hlta. rewrite Hframe by lia. unfold h1.
           rewrite list_lookup_insert_ne by lia. by apply lookup_alloc_old.
        -- by rewrite Hget, Hkeep1.
      * change (read_segments h' (Single (VRef t)) (k2 :: n2 :: r2))
          with (match read_step h' (Single (VRef t)) (parseSeg k2) with
                | None => None
                | Some cur' => read_segments h' cur' (n2 :: r2)
                end).
        rewrite Hparse2, read_step_prop, Hget, props_get_set. exact Hread2.
Qed.

(** X10. Two writes into one fresh record, at paths of plain segments none
    of which is [__proto__].  When neither path is a prefix of the other,
    both values are read back afterwards: the second write does not disturb
    the first.  When the two paths are the same, the second value is read
    back: the later write wins. *)
Theorem two_writes :
  (forall h p1 p2 v1 v2,
     p1 <> "" -> p2 <> "" ->
     forallb plain_segment (Str.split "." p1) = true ->
     forallb plain_segment (Str.split "." p2) = true ->
     prototype_free p1 = true -> prototype_free p2 = true ->
     diverge (Str.split "." p1) (Str.split "." p2) = true ->
     v1 <> VUndef -> v2 <> VUndef ->
     exists h1 h2,
       setValueByPath (h ++ [CObj []]) (length h) p1 v1 = Ok h1
       /\ setValueByPath h1 (length h) p2 v2 = Ok h2
       /\ getValueByPath h2 (VRef (length h)) p1 = (h2, v1)
       /\ getValueByPath h2 (VRef (length h)) p2 = (h2, v2))
  /\ (forall h p v1 v2,
        p <> "" ->
        forallb plain_segment (Str.split "." p) = true ->
        prototype_free p = true ->
        v1 <> VUndef -> v2 <> VUndef ->
        exists h1 h2,
          setValueByPath (h ++ [CObj []]) (length h) p v1 = Ok h1
          /\ setValueByPath h1 (length h) p v2 = Ok h2
          /\ getValueByPath h2 (VRef (length h)) p = (h2, v2)).
Proof.
  split.
  - intros h p1 p2 v1 v2 Hp1 Hp2 Hplain1 Hplain2 _ _ Hdiv Hv1 Hv2.
    destruct (write_builds v1 (Str.split "." p1) (split_nonempty _ _) Hplain1
                (h ++ [CObj []]) (length h) (lookup_alloc_new h (CObj [])))
      as (h1 & Hwrite1 & _ & _ & Hbuilt).
    destruct (write_beside v1 v2 _ _ h1 (length h) Hdiv Hplain1 Hplain2 Hbuilt)
      as (h2 & Hwrite2 & _ & Hread1 & Hread2).
    exists h1, h2. unfold setValueByPath, getValueByPath.
    apply val_eqb_false in Hv1, Hv2. rewrite Hv1, Hv2.
    rewrite (eqb_empty_false _ Hp1), (eqb_empty_false _ Hp2).
    by rewrite Hread1, Hread2.
  - intros h p v1 v2 Hp Hplain _ Hv1 Hv2.
    destruct (write_builds v1 (Str.split "." p) (split_nonempty _ _) Hplain
                (h ++ [CObj []]) (length h) (lookup_alloc_new h (CObj [])))
      as (h1 & Hwrite1 & _ & _ & Hbuilt).
    destruct (write_again v1 v2 _ Hplain h1 (length h) Hbuilt)
      as (h2 & Hwrite2 & _ & Hbuilt2).
    exists h1, h2. unfold setValueByPath, getValueByPath.
    apply val_eqb_false in Hv1, Hv2. rewrite Hv1, Hv2.
    rewrite (eqb_empty_false _ Hp).
    by rewrite (built_read _ _ _ _ Hplain Hbuilt2).
Qed.

Lemma two_writes_witness :
  (exists h1 h2,
     setValueByPath ([] ++ [CObj []]) 0 "person.name.first" (VStr "Ada") = Ok h1
     /\ setValueByPath h1 0 "person.born" (VNum 1815) = Ok h2
     /\ getValueByPath h2 (VRef 0) "person.name.first" = (h2, VStr "Ada")
     /\ getValueByPath h2 (VRef 0) "person.born" = (h2, VNum 1815))
  /\ (exists h1 h2,
        setValueByPath ([] ++ [CObj []]) 0 "person.name" (VStr "Ada") = Ok h1
        /\ setValueByPath h1 0 "person.name" (VNull) = Ok h2
        /\ getValueByPath h2 (VRef 0) "person.name" = (h2, VNull)).
Proof.
  destruct two_writes as [Hbeside Hagain]. split.
  - apply (Hbeside [] "person.name.first" "person.born"); try discriminate;
      reflexivity.
  - apply (Hagain [] "person.name"); try discriminate; reflexivity.
Defined.

(** ** Mappings whose targets are keys of the output record *)

Lemma setValueByPath_flat h result ps k v :
  flat_target k = true ->
  h !! result = Some (CObj ps) ->
  setValueByPath h result k v
  = Ok (if val_eqb v VUndef then h
        else <[result := CObj (props_set k v ps)]> h).
Proof.
  unfold flat_target. intros [Hdot Hends%negb_true_iff]%andb_true_iff Hres.
  unfold setValueByPath. destruct (val_eqb v VUndef); [done|].
  rewrite (split_segment _ Hdot). cbn [write_segments]. rewrite Hends.
  by apply set_prop_object.
Qed.

Lemma write_flat_after h cells result ps k v h' :
  flat_target k = true ->
  h !! result = Some (CObj ps) ->
  setValueByPath (h ++ cells) result k v = Ok h' ->
  take result h' = take result h
  /\ length h <= length h'
  /\ exists ps', h' !! result = Some (CObj ps').
Proof.
  intros Hflat Hres. pose proof (lookup_lt_Some _ _ _ Hres) as Hlt.
  rewrite (setValueByPath_flat _ _ ps _ _ Hflat)
    by (by rewrite lookup_app_l).
  intros [= <-]. destruct (val_eqb v VUndef).
  - rewrite take_app_le by lia. rewrite length_app.
    split; [done|]. split; [lia|]. exists ps. by rewrite lookup_app_l.
  - rewrite take_insert_ge by lia. rewrite take_app_le by lia.
    rewrite length_insert, length_app. split; [done|]. split; [lia|].
    eexists. apply list_lookup_insert_eq. rewrite length_app. lia.
Qed.

Lemma transform_entry_flat registry input result h log k spec h' log' ps :
  flat_target k = true ->
  h !! result = Some (CObj ps) ->
  transform_entry registry input result (h, log) (k, spec) = Ok (h', log') ->
  take result h' = take result h
  /\ length h <= length h'
  /\ exists ps', h' !! result = Some (CObj ps').
Proof.
  intros Hflat Hres. pose proof (lookup_lt_Some _ _ _ Hres) as Hlt.
  assert (forall cells,
            take result (h ++ cells) = take result h
            /\ length h <= length (h ++ cells)
            /\ exists ps', (h ++ cells) !! result = Some (CObj ps')) as Hread.
  { intros cells. rewrite take_app_le by lia. rewrite length_app.
    split; [done|]. split; [lia|]. exists ps. by rewrite lookup_app_l. }
  destruct (is_directive h spec) eqn:Hdir.
  - unfold transform_entry. unfold is_directive in Hdir. rewrite Hdir.
    destruct (_ || _).
    { intros [= <- _]. specialize (Hread []). by rewrite app_nil_r in Hread. }
    intros (name & _ & H)%bind_Ok.
    destruct (registry name) as [fn|].
    2:{ injection H as <- _. specialize (Hread []). by rewrite app_nil_r in Hread. }
    destruct (directive_args_extends h input spec) as [cells Hcells].
    destruct (directive_args h input spec) as [h1 args].
    cbn [fst] in Hcells. subst h1.
    destruct (fn (h ++ cells) args) as [out| |]; [| |done].
    + destruct (negb _); [|injection H as <- _; apply Hread].
      apply bind_Ok in H as (h2 & H2 & [= <- _]).
      by apply (write_flat_after h cells result ps k out h2).
    + injection H as <- _. apply Hread.
  - rewrite (transform_entry_resolve _ _ _ _ _ _ _ Hdir).
    destruct (resolveSpec_extends h input spec) as [cells Hcells].
    destruct (resolveSpec h input spec) as [h1 value].
    cbn [fst] in Hcells. subst h1.
    intros (h2 & H2 & [= <- _])%bind_Ok.
    by apply (write_flat_after h cells result ps k value h2).
Qed.

Lemma transform_entries_flat registry input result entries :
  flat_mapping entries = true ->
  forall h log h' log' ps,
    h !! result = Some (CObj ps) ->
    transform_entries registry input result (h, log) entries = Ok (h', log') ->
    take result h' = take result h /\ length h <= length h'.
Proof.
  induction entries as [|[k spec] rest IH]; cbn [flat_mapping forallb fst].
  { intros _ h log h' log' ps _ [= <- _]. done. }
  intros [Hk Hrest]%andb_true_iff h log h' log' ps Hres.
  cbn [transform_entries]. intros ([h1 log1] & H1 & H)%bind_Ok.
  destruct (transform_entry_flat _ _ _ _ _ _ _ _ _ _ Hk Hres H1)
    as (Htake1 & Hlen1 & ps1 & Hres1).
  destruct (IH Hrest h1 log1 h' log' ps1 Hres1 H) as [Htake Hlen].
  split; [congruence | lia].
Qed.

Lemma object_entries_prefix h g x :
  val_ok (length h) x -> object_entries (h ++ g) x = object_entries h x.
Proof.
  destruct x as [| | | | |a]; try done. cbn [val_ok object_entries].
  intros Ha. by rewrite lookup_app_l.
Qed.

Lemma transformOne_flat registry h log input mapping entries h' log' r :
  val_ok (length h) mapping ->
  object_entries h mapping = Ok entries ->
  flat_mapping entries = true ->
  transformOne registry (h, log) input mapping = Ok ((h', log'), r) ->
  r = VRef (length h) /\ exists cells, h' = h ++ cells.
Proof.
  intros Hm Hentries Hflat. unfold transformOne. cbn [alloc fst snd].
  rewrite object_entries_alloc, Hentries by done. cbn [mbind outcome_bind].
  intros ([h1 log1] & H1 & [= <- <- <-])%bind_Ok. split; [done|].
  destruct (transform_entries_flat _ _ _ _ Hflat _ _ _ _ []
              (lookup_alloc_new h (CObj [])) H1) as [Htake Hlen].
  rewrite take_app_le, firstn_all in Htake by done.
  exists (drop (length h) h1).
  rewrite <- (take_drop (length h) h1) at 1. by rewrite Htake.
Qed.

Lemma get_index_prefix h g x m :
  val_ok (length h) x -> get_index (h ++ g) x m = get_index h x m.
Proof.
  intros Hx. unfold get_index, array_elems. destruct x as [| | | | |a]; try done.
  cbn in Hx. by rewrite lookup_app_l.
Qed.

Lemma map_items_flat registry h entries input mapping ks :
  val_ok (length h) mapping ->
  object_entries h mapping = Ok entries ->
  flat_mapping entries = true ->
  forall g log outs st' rs,
    map_items registry (h ++ g, log) input mapping ks outs = Ok (st', rs) ->
    exists g', st'.1 = h ++ g'.
Proof.
  intros Hm Hentries Hflat. induction ks as [|k ks IH];
    intros g log outs st' rs; cbn [map_items].
  { intros [= <- _]. by exists g. }
  intros ([[h1 log1] r] & H1 & H)%bind_Ok. cbn [fst] in H1.
  apply (transformOne_flat _ _ _ _ _ entries) in H1 as [_ [cells ->]].
  - rewrite <- app_assoc in H. by apply IH in H.
  - eapply val_ok_mono; [|exact Hm]. rewrite length_app. lia.
  - by rewrite object_entries_prefix.
  - done.
Qed.

(** X11. Mappings that leave their input alone.  When every target path of
    the mapping is a single segment without the array mark (a key of the
    output record), [transform] changes no cell that was there before the
    call: the input, the mapping and everything else are as they were, and
    the store has only grown by new cells. *)
Theorem flat_mapping_leaves_the_store
  registry st input mapping entries st' out :
  val_ok (length st.1) mapping ->
  object_entries st.1 mapping = Ok entries ->
  flat_mapping entries = true ->
  transform registry st input mapping = Ok (st', out) ->
  exists cells, st'.1 = st.1 ++ cells.
Proof.
  destruct st as [h log], st' as [h' log']. cbn [fst snd].
  intros Hm Hentries Hflat. unfold transform. cbn [fst snd].
  destruct (is_array h input).
  - intros ([st1 rs] & H1 & H)%bind_Ok.
    rewrite <- (app_nil_r h) in H1 at 1.
    destruct (map_items_flat _ _ _ _ _ _ Hm Hentries Hflat _ _ _ _ _ H1)
      as [g' Hg']. cbn [alloc] in H. injection H as <- _ _.
    exists (g' ++ [CArr rs []]). by rewrite Hg', app_assoc.
  - intros H. by apply (transformOne_flat _ _ _ _ _ _ _ _ _ Hm Hentries Hflat) in H
      as [_ ?].
Qed.

Lemma flat_store_closed : closed Flat.store.
Proof. unfold closed, Flat.store. repeat constructor; cbn; lia. Qed.

Lemma flat_mapping_leaves_the_store_witness :
  exists st' out,
    transform Flat.registry (Flat.store, []) Flat.input Flat.mapping
    = Ok (st', out)
    /\ exists cells, st'.1 = Flat.store ++ cells.
Proof.
  eexists _, _. split; [vm_compute; reflexivity|].
  eapply (flat_mapping_leaves_the_store Flat.registry (Flat.store, [])
            Flat.input Flat.mapping Flat.entries).
  - cbn. lia.
  - reflexivity.
  - reflexivity.
  - vm_compute. reflexivity.
Defined.

(** ** Items of an array input under such a mapping *)

Lemma reify_extends h cells depth x :
  closed h -> val_ok (length h) x ->
  reify depth (h ++ cells) x = reify depth h x.
Proof.
  intros Hh Hx.
  pose proof (ins_reify (length h) cells depth h x (le_n _)) as H.
  by rewrite ins_closed, rv_ok in H.
Qed.

Lemma transformOne_ok registry h log input mapping h' log' r :
  (forall name fn, registry name = Some fn -> closed_fn fn) ->
  closed h ->
  val_ok (length h) input ->
  val_ok (length h) mapping ->
  transformOne registry (h, log) input mapping = Ok ((h', log'), r) ->
  closed h' /\ val_ok (length h') r.
Proof.
  intros Hreg Hh Hi Hm. unfold transformOne. cbn [alloc fst snd].
  rewrite object_entries_alloc by done.
  destruct (object_entries h mapping) as [entries| |] eqn:Hentries;
    cbn [mbind outcome_bind]; [|done..].
  intros ([h1 log1] & H1 & [= <- <- <-])%bind_Ok.
  pose proof (transform_entries_length _ _ _ _ _ _ H1) as Hlen.
  cbn [fst] in Hlen. rewrite length_app in Hlen. cbn in Hlen.
  split; [|cbn; lia].
  refine (transform_entries_ok registry input (length h) entries
            (h ++ [CObj []], log) (h1, log1) Hreg _ _ _ H1); cbn [fst].
  - apply closed_alloc; [done|constructor].
  - eapply val_ok_mono; [|exact Hi]. rewrite length_app. lia.
  - pose proof (object_entries_ok _ _ _ Hh Hentries) as Hok.
    revert Hok. apply Forall_weaken. intros kv. apply val_ok_mono.
    rewrite length_app. lia.
Qed.

Lemma transformOne_shifted registry h g log item mapping :
  (forall name fn, registry name = Some fn -> well_behaved fn) ->
  closed h ->
  val_ok (length h) item ->
  val_ok (length h) mapping ->
  transformOne registry (h ++ g, log) item mapping
  = (fun '(st, r) => ((ins (length h) g st.1, log ++ st.2),
                      rv (length h) g r))
      <$> transformOne registry (h, []) item mapping.
Proof.
  intros Hreg Hh Hi Hm. unfold transformOne. cbn [alloc fst snd].
  rewrite <- app_assoc, object_entries_prefix, object_entries_alloc by done.
  destruct (object_entries h mapping) as [entries| |] eqn:Hentries;
    cbn [mbind outcome_bind fmap outcome_fmap]; [|done..].
  pose proof (object_entries_ok _ _ _ Hh Hentries) as Hok.
  pose proof (ins_transform_entries (length h) g registry
                (fun name fn H => proj2 (Hreg name fn H) _ _)
                item (length h) entries (h ++ [CObj []], [])) as Hsim.
  unfold rstate in Hsim. cbn [fst snd] in Hsim.
  rewrite app_ins, ins_closed in Hsim by done.
  rewrite rv_ok, entries_ok_fmap in Hsim by done.
  assert (shift (length h) g (length h) = length (h ++ g)) as Hshift.
  { unfold shift. rewrite length_app.
    destruct (Nat.ltb_spec (length h) (length h)); lia. }
  rewrite Hshift in Hsim. cbn [rc rps fmap list_fmap] in Hsim.
  rewrite <- app_assoc in Hsim.
  pose proof (transform_entries_log registry item (length (h ++ g)) entries
                (h ++ g ++ [CObj []]) log []) as Hlog.
  rewrite app_nil_r in Hlog. rewrite Hlog, Hsim.
  { destruct (transform_entries registry item (length h)
                (h ++ [CObj []], []) entries) as [[h1 log1]| |];
      cbn [fmap outcome_fmap mbind outcome_bind with_log fst snd rv];
      [|done..].
    by rewrite Hshift. }
  rewrite length_app. lia.
Qed.

Lemma map_items_independent registry h entries input mapping :
  (forall name fn, registry name = Some fn -> well_behaved fn) ->
  closed h ->
  val_ok (length h) input ->
  val_ok (length h) mapping ->
  object_entries h mapping = Ok entries ->
  flat_mapping entries = true ->
  forall ks g log outs st' rs,
    closed (h ++ g) ->
    Forall (val_ok (length (h ++ g))) outs ->
    map_items registry (h ++ g, log) input mapping ks outs = Ok (st', rs) ->
    exists news,
      rs = outs ++ news
      /\ closed st'.1
      /\ Forall (val_ok (length st'.1)) rs
      /\ Forall2 (fun k r =>
                    item_result registry h mapping st'.1
                      (get_index h input (N.of_nat k)) r) ks news
      /\ (forall depth r,
            r ∈ outs -> reify depth st'.1 r = reify depth (h ++ g) r).
Proof.
  intros Hreg Hh Hi Hm Hentries Hflat.
  assert (forall name fn, registry name = Some fn -> closed_fn fn) as Hreg'
    by (intros name fn H; apply (Hreg name fn H)).
  induction ks as [|k ks IH]; intros g log outs st' rs Hg Houts;
    cbn [map_items].
  { intros [= <- <-]. exists []. rewrite app_nil_r. cbn [fst].
    repeat split; done. }
  cbn [fst]. rewrite get_index_prefix by done.
  set (item := get_index h input (N.of_nat k)).
  assert (val_ok (length h) item) as Hitem by by apply get_index_ok.
  intros ([[h1 log1] r] & H1 & H)%bind_Ok.
  assert (val_ok (length (h ++ g)) mapping) as Hm'
    by (eapply val_ok_mono; [|exact Hm]; rewrite length_app; lia).
  assert (val_ok (length (h ++ g)) item) as Hitem'
    by (eapply val_ok_mono; [|exact Hitem]; rewrite length_app; lia).
  destruct (transformOne_ok _ _ _ _ _ _ _ _ Hreg' Hg Hitem' Hm' H1)
    as [Hclosed1 Hr].
  destruct (transformOne_flat _ _ _ _ _ entries _ _ _ Hm'
              ltac:(by rewrite object_entries_prefix) Hflat H1)
    as [_ [cells Hcells]].
  rewrite (transformOne_shifted _ _ _ _ _ _ Hreg Hh Hitem Hm) in H1.
  destruct (transformOne registry (h, []) item mapping)
    as [[[h_i log_i] r_i]| |] eqn:Halone; cbn [fmap outcome_fmap] in H1;
    [|done..].
  injection H1 as Hh1 Hlog1 Hr1. cbn [fst snd] in Hh1, Hlog1.
  pose proof (transformOne_ok _ _ _ _ _ _ _ _ Hreg' Hh Hitem Hm Halone)
    as [_ Hr_i].
  assert (length h <= length h_i) as Hlen_i.
  { unfold transformOne in Halone. cbn [alloc fst snd] in Halone.
    apply bind_Ok in Halone as (es & _ & Halone).
    apply bind_Ok in Halone as ([h2 log2] & H2 & [= <- _ _]).
    apply transform_entries_length in H2. cbn [fst] in H2.
    rewrite length_app in H2. lia. }
  rewrite Hcells in H, Hclosed1, Hr, Hh1.
  rewrite <- app_assoc in H, Hclosed1, Hr.
  destruct (IH (g ++ cells) log1 (outs ++ [r]) st' rs Hclosed1) as
    (news & Hrs & Hclosed' & Hvals & Hall & Hold).
  { apply Forall_app. split; [|by apply Forall_singleton].
    revert Houts. apply vals_ok_mono. rewrite !length_app. lia. }
  { exact H. }
  exists (r :: news). subst rs. rewrite <- app_assoc in Hvals |- *.
  cbn [app] in Hvals |- *.
  split; [done|]. split; [done|]. split; [done|]. split.
  - constructor; [|done]. exists h_i, log_i, r_i. split; [done|].
    intros depth. rewrite Hold by (apply elem_of_app; right; by left).
    rewrite app_assoc, <- Hh1, <- Hr1.
    by apply ins_reify.
  - intros depth r0 Hr0.
    rewrite Hold by (apply elem_of_app; by left).
    rewrite app_assoc. apply reify_extends; [done|].
    by apply (Forall_forall (val_ok (length (h ++ g))) outs).
Qed.

(** X12. Under such a mapping the items of an array input are mapped
    independently.  The result has as many elements as the input, and
    element [i] reads back, to every depth, as the record that
    [transformOne] returns for item [i] when it is run on its own from the
    store as it was before the call.  The store is assumed free of dangling
    references and the registered functions well behaved.  (With nested
    targets this fails, see C7.) *)
Theorem flat_mapping_items_are_independent
  registry h log input mapping entries h' log' out :
  (forall name fn, registry name = Some fn -> well_behaved fn) ->
  closed h ->
  val_ok (length h) input ->
  val_ok (length h) mapping ->
  is_array h input = true ->
  object_entries h mapping = Ok entries ->
  flat_mapping entries = true ->
  transform registry (h, log) input mapping = Ok ((h', log'), out) ->
  length (array_elems h' out) = length (array_elems h input)
  /\ forall i item,
       array_elems h input !! i = Some item ->
       exists r,
         array_elems h' out !! i = Some r
         /\ item_result registry h mapping h' item r.
Proof.
  intros Hreg Hh Hi Hm Harr Hentries Hflat Hrun.
  pose proof (transform_array_length registry (h, log) input mapping
                (h', log') out Harr Hrun) as [_ Hlen]. cbn [fst] in Hlen.
  split; [done|].
  unfold transform in Hrun. cbn [fst snd] in Hrun. rewrite Harr in Hrun.
  apply bind_Ok in Hrun as ([[h1 log1] rs] & H1 & H).
  cbn [alloc fst snd] in H. injection H as <- _ <-.
  rewrite <- (app_nil_r h) in H1 at 1.
  destruct (map_items_independent _ _ _ _ _ Hreg Hh Hi Hm Hentries Hflat
              _ [] log [] _ _ ltac:(by rewrite app_nil_r)
              ltac:(constructor) H1)
    as (news & -> & Hclosed1 & Hvals & Hall & _).
  cbn [app fst] in *.
  assert (array_elems (h1 ++ [CArr news []]) (VRef (length h1)) = news)
    as Hout by (unfold array_elems; by rewrite lookup_alloc_new).
  rewrite Hout in *.
  intros i item Hitem.
  pose proof (lookup_lt_Some _ _ _ Hitem) as Hi_lt.
  destruct (lookup_lt_is_Some_2 news i) as [r Hr]; [lia|].
  exists r. split; [done|].
  assert (seq 0 (length (array_elems h input)) !! i = Some i) as Hk
    by (by apply lookup_seq).
  pose proof (Forall2_lookup_lr _ _ _ _ _ _ Hall Hk Hr)
    as (h_i & log_i & r_i & Halone & Hreify).
  assert (get_index h input (N.of_nat i) = item) as Hget.
  { unfold get_index.
    destruct (N.ltb_spec (N.of_nat i)
                (N.of_nat (length (array_elems h input)))); [|lia].
    by rewrite Nat2N.id, Hitem. }
  rewrite Hget in Halone.
  exists h_i, log_i, r_i. split; [done|]. intros depth.
  rewrite <- Hreify. apply reify_extends; [done|].
  by apply (Forall_lookup_1 _ _ _ _ Hvals Hr).
Qed.

Lemma flat_mapping_items_are_independent_witness :
  exists h' log' out,
    transform Flat.registry (Flat.store, []) Flat.input Flat.mapping
    = Ok ((h', log'), out)
    /\ length (array_elems h' out)
       = length (array_elems Flat.store Flat.input)
    /\ forall i item,
         array_elems Flat.store Flat.input !! i = Some item ->
         exists r,
           array_elems h' out !! i = Some r
           /\ item_result Flat.registry Flat.store Flat.mapping h' item r.
Proof.
  eexists _, _, _. split; [vm_compute; reflexivity|].
  eapply (flat_mapping_items_are_independent Flat.registry Flat.store []
            Flat.input Flat.mapping Flat.entries).
  - apply transforms_well_behaved.
  - apply flat_store_closed.
  - cbn. lia.
  - cbn. lia.
  - reflexivity.
  - reflexivity.
  - reflexivity.
  - vm_compute. reflexivity.
Defined.

(** the run of the witness, read back: the array, and each record mapped on
    its own *)
Example flat_runs :
  (fun r => '(st, out) ← r; Ok (reify 8 st.1 out, st.2))
    <$> [transform Flat.registry (Flat.store, []) Flat.input Flat.mapping;
         transform Flat.registry (Flat.store, []) (VRef 1) Flat.mapping;
         transform Flat.registry (Flat.store, []) (VRef 2) Flat.mapping]
  = [Ok (TArr [TObj [("id", TStr "1");
                     ("labels", TArr [TStr "x"; TStr "y"] []);
                     ("meta", TObj [("source", TStr "import")]);
                     ("country", TStr "United Kingdom")];
               TObj [("id", TStr "2"); ("labels", TArr [] []);
                     ("meta", TObj [("source", TStr "import")]);
                     ("country", TStr "ZZ")]] [], []);
     Ok (TObj [("id", TStr "1");
               ("labels", TArr [TStr "x"; TStr "y"] []);
               ("meta", TObj [("source", TStr "import")]);
               ("country", TStr "United Kingdom")], []);
     Ok (TObj [("id", TStr "2"); ("labels", TArr [] []);
               ("meta", TObj [("source", TStr "import")]);
               ("country", TStr "ZZ")], [])].
Proof. by vm_compute. Qed.

(** ** The record that such a mapping builds *)

Lemma resolveSpec_shape h input spec :
  closed h -> val_ok (length h) input -> val_ok (length h) spec ->
  (exists v, resolveSpec h input spec = (h, v) /\ val_ok (length h) v)
  \/ (exists items,
        resolveSpec h input spec = (h ++ [CArr items []], VRef (length h))
        /\ Forall (val_ok (length h)) items).
Proof.
  intros Hh Hi Hs. unfold resolveSpec.
  destruct (_ || _); [left; by eexists|].
  destruct (_ && _).
  { left. eexists. split; [done|]. by apply get_prop_ok. }
  destruct spec as [| | | |s|]; try (left; by eexists).
  destruct (Str.startsWith "=" s); [left; by eexists|].
  unfold getValueByPath. destruct (String.eqb s ""); [left; by eexists|].
  destruct (read_segments h (Single input) (Str.split "." s))
    as [[v|items]|] eqn:E; cbn [read_result alloc].
  - left. exists v. split; [done|].
    by apply (read_segments_ok _ (Single input) _ _ Hh Hi E).
  - right. exists items. split; [done|].
    by apply (read_segments_ok _ (Single input) _ _ Hh Hi E).
  - left. by eexists.
Qed.

Lemma resolveSpec_later h g input spec :
  closed h -> val_ok (length h) input -> val_ok (length h) spec ->
  resolveSpec (h ++ g) input spec
  = (ins (length h) g (resolveSpec h input spec).1,
     rv (length h) g (resolveSpec h input spec).2).
Proof.
  intros Hh Hi Hs.
  pose proof (ins_resolveSpec (length h) g h input spec (le_n _)) as H.
  by rewrite ins_closed, !rv_ok in H.
Qed.

Lemma is_directive_later h g spec :
  closed h -> val_ok (length h) spec ->
  is_directive (h ++ g) spec = is_directive h spec.
Proof.
  intros Hh Hs. unfold is_directive.
  pose proof (ins_is_plain_object (length h) g h spec (le_n _)) as H1.
  pose proof (ins_hasOwnProperty (length h) g h spec "$transform" (le_n _))
    as H2.
  rewrite ins_closed, rv_ok in H1, H2 by done. by rewrite H1, H2.
Qed.

Lemma reify_prefix h hh depth x :
  closed h -> take (length h) hh = h -> val_ok (length h) x ->
  reify depth hh x = reify depth h x.
Proof.
  intros Hh Htake Hx. rewrite <- (take_drop (length h) hh), Htake.
  by apply reify_extends.
Qed.

Lemma settled_later h hh hh' x :
  closed h ->
  take (length h) hh = h ->
  take (length h) hh' = h ->
  (forall a, length h < a -> a < length hh -> hh' !! a = hh !! a) ->
  settled h hh x ->
  settled h hh' x /\ forall depth, reify depth hh' x = reify depth hh x.
Proof.
  intros Hh Htake Htake' Hframe [Hx|(a & items & -> & Ha & Hcell & Hitems)].
  - split; [by left|]. intros depth.
    by rewrite (reify_prefix h hh'), (reify_prefix h hh) by done.
  - assert (hh' !! a = Some (CArr items [])) as Hcell'.
    { pose proof (lookup_lt_Some _ _ _ Hcell) as Hlt. by rewrite Hframe. }
    split; [right; by exists a, items|].
    intros [|d]; [done|]. cbn [reify]. rewrite Hcell, Hcell'. f_equal.
    clear Hcell Hcell'. induction Hitems as [|item items Hok _ IH]; [done|].
    cbn [map]. rewrite IH. f_equal.
    by rewrite (reify_prefix h hh'), (reify_prefix h hh) by done.
Qed.

Lemma transform_entry_flat_exact
  registry input result hh log k spec hh' log' ps :
  flat_target k = true ->
  hh !! result = Some (CObj ps) ->
  transform_entry registry input result (hh, log) (k, spec) = Ok (hh', log') ->
  exists cells ps',
    hh' = <[result := CObj ps']> (hh ++ cells)
    /\ (forall k0, String.eqb k k0 = false ->
                   props_get k0 ps' = props_get k0 ps)
    /\ (is_directive hh spec = false ->
        (resolveSpec hh input spec).1 = hh ++ cells
        /\ props_get k ps'
           = if val_eqb (resolveSpec hh input spec).2 VUndef
             then props_get k ps
             else Some (resolveSpec hh input spec).2).
Proof.
  intros Hflat Hres. pose proof (lookup_lt_Some _ _ _ Hres) as Hlt.
  assert (forall cells, <[result := CObj ps]> (hh ++ cells) = hh ++ cells)
    as Hsame.
  { intros cells. apply list_insert_id. by rewrite lookup_app_l. }
  assert (forall cells v h2,
            setValueByPath (hh ++ cells) result k v = Ok h2 ->
            h2 = <[result := CObj (if val_eqb v VUndef then ps
                                   else props_set k v ps)]> (hh ++ cells))
    as Hwrite.
  { intros cells v h2.
    rewrite (setValueByPath_flat _ _ ps _ _ Hflat)
      by (by rewrite lookup_app_l).
    intros [= <-]. destruct (val_eqb v VUndef); [by rewrite Hsame | done]. }
  assert (forall v k0, String.eqb k k0 = false ->
            props_get k0 (if val_eqb v VUndef then ps else props_set k v ps)
            = props_get k0 ps) as Hother.
  { intros v k0 Hk0. destruct (val_eqb v VUndef); [done|].
    by apply props_get_set_other. }
  destruct (is_directive hh spec) eqn:Hdir.
  - unfold transform_entry. unfold is_directive in Hdir. rewrite Hdir.
    destruct (_ || _).
    { intros [= <- _]. exists [], ps. rewrite Hsame, app_nil_r. done. }
    intros (name & _ & H)%bind_Ok.
    destruct (registry name) as [fn|].
    2:{ injection H as <- _. exists [], ps. rewrite Hsame, app_nil_r. done. }
    destruct (directive_args_extends hh input spec) as [cells Hcells].
    destruct (directive_args hh input spec) as [h1 args].
    cbn [fst] in Hcells. subst h1.
    destruct (fn (hh ++ cells) args) as [out| |]; [| |done].
    + destruct (negb _).
      * apply bind_Ok in H as (h2 & H2 & [= <- _]).
        apply Hwrite in H2. eexists cells, _. split; [exact H2|].
        split; [apply Hother | done].
      * injection H as <- _. exists cells, ps. by rewrite Hsame.
    + injection H as <- _. exists cells, ps. by rewrite Hsame.
  - rewrite (transform_entry_resolve _ _ _ _ _ _ _ Hdir).
    destruct (resolveSpec_extends hh input spec) as [cells Hcells].
    destruct (resolveSpec hh input spec) as [h1 value].
    cbn [fst snd] in *. subst h1.
    intros (h2 & H2 & [= <- _])%bind_Ok.
    apply Hwrite in H2. eexists cells, _. split; [exact H2|].
    split; [apply Hother|]. intros _. split; [done|].
    destruct (val_eqb value VUndef); [done|]. apply props_get_set.
Qed.

Lemma flat_entries_record registry h input todo :
  closed h ->
  val_ok (length h) input ->
  flat_mapping todo = true ->
  Forall (fun kv => val_ok (length h) kv.2) todo ->
  forall done hh log ps hh' log',
    NoDup ((done ++ todo).*1) ->
    take (length h) hh = h ->
    hh !! length h = Some (CObj ps) ->
    recorded h input done hh ps ->
    transform_entries registry input (length h) (hh, log) todo
    = Ok (hh', log') ->
    exists ps',
      take (length h) hh' = h
      /\ hh' !! length h = Some (CObj ps')
      /\ recorded h input (done ++ todo) hh' ps'.
Proof.
  intros Hh Hi. induction todo as [|[k spec] rest IH];
    cbn [flat_mapping forallb fst].
  { intros _ _ done hh log ps hh' log' _ Htake Hres Hinv [= <- _].
    exists ps. by rewrite app_nil_r. }
  intros [Hk Hrest]%andb_true_iff [Hspec Hspecs]%Forall_cons.
  intros done hh log ps hh' log' Hnodup Htake Hres Hinv.
  cbn [transform_entries]. intros ([hh1 log1] & H1 & H)%bind_Ok.
  cbn [snd] in Hspec.
  pose proof (lookup_lt_Some _ _ _ Hres) as Hlt.
  destruct (transform_entry_flat_exact _ _ _ _ _ _ _ _ _ _ Hk Hres H1)
    as (cells & ps1 & -> & Hother & Hthis).
  set (hh1 := <[length h := CObj ps1]> (hh ++ cells)) in *.
  assert (take (length h) hh1 = h) as Htake1.
  { unfold hh1. rewrite take_insert_ge by lia.
    rewrite take_app_le by lia. done. }
  assert (hh1 !! length h = Some (CObj ps1)) as Hres1.
  { unfold hh1. apply list_lookup_insert_eq. rewrite length_app. lia. }
  assert (forall a, length h < a -> a < length (hh ++ cells) ->
                    hh1 !! a = (hh ++ cells) !! a) as Hframe1.
  { intros a Ha _. unfold hh1. apply list_lookup_insert_ne. lia. }
  assert (take (length h) (hh ++ cells) = h) as Htake'
    by (by rewrite take_app_le by lia).
  assert (k ∉ done.*1) as Hfresh.
  { rewrite fmap_app in Hnodup. apply NoDup_app in Hnodup as (_ & Hdis & _).
    intros Hin. apply (Hdis k Hin). cbn. left. }
  destruct Hinv as [Hkeys Hvals].
  assert (props_get k ps = None) as Hnone.
  { destruct (props_get k ps) as [x|] eqn:E; [|done].
    destruct Hfresh. apply Hkeys. unfold has_own. by rewrite E. }
  assert (recorded h input (done ++ [(k, spec)]) hh1 ps1) as Hinv1.
  { split.
    - intros k0 Hk0. rewrite fmap_app. apply elem_of_app.
      destruct (String.eqb_spec k k0) as [<-|Hne]; [right; cbn; left|].
      left. apply Hkeys. unfold has_own in *.
      rewrite <- (Hother k0); [done|]. by apply String.eqb_neq.
    - intros k0 spec0 [Hin|Hin%list_elem_of_singleton]%elem_of_app Hdir0.
      + (* an earlier entry: its value is left as it was *)
        assert (String.eqb k k0 = false) as Hne.
        { apply String.eqb_neq. intros <-. apply Hfresh.
          apply list_elem_of_fmap. by exists (k, spec0). }
        rewrite (Hother _ Hne). specialize (Hvals k0 spec0 Hin Hdir0).
        destruct (props_get k0 ps) as [x|]; [|done].
        destruct Hvals as (Hdef & Hset & Hreify). split; [done|].
        assert (settled h (hh ++ cells) x
                /\ forall depth,
                     reify depth (hh ++ cells) x = reify depth hh x)
          as [Hset' Hreify'].
        { apply (settled_later h hh); try done.
          intros a _ Ha. by apply lookup_app_l. }
        destruct (settled_later h (hh ++ cells) hh1 x Hh Htake' Htake1
                    Hframe1 Hset') as [Hset1 Hreify1].
        split; [done|]. intros depth.
        by rewrite Hreify1, Hreify', Hreify.
      + (* the entry of this turn *)
        injection Hin as -> ->.
        assert (hh = h ++ drop (length h) hh) as Hhh
          by (by rewrite <- Htake at 1; rewrite take_drop).
        set (g := drop (length h) hh) in *.
        assert (is_directive hh spec = false) as Hdir
          by (rewrite Hhh; by rewrite is_directive_later).
        destruct (Hthis Hdir) as [Hcells Hget].
        rewrite Hhh in Hcells, Hget.
        rewrite (resolveSpec_later h g input spec Hh Hi Hspec) in Hcells, Hget.
        cbn [fst snd] in Hcells, Hget. rewrite <- Hhh in Hcells.
        rewrite rv_eqb_undef in Hget. rewrite Hget, Hnone.
        destruct (val_eqb (resolveSpec h input spec).2 VUndef) eqn:Hv.
        { by apply val_eqb_true in Hv. }
        apply val_eqb_false in Hv. split; [done|].
        assert (forall depth,
                  reify depth (hh ++ cells)
                    (rv (length h) g (resolveSpec h input spec).2)
                  = reify_in depth (resolveSpec h input spec)) as Hreify.
        { intros depth. rewrite <- Hcells. apply ins_reify.
          pose proof (resolveSpec_length h input spec). lia. }
        assert (settled h (hh ++ cells)
                  (rv (length h) g (resolveSpec h input spec).2)) as Hset.
        { destruct (resolveSpec_shape h input spec Hh Hi Hspec)
            as [(v & E & Hv')|(items & E & Hitems)];
            rewrite E in *; cbn [fst snd] in *.
          - left. by rewrite rv_ok.
          - right. exists (length hh), items.
            rewrite app_ins, ins_closed in Hcells by done.
            cbn [rc] in Hcells. rewrite rvs_ok in Hcells by done.
            cbn [rps fmap list_fmap] in Hcells. rewrite <- Hhh in Hcells.
            apply app_inv_head in Hcells. subst cells.
            split; [|split; [lia|split; [apply lookup_alloc_new|done]]].
            cbn [rv]. f_equal. unfold shift.
            destruct (Nat.ltb_spec (length h) (length h)); [lia|].
            unfold g. rewrite length_drop. lia. }
        destruct (settled_later h (hh ++ cells) hh1 _ Hh Htake' Htake1
                    Hframe1 Hset) as [Hset1 Hreify1].
        split; [done|]. intros depth. by rewrite Hreify1, Hreify. }
  destruct (IH Hrest Hspecs (done ++ [(k, spec)]) hh1 log1 ps1 hh' log')
    as (ps' & Hfinal); try done.
  { by rewrite <- app_assoc. }
  exists ps'. by rewrite <- app_assoc in Hfinal.
Qed.

(** X13. The record that such a mapping builds.  On an input that is not
    an array, the output record has no keys but target paths of the
    mapping.  For every entry that is not a transform directive, the output
    record has the target as a key of its own exactly when [resolveSpec]
    returns something other than undefined for the value of the entry on
    the input, and what it then holds under the key reads back, to every
    depth, as what [resolveSpec] returns.  The store is assumed free of
    dangling references, the keys of the mapping distinct, and none of them
    [__proto__]. *)
Theorem flat_mapping_record
  registry h log input mapping entries h' log' out :
  closed h ->
  val_ok (length h) input ->
  val_ok (length h) mapping ->
  is_array h input = false ->
  object_entries h mapping = Ok entries ->
  flat_mapping entries = true ->
  prototype_free_keys entries = true ->
  NoDup (entries.*1) ->
  transform registry (h, log) input mapping = Ok ((h', log'), out) ->
  (forall k, hasOwnProperty h' out k = true -> k ∈ entries.*1)
  /\ forall k spec,
       (k, spec) ∈ entries -> is_directive h spec = false ->
       hasOwnProperty h' out k
       = negb (val_eqb (resolveSpec h input spec).2 VUndef)
       /\ (hasOwnProperty h' out k = true ->
           forall depth,
             reify depth h' (get_prop h' out k)
             = reify_in depth (resolveSpec h input spec)).
Proof.
  intros Hh Hi Hm Harr Hentries Hflat _ Hnodup. unfold transform.
  cbn [fst snd]. rewrite Harr. unfold transformOne. cbn [alloc fst snd].
  rewrite object_entries_alloc, Hentries by done. cbn [mbind outcome_bind].
  intros ([h1 log1] & H1 & [= <- <- <-])%bind_Ok.
  destruct (flat_entries_record registry h input entries Hh Hi Hflat
              (object_entries_ok _ _ _ Hh Hentries)
              [] (h ++ [CObj []]) log [] h1 log1) as (ps & _ & Hres & Hinv);
    try done.
  { by rewrite take_app_le, firstn_all. }
  { apply lookup_alloc_new. }
  { split; [done|]. intros k spec Hin. by apply elem_of_nil in Hin. }
  cbn [app] in Hinv. destruct Hinv as [Hkeys Hvals].
  cbn [hasOwnProperty get_prop]. rewrite Hres. split; [exact Hkeys|].
  intros k spec Hin Hdir. specialize (Hvals k spec Hin Hdir).
  unfold has_own. destruct (props_get k ps) as [x|]; cbn [default].
  - destruct Hvals as (Hdef & _ & Hreify). split; [|done].
    apply val_eqb_false in Hdef. by rewrite Hdef.
  - rewrite Hvals. by split.
Qed.

Lemma flat_mapping_record_witness :
  exists h' log' out,
    transform Flat.registry (Flat.store, []) (VRef 1) Flat.mapping
    = Ok ((h', log'), out)
    /\ (forall k, hasOwnProperty h' out k = true -> k ∈ Flat.entries.*1)
    /\ forall k spec,
         (k, spec) ∈ Flat.entries -> is_directive Flat.store spec = false ->
         hasOwnProperty h' out k
         = negb (val_eqb (resolveSpec Flat.store (VRef 1) spec).2 VUndef)
         /\ (hasOwnProperty h' out k = true ->
             forall depth,
               reify depth h' (get_prop h' out k)
               = reify_in depth (resolveSpec Flat.store (VRef 1) spec)).
Proof.
  eexists _, _, _. split; [vm_compute; reflexivity|].
  eapply (flat_mapping_record Flat.registry Flat.store [] (VRef 1)
            Flat.mapping Flat.entries).
  - apply flat_store_closed.
  - cbn. lia.
  - cbn. lia.
  - reflexivity.
  - reflexivity.
  - reflexivity.
  - reflexivity.
  - apply (bool_decide_unpack _). by vm_compute.
  - vm_compute. reflexivity.
Defined.

(** ** Nothing is ever taken away *)

Lemma cell_grows_refl c : cell_grows c c.
Proof. destruct c; cbn; auto. Qed.

Lemma cell_grows_trans c1 c2 c3 :
  cell_grows c1 c2 -> cell_grows c2 c3 -> cell_grows c1 c3.
Proof.
  destruct c1, c2, c3; cbn; try done; [by auto|].
  intros [H1 H2] [H3 H4]. split; [lia | by auto].
Qed.

Lemma store_grows_refl h : store_grows h h.
Proof. intros a c Ha. exists c. split; [done | apply cell_grows_refl]. Qed.

Lemma store_grows_trans h1 h2 h3 :
  store_grows h1 h2 -> store_grows h2 h3 -> store_grows h1 h3.
Proof.
  intros H12 H23 a c Ha. destruct (H12 a c Ha) as (c2 & Ha2 & Hc2).
  destruct (H23 a c2 Ha2) as (c3 & Ha3 & Hc3).
  exists c3. split; [done|]. by eapply cell_grows_trans.
Qed.

Lemma store_grows_app h cells : store_grows h (h ++ cells).
Proof.
  intros a c Ha. exists c. split; [|apply cell_grows_refl].
  rewrite lookup_app_l; [done|]. by eapply lookup_lt_Some.
Qed.

Lemma store_grows_insert h a c c' :
  h !! a = Some c -> cell_grows c c' -> store_grows h (<[a := c']> h).
Proof.
  intros Ha Hc b cb Hb. destruct (decide (b = a)) as [->|Hne].
  - exists c'. rewrite list_lookup_insert_eq by (by eapply lookup_lt_Some).
    split; [done|]. congruence.
  - exists cb. rewrite list_lookup_insert_ne by done.
    split; [done | apply cell_grows_refl].
Qed.

Lemma has_own_replace k k' v ps :
  has_own k (props_replace k' v ps) = has_own k ps.
Proof.
  unfold has_own. induction ps as [|[k0 w] ps IH]; [done|].
  cbn [props_replace]. destruct (String.eqb k0 k') eqn:E; cbn [props_get].
  - by destruct (String.eqb k0 k).
  - destruct (String.eqb k0 k); [done | exact IH].
Qed.

Lemma has_own_insert_index n k k' v ps :
  has_own k ps = true -> has_own k (props_insert_index n k' v ps) = true.
Proof.
  unfold has_own. induction ps as [|[k0 w] ps IH]; [done|].
  cbn [props_insert_index props_get].
  destruct (parse_index k0) as [m|]; [destruct (m <? n)%N|];
    cbn [props_get]; destruct (String.eqb k0 k); try done;
    destruct (String.eqb k' k); try done; auto.
Qed.

Lemma has_own_app k ps qs :
  has_own k ps = true -> has_own k (ps ++ qs) = true.
Proof.
  unfold has_own. induction ps as [|[k0 w] ps IH]; [done|].
  cbn [app props_get]. by destruct (String.eqb k0 k).
Qed.

Lemma has_own_props_set k k' v ps :
  has_own k ps = true -> has_own k (props_set k' v ps) = true.
Proof.
  intros H. unfold props_set. destruct (has_own k' ps).
  - by rewrite has_own_replace.
  - destruct (parse_index k'); [by apply has_own_insert_index|].
    by apply has_own_app.
Qed.

Lemma set_prop_grows h a k v h' :
  set_prop h a k v = Ok h' -> store_grows h h'.
Proof.
  unfold set_prop. destruct (h !! a) as [[ps|els extra]|] eqn:Ha; [| |done].
  - intros [= <-]. apply (store_grows_insert _ _ _ _ Ha). cbn.
    intros k0. apply has_own_props_set.
  - destruct (parse_index k) as [n|].
    + destruct (n <? _)%N.
      * intros [= <-]. apply (store_grows_insert _ _ _ _ Ha). cbn.
        by rewrite length_insert.
      * destruct (n =? _)%N; [|done].
        intros [= <-]. apply (store_grows_insert _ _ _ _ Ha). cbn.
        rewrite length_app. split; [lia | done].
    + destruct (String.eqb k "length"); [done|].
      intros [= <-]. apply (store_grows_insert _ _ _ _ Ha). cbn.
      split; [done|]. intros k0. apply has_own_props_set.
Qed.

Lemma array_push_grows h x v h' :
  array_push h x v = Ok h' -> store_grows h h'.
Proof.
  destruct x as [| | | | |a]; try done. cbn [array_push].
  destruct (h !! a) as [[|els extra]|] eqn:Ha; try done.
  intros [= <-]. apply (store_grows_insert _ _ _ _ Ha). cbn.
  rewrite length_app. split; [lia | done].
Qed.

Lemma alloc_set_grows h c a k v h' :
  set_prop (h ++ [c]) a k v = Ok h' -> store_grows h h'.
Proof.
  intros H%set_prop_grows. eapply store_grows_trans; [|exact H].
  apply store_grows_app.
Qed.

Lemma ensure_array_grows h current k h' :
  ensure_array h current k = Ok h' -> store_grows h h'.
Proof.
  unfold ensure_array. destruct (negb _).
  - cbn [alloc]. apply alloc_set_grows.
  - intros [= <-]. apply store_grows_refl.
Qed.

Lemma ensure_carrier_grows h current k h' :
  ensure_carrier h current k = Ok h' -> store_grows h h'.
Proof.
  unfold ensure_carrier. destruct (_ || _).
  - destruct (get_prop h (VRef current) k); try done.
    cbn [alloc]. apply alloc_set_grows.
  - intros [= <-]. apply store_grows_refl.
Qed.

Lemma ensure_object_grows h current k h' :
  ensure_object h current k = Ok h' -> store_grows h h'.
Proof.
  unfold ensure_object. destruct (_ || _).
  - cbn [alloc]. apply alloc_set_grows.
  - intros [= <-]. apply store_grows_refl.
Qed.

Lemma write_segments_grows h current segments value h' :
  write_segments h current segments value = Ok h' -> store_grows h h'.
Proof.
  revert h current. induction segments as [|raw rest IH]; intros h current.
  { intros [= <-]. apply store_grows_refl. }
  cbn [write_segments]. destruct (Str.endsWith "[]" raw).
  - intros (h1 & H1%ensure_array_grows & H)%bind_Ok.
    eapply store_grows_trans; [exact H1|].
    destruct rest as [|next rest].
    + destruct (is_array h1 value).
      * cbn [alloc] in H. by apply alloc_set_grows in H.
      * by apply array_push_grows in H.
    + apply bind_Ok in H as (h2 & H2%ensure_carrier_grows & H).
      apply bind_Ok in H as (c & _ & H%IH).
      by eapply store_grows_trans.
  - destruct rest as [|next rest].
    + apply set_prop_grows.
    + intros (h1 & H1%ensure_object_grows & H)%bind_Ok.
      apply bind_Ok in H as (c & _ & H%IH).
      by eapply store_grows_trans.
Qed.

Lemma setValueByPath_grows h target path value h' :
  setValueByPath h target path value = Ok h' -> store_grows h h'.
Proof.
  unfold setValueByPath. destruct (val_eqb value VUndef).
  - intros [= <-]. apply store_grows_refl.
  - apply write_segments_grows.
Qed.

Lemma transform_entry_grows registry input result h log entry h' log' :
  transform_entry registry input result (h, log) entry = Ok (h', log') ->
  store_grows h h'.
Proof.
  destruct entry as [k spec].
  assert (forall cells v h2,
            setValueByPath (h ++ cells) result k v = Ok h2 ->
            store_grows h h2) as Hwrite.
  { intros cells v h2 H%setValueByPath_grows.
    eapply store_grows_trans; [apply store_grows_app | exact H]. }
  destruct (is_directive h spec) eqn:Hdir.
  - unfold transform_entry. unfold is_directive in Hdir. rewrite Hdir.
    destruct (_ || _); [intros [= <- _]; apply store_grows_refl|].
    intros (name & _ & H)%bind_Ok.
    destruct (registry name) as [fn|];
      [|injection H as <- _; apply store_grows_refl].
    destruct (directive_args_extends h input spec) as [cells Hcells].
    destruct (directive_args h input spec) as [h1 args].
    cbn [fst] in Hcells. subst h1.
    destruct (fn (h ++ cells) args) as [out| |]; [| |done].
    + destruct (negb _); [|injection H as <- _; apply store_grows_app].
      apply bind_Ok in H as (h2 & H2 & [= <- _]). by eapply Hwrite.
    + injection H as <- _. apply store_grows_app.
  - rewrite (transform_entry_resolve _ _ _ _ _ _ _ Hdir).
    destruct (resolveSpec_extends h input spec) as [cells Hcells].
    destruct (resolveSpec h input spec) as [h1 value].
    cbn [fst] in Hcells. subst h1.
    intros (h2 & H2 & [= <- _])%bind_Ok. by eapply Hwrite.
Qed.

Lemma transform_entries_grows registry input result entries st st' :
  transform_entries registry input result st entries = Ok st' ->
  store_grows st.1 st'.1.
Proof.
  revert st. induction entries as [|entry rest IH]; intros st.
  { intros [= <-]. apply store_grows_refl. }
  cbn [transform_entries]. intros ([h1 log1] & H1 & H%IH)%bind_Ok.
  destruct st as [h log]. apply transform_entry_grows in H1.
  by eapply store_grows_trans.
Qed.

Lemma transformOne_grows registry st input mapping st' r :
  transformOne registry st input mapping = Ok (st', r) ->
  store_grows st.1 st'.1.
Proof.
  unfold transformOne. cbn [alloc].
  intros (entries & _ & H)%bind_Ok.
  apply bind_Ok in H as (st1 & H1%transform_entries_grows & [= <- _]).
  cbn [fst] in H1. eapply store_grows_trans; [|exact H1].
  apply store_grows_app.
Qed.

Lemma map_items_grows registry input mapping ks :
  forall st outs st' rs,
    map_items registry st input mapping ks outs = Ok (st', rs) ->
    store_grows st.1 st'.1.
Proof.
  induction ks as [|k ks IH]; intros st outs st' rs; cbn [map_items].
  { intros [= <- _]. apply store_grows_refl. }
  intros ([st1 r] & H1%transformOne_grows & H%IH)%bind_Ok.
  by eapply store_grows_trans.
Qed.

Lemma transform_grows registry st input mapping st' out :
  transform registry st input mapping = Ok (st', out) ->
  store_grows st.1 st'.1.
Proof.
  unfold transform. destruct (is_array st.1 input).
  - intros ([st1 rs] & H1%map_items_grows & H)%bind_Ok.
    cbn [alloc] in H. injection H as <- _. cbn [fst].
    eapply store_grows_trans; [exact H1 | apply store_grows_app].
  - apply transformOne_grows.
Qed.

Lemma store_grows_observed h h' : store_grows h h' -> keeps_everything h h'.
Proof.
  intros Hg. split; [|split].
  - intros [| | | | |a] k; try done. cbn [hasOwnProperty].
    destruct (h !! a) as [c|] eqn:Ha; [|done].
    destruct (Hg a c Ha) as (c' & -> & Hc).
    destruct c as [ps|els extra], c' as [ps'|els' extra']; cbn in Hc;
      try done; [by auto|].
    destruct Hc as [Hlen Hkeys]. destruct (parse_index k) as [n|].
    + intros Hn%N.ltb_lt. apply N.ltb_lt. lia.
    + intros [H|H]%orb_true_iff; apply orb_true_iff; [by left|].
      right. by apply Hkeys.
  - intros [| | | | |a]; try done. cbn [val_ok is_array]. intros Hlt.
    destruct (lookup_lt_is_Some_2 h a Hlt) as [c Ha]. rewrite Ha.
    destruct (Hg a c Ha) as (c' & -> & Hc).
    by destruct c, c'.
  - intros [| | | | |a]; cbn [array_elems length]; try lia.
    destruct (h !! a) as [c|] eqn:Ha; [|cbn; lia].
    destruct (Hg a c Ha) as (c' & -> & Hc).
    destruct c, c'; cbn in *; try done; lia.
Qed.

(** the one assignment of the writer that can take something away, the
    length of an array, is not followed by the model *)
Example length_is_left_out :
  setValueByPath [CArr [VNum 1; VNum 2; VNum 3] []; CObj [("a", VRef 0)]] 1
    "a.length" (VNum 0)
  = Beyond.
Proof. reflexivity. Qed.

(** X14. The writer takes nothing away.  Take a run of [setValueByPath]
    on a path in which no key is [__proto__] and no key is [length] (an
    assignment to the [length] of an array can shorten it).  When the run
    completes, every own property that an object or array of the store had
    is still an own property of it, every array is still an array and every
    object still an object, and no array has become shorter.  Values may be
    replaced; nothing is deleted.  (A run that assigns past the end of an
    array leaves the model, and nothing is said of it.) *)
Theorem nothing_is_taken_away h target path value h' :
  prototype_free path = true ->
  assigns_length path = false ->
  setValueByPath h target path value = Ok h' ->
  keeps_everything h h'.
Proof.
  intros _ _ H.
  by apply store_grows_observed, (setValueByPath_grows _ _ _ _ _ H).
Qed.

Lemma nothing_is_taken_away_witness :
  keeps_everything
    [CArr [VNum 1] []; CObj [("list", VRef 0)]]
    [CArr [VNum 1] [("b", VNum 2)]; CObj [("list", VRef 0)]].
Proof.
  apply (nothing_is_taken_away _ 1 "list.b" (VNum 2)); reflexivity.
Defined.

(** ** Entries that stand for nothing *)

Lemma empty_entry registry input result st targetPath sourceSpec :
  is_empty_spec sourceSpec = true ->
  transform_entry registry input result st (targetPath, sourceSpec) = Ok st.
Proof.
  destruct st as [h log]. unfold is_empty_spec, transform_entry.
  destruct sourceSpec as [| |b|z|s|a]; try done.
  cbn [is_nullish orb]. intros ->. done.
Qed.

(** X15. Entries that stand for nothing.  A mapping entry whose value is
    the empty string, null or undefined is passed over: on an input that is
    not an array, [transform] with the entry in the mapping does exactly
    what it does with the entry left out (the same store, the same
    diagnostics, the same result). *)
Theorem empty_entries_are_as_removed
  registry st input with_entry without_entry before targetPath sourceSpec after :
  is_empty_spec sourceSpec = true ->
  val_ok (length st.1) with_entry ->
  val_ok (length st.1) without_entry ->
  is_array st.1 input = false ->
  object_entries st.1 with_entry
  = Ok (before ++ (targetPath, sourceSpec) :: after) ->
  object_entries st.1 without_entry = Ok (before ++ after) ->
  transform registry st input with_entry
  = transform registry st input without_entry.
Proof.
  destruct st as [h0 log0]. cbn [fst snd].
  intros Hempty Hwith Hwithout Harr Hentries Hentries'.
  unfold transform. cbn [fst snd]. rewrite Harr.
  unfold transformOne. cbn [alloc fst snd].
  rewrite !object_entries_alloc, Hentries, Hentries' by done.
  cbn [mbind outcome_bind]. rewrite !transform_entries_app.
  destruct (transform_entries registry input (length h0)
              (h0 ++ [CObj []], log0) before) as [st1| |];
    cbn [mbind outcome_bind]; [|done..].
  cbn [transform_entries]. by rewrite (empty_entry _ _ _ _ _ _ Hempty).
Qed.

Lemma empty_entries_are_as_removed_witness :
  transform (transforms no_intl)
    ([CObj [("id", VStr "7")];
      CObj [("id", VStr "id"); ("later", VStr ""); ("never", VNull)];
      CObj [("id", VStr "id"); ("never", VNull)]], [])
    (VRef 0) (VRef 1)
  = transform (transforms no_intl)
      ([CObj [("id", VStr "7")];
        CObj [("id", VStr "id"); ("later", VStr ""); ("never", VNull)];
        CObj [("id", VStr "id"); ("never", VNull)]], [])
      (VRef 0) (VRef 2).
Proof.
  apply (empty_entries_are_as_removed (transforms no_intl) _ (VRef 0)
           (VRef 1) (VRef 2) [("id", VStr "id")] "later" (VStr "")
           [("never", VNull)]).
  - reflexivity.
  - cbn. lia.
  - cbn. lia.
  - reflexivity.
  - reflexivity.
  - reflexivity.
Defined.
